(** * pixelforge: BVH construction and traversal, ray/primitive intersection,
    the per-sample PRNG, and the metaball field and smoothing code.

    Numbers.  The geometric code (bvh.js, environment.js) is modelled over
    exact rationals [Q]; where a JS number can become [Infinity] or [NaN]
    (bounding-box accumulators start at +/-Infinity, the slab test divides
    by direction components that may be zero) the model uses [jsnum],
    which adds the JS infinities and NaN to [Q].  Rounding is abstracted in
    that part.  The PRNG (raytrace.js) and the metaball code
    (shader-source.js) are modelled over Rocq's primitive IEEE-754 binary64
    floats, which are exactly the values of JS numbers. *)

From Stdlib Require Import ZArith QArith Qabs Qround List Permutation Lia Bool.
From Stdlib Require Import Qfield Lqa.
From Stdlib Require Import Floats.
Import ListNotations.

(* ================================================================= *)
(** ** JS numbers over the rationals *)

Inductive jsnum : Type :=
| NaN
| NegInf
| Fin (q : Q)
| PosInf.

Definition Qltb (x y : Q) : bool := negb (Qle_bool y x).

(** JS [a < b]: false as soon as one side is NaN. *)
Definition js_lt (a b : jsnum) : bool :=
  match a, b with
  | NaN, _ | _, NaN => false
  | NegInf, NegInf => false
  | NegInf, _ => true
  | Fin _, NegInf => false
  | Fin x, Fin y => Qltb x y
  | Fin _, PosInf => true
  | PosInf, _ => false
  end.

(** JS [a <= b]. *)
Definition js_le (a b : jsnum) : bool :=
  match a, b with
  | NaN, _ | _, NaN => false
  | _, _ => negb (js_lt b a)
  end.

Definition js_gt (a b : jsnum) : bool := js_lt b a.
Definition js_ge (a b : jsnum) : bool := js_le b a.

(** JS [a - b]. *)
Definition js_sub (a b : jsnum) : jsnum :=
  match a, b with
  | NaN, _ | _, NaN => NaN
  | Fin x, Fin y => Fin (x - y)
  | PosInf, PosInf | NegInf, NegInf => NaN
  | PosInf, _ => PosInf
  | NegInf, _ => NegInf
  | Fin _, PosInf => NegInf
  | Fin _, NegInf => PosInf
  end.

Definition js_scale_inf (x : Q) (pos : bool) : jsnum :=
  match Qcompare x 0 with
  | Gt => if pos then PosInf else NegInf
  | Lt => if pos then NegInf else PosInf
  | Eq => NaN
  end.

(** JS [a * b]. *)
Definition js_mul (a b : jsnum) : jsnum :=
  match a, b with
  | NaN, _ | _, NaN => NaN
  | Fin x, Fin y => Fin (x * y)
  | Fin x, PosInf | PosInf, Fin x => js_scale_inf x true
  | Fin x, NegInf | NegInf, Fin x => js_scale_inf x false
  | PosInf, PosInf | NegInf, NegInf => PosInf
  | PosInf, NegInf | NegInf, PosInf => NegInf
  end.

(** JS [1.0 / d] for a finite [d]; a zero direction component is taken
    as +0, whose reciprocal is +Infinity. *)
Definition js_recip (d : Q) : jsnum :=
  if Qeq_bool d 0 then PosInf else Fin (/ d).

(** JS arrays [[x, y, z]]. *)
Record v3 (A : Type) : Type := mk3 { c0 : A; c1 : A; c2 : A }.
Arguments mk3 {A} _ _ _.
Arguments c0 {A} _.
Arguments c1 {A} _.
Arguments c2 {A} _.

Definition vec3 := v3 Q.

(** [RT_EPSILON] of raytrace-common.js. *)
Definition RT_EPSILON : Q := 1 # 1000000.

(* ================================================================= *)
(** ** bvh.js: construction *)

(** A triangle is [[i0, i1, i2]], three vertex indices. *)
Definition tri := v3 nat.

(** [worldVerts[i]].  Meshes satisfy "every triangle index < vertex
    count"; out of range the JS value is [undefined] and reading a
    coordinate of it throws, so the default below is never observed on an
    input the code accepts. *)
Definition vert (worldVerts : list vec3) (i : nat) : vec3 :=
  nth i worldVerts (mk3 0 0 0).

Definition tri_at (triangles : list tri) (i : nat) : tri :=
  nth i triangles (mk3 0%nat 0%nat 0%nat).

(** The entries of [triInfos]. *)
Record tri_info : Type := mk_info {
  idx : nat; cx : Q; cy : Q; cz : Q }.

(** A BVH node [{ bmin, bmax, left, right, triIdx }]. *)
Record bvh_node : Type := mk_node {
  bmin : v3 jsnum; bmax : v3 jsnum;
  left : Z; right : Z; triIdx : Z }.

Section Build.

Variable worldVerts : list vec3.
Variable triangles : list tri.

(** [if (v < bminx) bminx = v] and [if (v > bmaxx) bmaxx = v]. *)
Definition upd_min (m : jsnum) (v : Q) : jsnum :=
  if js_lt (Fin v) m then Fin v else m.
Definition upd_max (m : jsnum) (v : Q) : jsnum :=
  if js_gt (Fin v) m then Fin v else m.

Definition upd_box (b : v3 jsnum * v3 jsnum) (v : vec3) : v3 jsnum * v3 jsnum :=
  let '(lo, hi) := b in
  (mk3 (upd_min (c0 lo) (c0 v)) (upd_min (c1 lo) (c1 v)) (upd_min (c2 lo) (c2 v)),
   mk3 (upd_max (c0 hi) (c0 v)) (upd_max (c1 hi) (c1 v)) (upd_max (c2 hi) (c2 v))).

Definition upd_box_tri (b : v3 jsnum * v3 jsnum) (info : tri_info)
  : v3 jsnum * v3 jsnum :=
  let t := tri_at triangles (idx info) in
  upd_box (upd_box (upd_box b (vert worldVerts (c0 t)))
                   (vert worldVerts (c1 t)))
          (vert worldVerts (c2 t)).

(** [computeTriangleAABB(worldVerts, triangles, triInfos, start, end)]:
    the slice [triInfos[start..end)] is the list [infos].  The min and max
    updates of different coordinates are independent, so grouping them per
    vertex is the order of the source. *)
Definition computeTriangleAABB (infos : list tri_info) : v3 jsnum * v3 jsnum :=
  fold_left upd_box_tri infos
    (mk3 PosInf PosInf PosInf, mk3 NegInf NegInf NegInf).

(** The key chosen by [dx >= dy && dx >= dz ? 'cx' : (dy >= dz ? 'cy' : 'cz')]. *)
Definition split_key (lo hi : v3 jsnum) : tri_info -> Q :=
  let dx := js_sub (c0 hi) (c0 lo) in
  let dy := js_sub (c1 hi) (c1 lo) in
  let dz := js_sub (c2 hi) (c2 lo) in
  if js_ge dx dy && js_ge dx dz then cx
  else if js_ge dy dz then cy else cz.

(** [Array.prototype.sort] with comparator [(a, b) => a[key] - b[key]]
    is stable; every stable sort by the key returns this list. *)
Fixpoint insert_by (k : tri_info -> Q) (x : tri_info) (l : list tri_info)
  : list tri_info :=
  match l with
  | [] => [x]
  | y :: l' => if Qle_bool (k x) (k y) then x :: l else y :: insert_by k x l'
  end.

Fixpoint sort_by (k : tri_info -> Q) (l : list tri_info) : list tri_info :=
  match l with
  | [] => []
  | x :: l' => insert_by k x (sort_by k l')
  end.

(** [buildNode(start, end)].  [infos] is [triInfos[start..end)] when the
    call starts and [base] is [nodes.length]; the result is the list of
    nodes the call appends to [nodes] (the node [nodes[nodeIdx]] first,
    then the nodes of the left and of the right call).  The call writes the
    sorted slice back into [triInfos[start..end)] and its recursive calls
    read and write only the two halves of that range, so passing the
    halves of the sorted slice is the same computation.  An empty range
    recurses forever in JS ([mid = start]); [fuel] running out ([None])
    stands for that. *)
Fixpoint buildNode (fuel : nat) (infos : list tri_info) (base : nat)
  : option (list bvh_node) :=
  match fuel with
  | O => None
  | S fuel' =>
      let '(lo, hi) := computeTriangleAABB infos in
      match infos with
      | [i] => Some [mk_node lo hi (-1) (-1) (Z.of_nat (idx i))]
      | _ =>
          let sub := sort_by (split_key lo hi) infos in
          let mid := Nat.shiftr (length infos) 1 in
          match buildNode fuel' (firstn mid sub) (S base) with
          | None => None
          | Some ln =>
              match buildNode fuel' (skipn mid sub) (S base + length ln) with
              | None => None
              | Some rn =>
                  Some (mk_node lo hi (Z.of_nat (S base))
                          (Z.of_nat (S base + length ln)) (-1) :: ln ++ rn)
              end
          end
      end
  end.

(** The initial [triInfos[i]]: index and centroid of triangle [i]. *)
Definition mkTriInfo (i : nat) : tri_info :=
  let t := tri_at triangles i in
  let v0 := vert worldVerts (c0 t) in
  let v1 := vert worldVerts (c1 t) in
  let v2 := vert worldVerts (c2 t) in
  mk_info i ((c0 v0 + c0 v1 + c0 v2) / 3)
            ((c1 v0 + c1 v1 + c1 v2) / 3)
            ((c2 v0 + c2 v1 + c2 v2) / 3).

(** [buildBVH(worldVerts, triangles)]. *)
Definition buildBVH : option (list bvh_node) :=
  let triCount := length triangles in
  let triInfos := map mkTriInfo (seq 0 triCount) in
  if Nat.ltb 0 triCount then buildNode triCount triInfos 0 else Some [].

End Build.

(** Triangle indices stored in the leaves ([triIdx >= 0]) of a node array. *)
Definition leaf_tri_indices (nodes : list bvh_node) : list Z :=
  map triIdx (filter (fun n => Z.leb 0 (triIdx n)) nodes).

(** [nodes[i]]: [undefined] (here [None]) for a negative or too large [i]. *)
Definition node_at (nodes : list bvh_node) (i : Z) : option bvh_node :=
  if Z.ltb i 0 then None else nth_error nodes (Z.to_nat i).

(** Child box [c] inside parent box [p], coordinate by coordinate:
    [c.bmin >= p.bmin] and [c.bmax <= p.bmax]. *)
Definition box_within (c p : bvh_node) : Prop :=
  js_ge (c0 (bmin c)) (c0 (bmin p)) = true /\
  js_ge (c1 (bmin c)) (c1 (bmin p)) = true /\
  js_ge (c2 (bmin c)) (c2 (bmin p)) = true /\
  js_le (c0 (bmax c)) (c0 (bmax p)) = true /\
  js_le (c1 (bmax c)) (c1 (bmax p)) = true /\
  js_le (c2 (bmax c)) (c2 (bmax p)) = true.

(** Coordinate [k] of a 3-vector. *)
Definition sel {A : Type} (k : nat) (v : v3 A) : A :=
  match k with O => c0 v | S O => c1 v | _ => c2 v end.

(** Coordinate [k] of the three vertices of each triangle of [infos], in
    the order [computeTriangleAABB] reads them. *)
Definition tri_vals (worldVerts : list vec3) (triangles : list tri) (k : nat)
  (infos : list tri_info) : list Q :=
  flat_map (fun info =>
    let t := tri_at triangles (idx info) in
    [sel k (vert worldVerts (c0 t)); sel k (vert worldVerts (c1 t));
     sel k (vert worldVerts (c2 t))]) infos.

(** [seg] sits in [nodes] from index [base] on. *)
Definition seg_at (nodes : list bvh_node) (base : nat) (seg : list bvh_node) : Prop :=
  forall k, (k < length seg)%nat -> nth_error nodes (base + k) = nth_error seg k.

(* ================================================================= *)
(** ** bvh.js: ray/triangle and ray/box tests *)

(** The [{ t, u, v }] of a hit. *)
Record tri_hit : Type := mk_hit { hit_t : Q; hit_u : Q; hit_v : Q }.

(** Moller-Trumbore, [rayTriangleIntersect(ox, oy, oz, dx, dy, dz, v0, v1, v2)];
    [None] is [null].  [det] is non-zero past the first test, so [1.0 / det]
    is exact. *)
Definition rayTriangleIntersect (o d v0 v1 v2 : vec3) : option tri_hit :=
  let e1x := c0 v1 - c0 v0 in let e1y := c1 v1 - c1 v0 in let e1z := c2 v1 - c2 v0 in
  let e2x := c0 v2 - c0 v0 in let e2y := c1 v2 - c1 v0 in let e2z := c2 v2 - c2 v0 in
  let px := c1 d * e2z - c2 d * e2y in
  let py := c2 d * e2x - c0 d * e2z in
  let pz := c0 d * e2y - c1 d * e2x in
  let det := e1x * px + e1y * py + e1z * pz in
  if Qltb (Qabs det) RT_EPSILON then None else
  let invDet := 1 / det in
  let tx := c0 o - c0 v0 in let ty := c1 o - c1 v0 in let tz := c2 o - c2 v0 in
  let u := (tx * px + ty * py + tz * pz) * invDet in
  if Qltb u 0 || Qltb 1 u then None else
  let qx := ty * e1z - tz * e1y in
  let qy := tz * e1x - tx * e1z in
  let qz := tx * e1y - ty * e1x in
  let v := (c0 d * qx + c1 d * qy + c2 d * qz) * invDet in
  if Qltb v 0 || Qltb 1 (u + v) then None else
  let t := (e2x * qx + e2y * qy + e2z * qz) * invDet in
  if Qltb t RT_EPSILON then None else
  Some (mk_hit t u v).

(** The [det] of [rayTriangleIntersect], [edge1 . (dir x edge2)]. *)
Definition rt_det (d v0 v1 v2 : vec3) : Q :=
  let e1x := c0 v1 - c0 v0 in let e1y := c1 v1 - c1 v0 in let e1z := c2 v1 - c2 v0 in
  let e2x := c0 v2 - c0 v0 in let e2y := c1 v2 - c1 v0 in let e2z := c2 v2 - c2 v0 in
  e1x * (c1 d * e2z - c2 d * e2y) + e1y * (c2 d * e2x - c0 d * e2z) +
  e1z * (c0 d * e2y - c1 d * e2x).

(** [if (a > b) { swap }]. *)
Definition order2 (a b : jsnum) : jsnum * jsnum :=
  if js_gt a b then (b, a) else (a, b).

(** Slab test, [rayAABBIntersect(ox, oy, oz, dx, dy, dz, bmin, bmax)]. *)
Definition rayAABBIntersect (o d : vec3) (lo hi : v3 jsnum) : bool :=
  let invDx := js_recip (c0 d) in
  let invDy := js_recip (c1 d) in
  let invDz := js_recip (c2 d) in
  let '(tmin, tmax) := order2 (js_mul (js_sub (c0 lo) (Fin (c0 o))) invDx)
                              (js_mul (js_sub (c0 hi) (Fin (c0 o))) invDx) in
  let '(tymin, tymax) := order2 (js_mul (js_sub (c1 lo) (Fin (c1 o))) invDy)
                                (js_mul (js_sub (c1 hi) (Fin (c1 o))) invDy) in
  if js_gt tmin tymax || js_gt tymin tmax then false else
  let tmin := if js_gt tymin tmin then tymin else tmin in
  let tmax := if js_lt tymax tmax then tymax else tmax in
  let '(tzmin, tzmax) := order2 (js_mul (js_sub (c2 lo) (Fin (c2 o))) invDz)
                                (js_mul (js_sub (c2 hi) (Fin (c2 o))) invDz) in
  js_le tmin tzmax && js_le tzmin tmax.

(** A box with finite corners, as [computeTriangleAABB] returns for a
    non-empty range. *)
Definition fin3 (a : vec3) : v3 jsnum := mk3 (Fin (c0 a)) (Fin (c1 a)) (Fin (c2 a)).

(* ================================================================= *)
(** ** bvh.js: traversal *)

(** [_bvhStack] is an [Int32Array(64)] indexed by [stackPtr].  The stack
    is the list of the slots [0 .. stackPtr-1], top first.  A write to a
    slot [>= 64] is dropped by the typed array and reading it back gives
    [undefined]: such an entry is [None]. *)
Definition BVH_STACK_SIZE : nat := 64.

Definition push (x : Z) (stk : list (option Z)) : list (option Z) :=
  (if Nat.ltb (length stk) BVH_STACK_SIZE then Some x else None) :: stk.

(** One iteration of the [while (stackPtr > 0)] loop of [bvhTraverse];
    [Crashed] is a [TypeError] thrown by [node.bmin] on [undefined]. *)
Inductive walk_state (A : Type) : Type :=
| Running (stack : list (option Z)) (acc : A)
| Finished (acc : A)
| Crashed.
Arguments Running {A} _ _.
Arguments Finished {A} _.
Arguments Crashed {A}.

Section Traverse.

Context {A : Type}.
Variables (o d : vec3) (nodes : list bvh_node).
(** The [onLeaf] callback with the state of its closure: it returns the
    new state and [true] to stop. *)
Variable onLeaf : A -> Z -> A * bool.

Definition walk_step (s : walk_state A) : walk_state A :=
  match s with
  | Running [] acc => Finished acc
  | Running (top :: rest) acc =>
      match top with
      | None => Crashed
      | Some i =>
          match node_at nodes i with
          | None => Crashed
          | Some node =>
              if negb (rayAABBIntersect o d (bmin node) (bmax node))
              then Running rest acc
              else if Z.leb 0 (triIdx node) then
                let '(acc', stop) := onLeaf acc (triIdx node) in
                if stop then Finished acc' else Running rest acc'
              else Running (push (right node) (push (left node) rest)) acc
          end
      end
  | s => s
  end.

Fixpoint walk_iter (n : nat) (s : walk_state A) : walk_state A :=
  match n with
  | O => s
  | S n' => walk_iter n' (walk_step s)
  end.

(** [bvhTraverse(ox, oy, oz, dx, dy, dz, nodes, onLeaf)] after [n]
    iterations: the stack starts as [[0]]. *)
Definition bvhTraverse (n : nat) (acc : A) : walk_state A :=
  walk_iter n (Running (push 0 []) acc).

End Traverse.

(** Each iteration pops one entry and each node of a tree is pushed at
    most once, so [length nodes + 1] iterations end the walk of a built
    BVH (see [bvhTraverse_terminates]). *)
Definition walk_fuel (nodes : list bvh_node) : nat := S (length nodes).

(** The [{ t, triIdx, hit }] of [bvhClosestHit]. *)
Record closest : Type := mk_closest {
  ch_t : jsnum; ch_triIdx : Z; ch_hit : option tri_hit }.

Definition tri_verts (worldVerts : list vec3) (triangles : list tri) (i : Z)
  : vec3 * vec3 * vec3 :=
  let t := tri_at triangles (Z.to_nat i) in
  (vert worldVerts (c0 t), vert worldVerts (c1 t), vert worldVerts (c2 t)).

(** The closure of [bvhClosestHit] over [bestT, bestTriIdx, bestHit]. *)
Definition closest_leaf (o d : vec3) (worldVerts : list vec3) (triangles : list tri)
  (acc : jsnum * Z * option tri_hit) (i : Z) : (jsnum * Z * option tri_hit) * bool :=
  let '(bestT, bestTriIdx, bestHit) := acc in
  let '(v0, v1, v2) := tri_verts worldVerts triangles i in
  match rayTriangleIntersect o d v0 v1 v2 with
  | Some h =>
      if js_lt (Fin (hit_t h)) bestT then ((Fin (hit_t h), i, Some h), false)
      else (acc, false)
  | None => (acc, false)
  end.

(** [bvhClosestHit(ox, oy, oz, dx, dy, dz, nodes, worldVerts, triangles, maxT)];
    the outer [None] is a thrown error. *)
Definition bvhClosestHit (o d : vec3) (nodes : list bvh_node) (worldVerts : list vec3)
  (triangles : list tri) (maxT : jsnum) : option (option closest) :=
  match nodes with
  | [] => Some None
  | _ =>
      match bvhTraverse o d nodes (closest_leaf o d worldVerts triangles)
              (walk_fuel nodes) (maxT, (-1)%Z, None) with
      | Finished (bestT, bestTriIdx, bestHit) =>
          Some (if Z.leb 0 bestTriIdx then Some (mk_closest bestT bestTriIdx bestHit)
                else None)
      | _ => None
      end
  end.

(** The closure of [bvhAnyHit] over [found]. *)
Definition any_leaf (o d : vec3) (worldVerts : list vec3) (triangles : list tri)
  (maxT : jsnum) (found : bool) (i : Z) : bool * bool :=
  let '(v0, v1, v2) := tri_verts worldVerts triangles i in
  match rayTriangleIntersect o d v0 v1 v2 with
  | Some h => if js_lt (Fin (hit_t h)) maxT then (true, true) else (found, false)
  | None => (found, false)
  end.

(** [bvhAnyHit(ox, oy, oz, dx, dy, dz, nodes, worldVerts, triangles, maxT)]. *)
Definition bvhAnyHit (o d : vec3) (nodes : list bvh_node) (worldVerts : list vec3)
  (triangles : list tri) (maxT : jsnum) : option bool :=
  match nodes with
  | [] => Some false
  | _ =>
      match bvhTraverse o d nodes (any_leaf o d worldVerts triangles maxT)
              (walk_fuel nodes) false with
      | Finished found => Some found
      | _ => None
      end
  end.

(** Shape of the tree below node [i] of a node array: its number of nodes
    and its height.  Every node reached by [left] and [right] exists. *)
Inductive wf_tree (nodes : list bvh_node) : Z -> nat -> nat -> Prop :=
| wf_leaf i p :
    node_at nodes i = Some p -> (0 <= triIdx p)%Z -> wf_tree nodes i 1 0
| wf_inner i p sl hl sr hr :
    node_at nodes i = Some p -> (triIdx p < 0)%Z ->
    wf_tree nodes (left p) sl hl -> wf_tree nodes (right p) sr hr ->
    wf_tree nodes i (S (sl + sr)) (S (Nat.max hl hr)).

(** Invariant of the traversal stack for a tree of height at most [D]: an
    entry at slot [p] (the length of the stack below it) is a subtree of
    height at most [D - p], or an [undefined] slot [64 <= p <= D].  The
    last index is the number of nodes still to be visited. *)
Inductive stk_inv (nodes : list bvh_node) (D : nat) : list (option Z) -> nat -> Prop :=
| si_nil : stk_inv nodes D [] 0
| si_some i s h rest m :
    (h + length rest <= D)%nat -> wf_tree nodes i s h ->
    stk_inv nodes D rest m -> stk_inv nodes D (Some i :: rest) (s + m)
| si_none rest m :
    (BVH_STACK_SIZE <= length rest <= D)%nat ->
    stk_inv nodes D rest m -> stk_inv nodes D (None :: rest) m.

(** State of the [bvhClosestHit] closure before any hit nearer than [m]. *)
Definition closest_far (m : Q) (acc : jsnum * Z * option tri_hit) : Prop :=
  match acc with
  | (PosInf, _, _) => True
  | (Fin x, _, _) => (m <= x)%Q
  | _ => False
  end.

(** State of the [bvhClosestHit] closure once it holds a hit nearer than [m]. *)
Definition closest_near (m : Q) (acc : jsnum * Z * option tri_hit) : Prop :=
  match acc with
  | (Fin x, i, _) => (x < m)%Q /\ (0 <= i)%Z
  | _ => False
  end.

(** The test [bvhClosestHit] and [bvhAnyHit] run on triangle [j]. *)
Definition hit_of (o d : vec3) (wv : list vec3) (ts : list tri) (j : Z) : option tri_hit :=
  let '(v0, v1, v2) := tri_verts wv ts j in rayTriangleIntersect o d v0 v1 v2.

(** Point [p] lies in the box [[lo, hi]], whose corners are finite. *)
Definition in_box (lo hi : v3 jsnum) (p : vec3) : Prop :=
  forall k, (k < 3)%nat -> exists a b, sel k lo = Fin a /\ sel k hi = Fin b /\
    (a <= sel k p /\ sel k p <= b)%Q.

(** The three vertices of triangle [j] lie in the box of node [n]. *)
Definition tri_in_box (wv : list vec3) (ts : list tri) (n : bvh_node) (j : Z) : Prop :=
  let '(v0, v1, v2) := tri_verts wv ts j in
  in_box (bmin n) (bmax n) v0 /\ in_box (bmin n) (bmax n) v1 /\ in_box (bmin n) (bmax n) v2.

(** The leaf of triangle [j] sits below node [i], and the box of every
    node on the way down holds the triangle. *)
Inductive leaf_below (wv : list vec3) (ts : list tri) (nodes : list bvh_node) : Z -> Z -> Prop :=
| leaf_below_leaf i p :
    node_at nodes i = Some p -> (0 <= triIdx p)%Z -> tri_in_box wv ts p (triIdx p) ->
    leaf_below wv ts nodes i (triIdx p)
| leaf_below_left i p j :
    node_at nodes i = Some p -> (triIdx p < 0)%Z -> tri_in_box wv ts p j ->
    leaf_below wv ts nodes (left p) j -> leaf_below wv ts nodes i j
| leaf_below_right i p j :
    node_at nodes i = Some p -> (triIdx p < 0)%Z -> tri_in_box wv ts p j ->
    leaf_below wv ts nodes (right p) j -> leaf_below wv ts nodes i j.

(* ================================================================= *)
(** ** bvh.js: [rayTriangleIntersect] at binary64 *)

(** The same function over JS numbers themselves, with each [const] of
    the source as a definition of its own. *)
Module F64.

Local Open Scope float_scope.

(** [1e-6] rounded to binary64, as JS parses it. *)
Definition RT_EPSILON : float := 0x1.0c6f7a0b5ed8dp-20.

Definition fvec := v3 float.

Definition sub3 (a b : fvec) : fvec := mk3 (c0 a - c0 b) (c1 a - c1 b) (c2 a - c2 b).

(** [e1 = v1 - v0], [e2 = v2 - v0]. *)
Definition edge1 (v0 v1 : fvec) : fvec := sub3 v1 v0.
Definition edge2 (v0 v2 : fvec) : fvec := sub3 v2 v0.

(** [p = d x e2]. *)
Definition pvec (d e2 : fvec) : fvec :=
  mk3 (c1 d * c2 e2 - c2 d * c1 e2)
      (c2 d * c0 e2 - c0 d * c2 e2)
      (c0 d * c1 e2 - c1 d * c0 e2).

Definition dot (a b : fvec) : float := c0 a * c0 b + c1 a * c1 b + c2 a * c2 b.

(** [det = e1 . p]. *)
Definition det (d v0 v1 v2 : fvec) : float := dot (edge1 v0 v1) (pvec d (edge2 v0 v2)).

(** [t = o - v0]. *)
Definition tvec (o v0 : fvec) : fvec := sub3 o v0.

(** [q = t x e1]. *)
Definition qvec (tv e1 : fvec) : fvec :=
  mk3 (c1 tv * c2 e1 - c2 tv * c1 e1)
      (c2 tv * c0 e1 - c0 tv * c2 e1)
      (c0 tv * c1 e1 - c1 tv * c0 e1).

Definition bary_u (o d v0 v1 v2 : fvec) : float :=
  dot (tvec o v0) (pvec d (edge2 v0 v2)) * (1 / det d v0 v1 v2).

Definition bary_v (o d v0 v1 v2 : fvec) : float :=
  dot d (qvec (tvec o v0) (edge1 v0 v1)) * (1 / det d v0 v1 v2).

Definition hit_dist (o d v0 v1 v2 : fvec) : float :=
  dot (edge2 v0 v2) (qvec (tvec o v0) (edge1 v0 v1)) * (1 / det d v0 v1 v2).

Record fhit : Type := mk_fhit { fh_t : float; fh_u : float; fh_v : float }.

Definition rayTriangleIntersect (o d v0 v1 v2 : fvec) : option fhit :=
  if abs (det d v0 v1 v2) <? RT_EPSILON then None else
  let u := bary_u o d v0 v1 v2 in
  if (u <? 0) || (1 <? u) then None else
  let v := bary_v o d v0 v1 v2 in
  if (v <? 0) || (1 <? u + v) then None else
  let t := hit_dist o d v0 v1 v2 in
  if t <? RT_EPSILON then None else
  Some (mk_fhit t u v).

(** A degenerate triangle ([v1 = v2]) with coordinates [2^1000]: the
    exact [det] is [0], the computed one is [-Infinity + Infinity]. *)
Definition ex_big : fvec := mk3 0x1p1000 0x1p1000 0.
Definition ex_origin : fvec := mk3 0 0 0.
Definition ex_o : fvec := mk3 0 0 (-1).
Definition ex_d : fvec := mk3 0 0 1.

End F64.

(* ================================================================= *)
(** ** floor.js: the rasterized floor mesh *)

Definition FLOOR_Y : Q := 120.
Definition FLOOR_TILE : Q := 80.
Definition FLOOR_HALF : Q := 6.
Definition FLOOR_Z_OFFSET : Q := 100.

(** [floorMesh], the mesh the software rasterizer draws for the ground
    ([drawObject] translates it by [FLOOR_Z_OFFSET] along [z]):
    [{ vertices, triangles, colors }]. *)
Record floor_mesh : Type := mk_floor_mesh {
  fm_vertices : list vec3; fm_triangles : list tri; fm_colors : list (v3 Z) }.

(** [const isWhite = (ix + iz) & 1; const col = isWhite ? [200, 200, 200]
    : [180, 30, 30]]. *)
Definition floor_color (ix iz : Z) : v3 Z :=
  if negb (Z.eqb (Z.land (ix + iz) 1) 0) then mk3 200%Z 200%Z 200%Z
  else mk3 180%Z 30%Z 30%Z.

(** The body of the inner loop: four vertices, two triangles, two colors. *)
Definition floor_tile (m : floor_mesh) (iz ix : Z) : floor_mesh :=
  let x0 := inject_Z ix * FLOOR_TILE in
  let x1 := inject_Z (ix + 1)%Z * FLOOR_TILE in
  let z0 := inject_Z iz * FLOOR_TILE in
  let z1 := inject_Z (iz + 1)%Z * FLOOR_TILE in
  let vi := length (fm_vertices m) in
  let col := floor_color ix iz in
  mk_floor_mesh
    (fm_vertices m ++ [mk3 x0 FLOOR_Y z0; mk3 x1 FLOOR_Y z0;
                       mk3 x1 FLOOR_Y z1; mk3 x0 FLOOR_Y z1])
    (fm_triangles m ++ [mk3 vi (vi + 1) (vi + 2); mk3 vi (vi + 2) (vi + 3)])%nat
    (fm_colors m ++ [col; col]).

(** The loop counters [-FLOOR_HALF <= i < FLOOR_HALF]; [FLOOR_HALF] is
    the integer [6]. *)
Definition floor_range : list Z :=
  map (fun k => - Qnum FLOOR_HALF + Z.of_nat k)%Z
      (seq 0 (Z.to_nat (2 * Qnum FLOOR_HALF)%Z)).

(** [for (iz ...) for (ix ...)]: rows along [z] outside, columns along [x]
    inside. *)
Definition floorMesh : floor_mesh :=
  fold_left (fun m iz => fold_left (fun m ix => floor_tile m iz ix) floor_range m)
    floor_range (mk_floor_mesh [] [] []).

(* ================================================================= *)
(** ** environment.js: the environment color *)

(** JS [-a]. *)
Definition js_neg (a : jsnum) : jsnum :=
  match a with
  | NaN => NaN
  | NegInf => PosInf
  | Fin x => Fin (- x)
  | PosInf => NegInf
  end.

(** JS [a + b]. *)
Definition js_add (a b : jsnum) : jsnum :=
  match a, b with
  | NaN, _ | _, NaN => NaN
  | Fin x, Fin y => Fin (x + y)
  | PosInf, NegInf | NegInf, PosInf => NaN
  | PosInf, _ | _, PosInf => PosInf
  | NegInf, _ | _, NegInf => NegInf
  end.

(** JS [a / b]; a zero divisor is taken as +0. *)
Definition js_div (a b : jsnum) : jsnum :=
  match a, b with
  | NaN, _ | _, NaN => NaN
  | Fin x, Fin y => if Qeq_bool y 0 then js_scale_inf x true else Fin (x / y)
  | Fin _, (PosInf | NegInf) => Fin 0
  | PosInf, Fin y => if Qeq_bool y 0 then PosInf else js_scale_inf y true
  | NegInf, Fin y => if Qeq_bool y 0 then NegInf else js_scale_inf y false
  | (PosInf | NegInf), (PosInf | NegInf) => NaN
  end.

(** [Math.max(a, b)] and [Math.min(a, b)]: NaN as soon as one side is. *)
Definition Math_max (a b : jsnum) : jsnum :=
  match a, b with
  | NaN, _ | _, NaN => NaN
  | _, _ => if js_lt a b then b else a
  end.

Definition Math_min (a b : jsnum) : jsnum :=
  match a, b with
  | NaN, _ | _, NaN => NaN
  | _, _ => if js_lt b a then b else a
  end.

(** [a | 0], that is [ToInt32(a)]: NaN and the infinities give [0], a
    finite number is truncated toward zero and wrapped into
    [[-2^31, 2^31)]. *)
Definition js_toint32 (a : jsnum) : Z :=
  match a with
  | Fin q => ((Z.quot (Qnum q) (Zpos (Qden q)) + 2 ^ 31) mod 2 ^ 32 - 2 ^ 31)%Z
  | _ => 0%Z
  end.

(** [data[i]] on a [Uint8ClampedArray]: an integer index in range reads a
    byte, any other number reads [undefined] ([None]). *)
Definition js_get (data : list Z) (i : jsnum) : option jsnum :=
  match i with
  | Fin q =>
      let z := Qfloor q in
      if Qeq_bool q (inject_Z z) && Z.leb 0 z
      then option_map (fun b => Fin (inject_Z b)) (nth_error data (Z.to_nat z))
      else None
  | _ => None
  end.

(** [WIDTH], [HEIGHT] and [fov] of primitives.js. *)
Definition WIDTH : Q := 800.
Definition HEIGHT : Q := 420.
Definition fov : Q := 500.

(** [environment._sky]: [imageData] is [null] ([None]) until the sky
    image has loaded; [width] and [height] are the canvas's integer
    dimensions. *)
Record sky_data : Type := mk_sky {
  sky_imageData : option (list Z); sky_width : Z; sky_height : Z }.

(** [envColor(dx, dy, dz)]; each channel is [None] when it reads
    [undefined]. *)
Definition envColor (sky : sky_data) (dx dy dz : jsnum) : v3 (option jsnum) :=
  match sky_imageData sky with
  | None =>
      let t := Math_max (Fin 0) (Math_min (Fin 1)
                 (js_add (js_mul (js_neg dy) (Fin (3 # 2))) (Fin (1 # 2)))) in
      let v := js_add (Fin 80) (js_mul t (Fin 175)) in
      mk3 (Some v) (Some v) (Some v)
  | Some data =>
      let sw := Fin (inject_Z (sky_width sky)) in
      let sh := Fin (inject_Z (sky_height sky)) in
      let halfW := js_mul (Fin WIDTH) (Fin (1 # 2)) in
      let halfH := js_mul (Fin HEIGHT) (Fin (1 # 2)) in
      let u := Math_max (Fin 0) (Math_min (Fin 1)
                 (js_div (js_add (js_mul (js_div dx dz) (Fin fov)) halfW) (Fin WIDTH))) in
      let v := Math_max (Fin 0) (Math_min (Fin 1)
                 (js_div (js_add (js_mul (js_div dy dz) (Fin fov)) halfH) (Fin HEIGHT))) in
      let px := Math_max (Fin 0) (Math_min (js_sub sw (Fin 1))
                  (Fin (inject_Z (js_toint32 (js_mul u sw))))) in
      let py := Math_max (Fin 0) (Math_min (js_sub sh (Fin 1))
                  (Fin (inject_Z (js_toint32 (js_mul v sh))))) in
      let idx := js_mul (js_add (js_mul py sw) px) (Fin 4) in
      mk3 (js_get data idx) (js_get data (js_add idx (Fin 1)))
          (js_get data (js_add idx (Fin 2)))
  end.

(* ================================================================= *)
(** ** shader-source.js: metaball field, smoothing and mesh generator,
    over binary64 *)

Module Metaball.

Local Open Scope float_scope.

Definition fvec := v3 float.

(** A ball [{x, y, z, radius}]. *)
Record ball : Type := mk_ball { x : float; y : float; z : float; radius : float }.

(** A small array index converted to a JS number (exact below [2^53]). *)
Definition float_of_nat (k : nat) : float :=
  SF2Prim (binary_normalize 53 1024 (Z.of_nat k) 0 false).

(** [Math.fround]: the binary32 value nearest to [v] (ties to even), which
    is what a [Float32Array] element holds after [field[k] = v]. *)
Definition fround (v : float) : float :=
  match Prim2SF v with
  | S754_finite s m e => SF2Prim (binary_round 24 128 s m e)
  | _ => v
  end.

(** [a[i] = v] on an array of fixed length: out-of-range writes are not
    needed here, and are dropped as a typed array drops them. *)
Fixpoint set_nth {A} (i : nat) (v : A) (l : list A) : list A :=
  match l, i with
  | [], _ => []
  | _ :: l', O => v :: l'
  | a :: l', S i' => a :: set_nth i' v l'
  end.

(** [Math.min] and [Math.max] of two numbers: NaN if either is NaN, and
    [-0] counts as smaller than [+0]. *)
Definition js_min (a b : float) : float :=
  if is_nan a || is_nan b then nan
  else if a <? b then a else if b <? a then b
  else if get_sign a then a else b.

Definition js_max (a b : float) : float :=
  if is_nan a || is_nan b then nan
  else if a <? b then b else if b <? a then a
  else if get_sign a then b else a.

(** [0.0001] as JS parses it. *)
Definition FIELD_EPS : float := 0x1.a36e2eb1c432dp-14.

(** The inner loop of [evaluateField]: [val] at [(px, py, pz)]. *)
Definition evaluateField_val (balls : list ball) (px py pz : float) : float :=
  fold_left (fun val b =>
    let dx := px - x b in
    let dy := py - y b in
    let dz := pz - z b in
    let dist2 := dx * dx + dy * dy + dz * dz in
    let r := radius b in
    val + (r * r) / (dist2 + FIELD_EPS)) balls 0.

(** [evaluateField(balls, gridMin, cellSize, res)] for an integer
    [res >= 0]; the result is the [Float32Array] of [(res+1)^3] samples,
    each element read back as a JS number. *)
Definition evaluateField (balls : list ball) (gridMin : fvec) (cellSize : float)
    (res : nat) : list float :=
  let n := S res in
  fold_left (fun field iz =>
    let pz := c2 gridMin + float_of_nat iz * cellSize in
    fold_left (fun field iy =>
      let py := c1 gridMin + float_of_nat iy * cellSize in
      fold_left (fun field ix =>
        let px := c0 gridMin + float_of_nat ix * cellSize in
        set_nth ((iz * n + iy) * n + ix)%nat
          (fround (evaluateField_val balls px py pz)) field)
        (seq 0 n) field)
      (seq 0 n) field)
    (seq 0 n) (repeat 0 (n * n * n)%nat).

(** The object [{val, gx, gy, gz}]. *)
Record field_grad : Type := mk_fg { val : float; gx : float; gy : float; gz : float }.

Definition evalFieldAndGradient (px py pz : float) (balls : list ball) : field_grad :=
  fold_left (fun acc b =>
    let dx := px - x b in
    let dy := py - y b in
    let dz := pz - z b in
    let dist2 := dx * dx + dy * dy + dz * dz + FIELD_EPS in
    let r2 := radius b * radius b in
    let factor := (-2) * r2 / (dist2 * dist2) in
    mk_fg (val acc + r2 / dist2) (gx acc + factor * dx)
          (gy acc + factor * dy) (gz acc + factor * dz))
    balls (mk_fg 0 0 0 0).

(** A mesh object [{vertices, triangles}], with the [normals] property
    once it has been set. *)
Record mesh : Type :=
  mk_mesh { vertices : list fvec; triangles : list tri; normals : option (list fvec) }.

(** [mesh.vertices[i] = v]: the array is updated in place. *)
Definition set_vertex (m : mesh) (i : nat) (v : fvec) : mesh :=
  mk_mesh (set_nth i v (vertices m)) (triangles m) (normals m).

Definition obind {A B} (o : option A) (f : A -> option B) : option B :=
  match o with Some a => f a | None => None end.

Fixpoint fold_opt {A B} (f : A -> B -> option A) (l : list B) (a : A) : option A :=
  match l with
  | [] => Some a
  | b :: l' => obind (f a b) (fold_opt f l')
  end.

(** [Set.prototype.add] on a set kept in insertion order. *)
Definition set_add (s : list nat) (v : nat) : list nat :=
  if existsb (Nat.eqb v) s then s else s ++ [v].

(** [neighborSets[i].add(j)]: with [i] out of range, [neighborSets[i]] is
    undefined and the call throws. *)
Definition add_neighbor (i j : nat) (sets : list (list nat)) : option (list (list nat)) :=
  match nth_error sets i with
  | Some s => Some (set_nth i (set_add s j) sets)
  | None => None
  end.

Definition add_tri (sets : list (list nat)) (t : tri) : option (list (list nat)) :=
  obind (add_neighbor (c0 t) (c1 t) sets) (fun sets =>
  obind (add_neighbor (c0 t) (c2 t) sets) (fun sets =>
  obind (add_neighbor (c1 t) (c0 t) sets) (fun sets =>
  obind (add_neighbor (c1 t) (c2 t) sets) (fun sets =>
  obind (add_neighbor (c2 t) (c0 t) sets) (fun sets =>
  add_neighbor (c2 t) (c1 t) sets))))).

Definition vzero : fvec := mk3 0 0 0.

(** One step of the Laplacian loop.  Every index in a neighbour set was
    also looked up as [neighborSets[k]], so it is a valid vertex index. *)
Definition laplacian_vertex (sets : list (list nat)) (m : mesh) (i : nat) : mesh :=
  match nth i sets [] with
  | [] => m
  | neighbors =>
      let a := fold_left (fun a ni =>
                 let w := nth ni (vertices m) vzero in
                 mk3 (c0 a + c0 w) (c1 a + c1 w) (c2 a + c2 w)) neighbors vzero in
      let n := float_of_nat (length neighbors) in
      let v := nth i (vertices m) vzero in
      set_vertex m i (mk3 (c0 v * 0.5 + (c0 a / n) * 0.5)
                          (c1 v * 0.5 + (c1 a / n) * 0.5)
                          (c2 v * 0.5 + (c2 a / n) * 0.5))
  end.

(** [1e-10] as JS parses it. *)
Definition GMAG2_MIN : float := 0x1.b7cdfd9d7bdbbp-34.

(** One step of the Newton projection loop. *)
Definition newton_vertex (balls : list ball) (threshold : float) (m : mesh) (i : nat) : mesh :=
  let p := nth i (vertices m) vzero in
  let fg := evalFieldAndGradient (c0 p) (c1 p) (c2 p) balls in
  let gmag2 := gx fg * gx fg + gy fg * gy fg + gz fg * gz fg in
  if gmag2 <? GMAG2_MIN then m
  else
    let step := (val fg - threshold) / gmag2 in
    set_vertex m i (mk3 (c0 p - gx fg * step) (c1 p - gy fg * step) (c2 p - gz fg * step)).

(** [smoothMesh(mesh.vertices, mesh.triangles, balls, threshold,
    iterations)] for an integer [iterations >= 0], as a transformer of the
    mesh object that owns the two (distinct) arrays; [None] when it
    throws. *)
Definition smoothMesh (m : mesh) (balls : list ball) (threshold : float)
    (iterations : nat) : option mesh :=
  obind (fold_opt add_tri (triangles m) (repeat [] (length (vertices m)))) (fun sets =>
  Some (fold_left (fun m _ =>
          let m := fold_left (laplacian_vertex sets) (seq 0 (length (vertices m))) m in
          fold_left (newton_vertex balls threshold) (seq 0 (length (vertices m))) m)
        (seq 0 iterations) m)).

(** [Math.sqrt(...) || 1]: zero and NaN are falsy. *)
Definition computeMetaballNormals (vs : list fvec) (balls : list ball) : list fvec :=
  map (fun p =>
    let fg := evalFieldAndGradient (c0 p) (c1 p) (c2 p) balls in
    let s := sqrt (gx fg * gx fg + gy fg * gy fg + gz fg * gz fg) in
    let len := if (s =? 0) || is_nan s then 1 else s in
    mk3 ((- gx fg) / len) ((- gy fg) / len) ((- gz fg) / len)) vs.

Section Generate.

(** [marchingCubes(field, res, gridMin, cellSize, threshold)], returning
    the arrays [vertices] and [triangles] of a fresh [{vertices,
    triangles}] object. *)
Variable marchingCubes : list float -> nat -> fvec -> float -> float -> list fvec * list tri.

Definition generateMetaballMesh (balls : list ball) (res : nat) (threshold : float)
    : option mesh :=
  match balls with
  | [] => Some (mk_mesh [mk3 0 0 0] [] None)
  | _ =>
      let padding := 1.5 in
      let '(mn, mx) :=
        fold_left (fun '(mn, mx) b =>
          let r := radius b * padding in
          (mk3 (js_min (c0 mn) (x b - r)) (js_min (c1 mn) (y b - r)) (js_min (c2 mn) (z b - r)),
           mk3 (js_max (c0 mx) (x b + r)) (js_max (c1 mx) (y b + r)) (js_max (c2 mx) (z b + r))))
          balls (mk3 infinity infinity infinity, mk3 neg_infinity neg_infinity neg_infinity) in
      let span := js_max (js_max (c0 mx - c0 mn) (c1 mx - c1 mn)) (c2 mx - c2 mn) in
      let cx := (c0 mn + c0 mx) * 0.5 in
      let cy := (c1 mn + c1 mx) * 0.5 in
      let cz := (c2 mn + c2 mx) * 0.5 in
      let half := span * 0.5 in
      let gridMin := mk3 (cx - half) (cy - half) (cz - half) in
      let cellSize := span / float_of_nat res in
      let field := evaluateField balls gridMin cellSize res in
      let '(vs, ts) := marchingCubes field res gridMin cellSize threshold in
      obind (smoothMesh (mk_mesh vs ts None) balls threshold 2) (fun m =>
      Some (mk_mesh (vertices m) (triangles m)
                    (Some (computeMetaballNormals (vertices m) balls))))
  end.

End Generate.

End Metaball.

(* ================================================================= *)
(** ** raytrace.js: the per-sample PRNG and [traceRay], over binary64 *)

Module Raytrace.

Local Open Scope float_scope.

Definition fvec := v3 float.

(** The integer part of a finite number, rounded toward zero; [0] for
    NaN and the infinities. *)
Definition trunc_Z (f : float) : Z :=
  match Prim2SF f with
  | S754_finite s m e =>
      let a := if (0 <=? e)%Z then (Z.pos m * 2 ^ e)%Z else (Z.pos m / 2 ^ (- e))%Z in
      if s then (- a)%Z else a
  | _ => 0%Z
  end.

(** ECMAScript ToInt32, applied to the operands of [&]. *)
Definition ToInt32 (f : float) : Z :=
  let k := (trunc_Z f mod 2 ^ 32)%Z in
  if (2 ^ 31 <=? k)%Z then (k - 2 ^ 32)%Z else k.

(** An integer as a JS number (exact below [2^53]). *)
Definition float_of_Z (k : Z) : float :=
  SF2Prim (binary_normalize 53 1024 k 0 false).

Definition float_of_nat (k : nat) : float := float_of_Z (Z.of_nat k).

(** A computation of raytrace.js that uses the module-level
    [_shadowSeed]: it runs from the seed it finds, and returns its result,
    the values [fastRand] returned during the run (in order), and the seed
    it leaves. *)
Definition M (A : Type) : Type := float -> A * list float * float.

Definition ret {A} (a : A) : M A := fun s => (a, [], s).

Definition bind {A B} (m : M A) (k : A -> M B) : M B :=
  fun s => let '(a, w1, s1) := m s in
           let '(b, w2, s2) := k a s1 in
           (b, w1 ++ w2, s2).

Notation "x <- m ;; k" := (bind m (fun x => k))
  (at level 61, m at next level, right associativity).

(** [_shadowSeed = (_shadowSeed * 1103515245 + 12345) & 0x7fffffff]. *)
Definition lcg_next (s : float) : float :=
  float_of_Z (Z.land (ToInt32 (s * 1103515245 + 12345)) 2147483647).

Definition fastRand : M float :=
  fun s => let s' := lcg_next s in (s' / 2147483647, [s' / 2147483647], s').

(** [_shadowSeed = v]. *)
Definition set_seed (v : float) : M unit := fun _ => (tt, [], v).

(** The constants of primitives.js and raytrace-common.js. *)
Definition WIDTH : float := 800.
Definition HEIGHT : float := 420.
Definition camZ : float := -500.
Definition fov : float := 500.
Definition ambient : float := 0x1.999999999999ap-2.
Definition RT_SHADOW_BIAS : float := 0.5.
Definition RT_SPECULAR_EXP : float := 64.
Definition RT_SPECULAR_STR : float := 0.5.
Definition RT_SHADOW_SAMPLES : nat := 16.
Definition RT_LIGHT_RADIUS : float := 0x1.3333333333333p-3.
Definition RT_AO_SAMPLES : nat := 8.
Definition RT_AO_RADIUS : float := 40.
Definition RT_AO_STRENGTH : float := 0x1.3333333333333p-1.
Definition RT_MAX_BOUNCES : nat := 3.

(** [0.01] as JS parses it. *)
Definition HEMI_MIN_LEN : float := 0x1.47ae147ae147bp-7.

Definition normalize (v : fvec) : fvec :=
  let len := sqrt (c0 v * c0 v + c1 v * c1 v + c2 v * c2 v) in
  if len =? 0 then mk3 0 0 0 else mk3 (c0 v / len) (c1 v / len) (c2 v / len).

Definition lightDir : fvec := normalize (mk3 (-0.5) (-0.5) (-1)).

(** The object [sceneIntersect] returns. *)
Record scene_hit : Type := mk_scene_hit {
  t : float; color : fvec; nx : float; ny : float; nz : float;
  objIdx : Z; reflectivity : float }.

Section Trace.

(** The scene queries: [sceneIntersect(o, d, scene, skipObj)],
    [sceneAnyHit(o, d, scene, maxDist, skipObj)] and [envColor(d)] for the
    fixed scene and sky, and [Math.pow].  None of them reads or writes
    [_shadowSeed]. *)
Variable sceneIntersect : fvec -> fvec -> Z -> option scene_hit.
Variable sceneAnyHit : fvec -> fvec -> float -> Z -> bool.
Variable envColor : fvec -> fvec.
Variable pow : float -> float -> float.

(** The loop of [shadowTest], with [k] iterations left. *)
Fixpoint shadow_loop (k : nat) (h : fvec) (origObjIdx : Z) (blocked : float) : M float :=
  match k with
  | O => ret blocked
  | S k' =>
      r1 <- fastRand ;;
      let jx := (r1 - 0.5) * RT_LIGHT_RADIUS in
      r2 <- fastRand ;;
      let jy := (r2 - 0.5) * RT_LIGHT_RADIUS in
      r3 <- fastRand ;;
      let jz := (r3 - 0.5) * RT_LIGHT_RADIUS in
      let sd := mk3 (c0 lightDir + jx) (c1 lightDir + jy) (c2 lightDir + jz) in
      shadow_loop k' h origObjIdx
        (if sceneAnyHit h sd infinity origObjIdx then blocked + 1 else blocked)
  end.

Definition shadowTest (h : fvec) (origObjIdx : Z) : M float :=
  blocked <- shadow_loop RT_SHADOW_SAMPLES h origObjIdx 0 ;;
  ret (blocked / float_of_nat RT_SHADOW_SAMPLES).

Definition sampleHemisphere (n : fvec) : M (option fvec) :=
  r1 <- fastRand ;;
  let rx := r1 * 2 - 1 in
  r2 <- fastRand ;;
  let ry := r2 * 2 - 1 in
  r3 <- fastRand ;;
  let rz := r3 * 2 - 1 in
  let rlen := sqrt (rx * rx + ry * ry + rz * rz) in
  if rlen <? HEMI_MIN_LEN then ret None
  else
    let dv := normalize (mk3 rx ry rz) in
    if c0 dv * c0 n + c1 dv * c1 n + c2 dv * c2 n <? 0
    then ret (Some (mk3 (- c0 dv) (- c1 dv) (- c2 dv)))
    else ret (Some dv).

(** The loop of [aoTest], with [k] iterations left. *)
Fixpoint ao_loop (k : nat) (h n : fvec) (origObjIdx : Z) (occluded : float) : M float :=
  match k with
  | O => ret occluded
  | S k' =>
      dir <- sampleHemisphere n ;;
      match dir with
      | None => ao_loop k' h n origObjIdx occluded
      | Some dv =>
          ao_loop k' h n origObjIdx
            (if sceneAnyHit h dv RT_AO_RADIUS origObjIdx then occluded + 1 else occluded)
      end
  end.

Definition aoTest (h n : fvec) (origObjIdx : Z) : M float :=
  occluded <- ao_loop RT_AO_SAMPLES h n origObjIdx 0 ;;
  ret (occluded / float_of_nat RT_AO_SAMPLES).

Fixpoint traceRay (o dv : fvec) (depth : nat) (skipObj : Z) : M fvec :=
  match sceneIntersect o dv skipObj with
  | None => ret (envColor dv)
  | Some hit =>
      let hp := mk3 (c0 o + c0 dv * t hit + nx hit * RT_SHADOW_BIAS)
                    (c1 o + c1 dv * t hit + ny hit * RT_SHADOW_BIAS)
                    (c2 o + c2 dv * t hit + nz hit * RT_SHADOW_BIAS) in
      shadow <- shadowTest hp (objIdx hit) ;;
      ao <- aoTest hp (mk3 (nx hit) (ny hit) (nz hit)) (objIdx hit) ;;
      let ndotl := nx hit * c0 lightDir + ny hit * c1 lightDir + nz hit * c2 lightDir in
      let lit := 1 - shadow in
      let diffuse := lit * Metaball.js_max 0 ndotl in
      let aoFactor := 1 - ao * RT_AO_STRENGTH in
      let specular :=
        if (0 <? lit) && (0 <? ndotl) then
          let hvx := - c0 dv + c0 lightDir in
          let hvy := - c1 dv + c1 lightDir in
          let hvz := - c2 dv + c2 lightDir in
          let hlen := sqrt (hvx * hvx + hvy * hvy + hvz * hvz) in
          if 0 <? hlen then
            let ndoth := nx hit * (hvx / hlen) + ny hit * (hvy / hlen) + nz hit * (hvz / hlen) in
            if 0 <? ndoth then lit * RT_SPECULAR_STR * pow ndoth RT_SPECULAR_EXP else 0
          else 0
        else 0 in
      let br := Metaball.js_min 1 (ambient * aoFactor + diffuse) in
      let r := c0 (color hit) * br + specular * 255 in
      let g := c1 (color hit) * br + specular * 255 in
      let b := c2 (color hit) * br + specular * 255 in
      rgb <- match depth with
             | S depth' =>
                 if 0 <? reflectivity hit then
                   let ddn := c0 dv * nx hit + c1 dv * ny hit + c2 dv * nz hit in
                   if ddn <? 0 then
                     let cosTheta := - ddn in
                     let f1 := 1 - cosTheta in
                     let f2 := f1 * f1 in
                     let refl := reflectivity hit + (1 - reflectivity hit) * f2 * f2 * f1 in
                     let rd := mk3 (c0 dv - 2 * ddn * nx hit) (c1 dv - 2 * ddn * ny hit)
                                   (c2 dv - 2 * ddn * nz hit) in
                     ref <- traceRay hp rd depth' (objIdx hit) ;;
                     ret (mk3 (r * (1 - refl) + c0 ref * refl) (g * (1 - refl) + c1 ref * refl)
                              (b * (1 - refl) + c2 ref * refl))
                   else ret (mk3 r g b)
                 else ret (mk3 r g b)
             | O => ret (mk3 r g b)
             end ;;
      ret (mk3 (Metaball.js_min 255 (c0 rgb)) (Metaball.js_min 255 (c1 rgb))
               (Metaball.js_min 255 (c2 rgb)))
  end.

(** [(py * aa + ay) * WIDTH * aa + (px * aa + ax)]. *)
Definition sample_seed (aa px py ax ay : nat) : float :=
  (float_of_nat py * float_of_nat aa + float_of_nat ay) * WIDTH * float_of_nat aa
  + (float_of_nat px * float_of_nat aa + float_of_nat ax).

(** The body of the two inner loops of [raytraceScene] for the sub-sample
    [(ax, ay)] of pixel [(px, py)] with [aa = RT_AA_GRID]: seed the PRNG,
    build the camera ray, trace it. *)
Definition sample (aa px py ax ay : nat) : M fvec :=
  let aaStep := 1 / float_of_nat aa in
  let spx := float_of_nat px + (float_of_nat ax + 0.5) * aaStep - 0.5 in
  let spy := float_of_nat py + (float_of_nat ay + 0.5) * aaStep - 0.5 in
  _ <- set_seed (sample_seed aa px py ax ay) ;;
  let rdx := spx - WIDTH * 0.5 in
  let rdy := spy - HEIGHT * 0.5 in
  let len := sqrt (rdx * rdx + rdy * rdy + fov * fov) in
  traceRay (mk3 0 0 camZ) (mk3 (rdx / len) (rdy / len) (fov / len)) RT_MAX_BOUNCES (-1).

End Trace.

(** The LCG on its own: [k] steps from seed [s], and the [k] values
    [fastRand] returns along them. *)
Fixpoint lcg_iter (k : nat) (s : float) : float :=
  match k with
  | O => s
  | S k' => lcg_iter k' (lcg_next s)
  end.

Fixpoint lcg_stream (s : float) (k : nat) : list float :=
  match k with
  | O => []
  | S k' => let s' := lcg_next s in (s' / 2147483647) :: lcg_stream s' k'
  end.

End Raytrace.

(* ================================================================= *)
(** ** primitives.js: the software rasterizer,
    over binary64 *)

Module SoftRender.

Local Open Scope float_scope.

(** [WIDTH] and [HEIGHT]; [putpixel] compares them with the [int32]
    values [x | 0] and [y | 0], so they are kept as integers. *)
Definition WIDTH : Z := 800.
Definition HEIGHT : Z := 420.

(** The depth buffer [zBuf] ([Float32Array]) and the color buffer
    [backBuf] ([Uint8ClampedArray]), as lists of their elements. *)
Record framebuffer : Type := mk_fb { zBuf : list float; backBuf : list Z }.

(** [v & 0xff]. *)
Definition byte (v : float) : Z := Z.land (Raytrace.ToInt32 v) 255.

(** [putpixel(x, y, z, r, g, b, a)].  A typed array read out of range is
    [undefined], which compares as NaN: the default [nan] of [nth]; a
    typed array write out of range is dropped, as [set_nth] drops it.
    [z >= zBuf[zi]] is [zBuf[zi] <= z], false when either is NaN. *)
Definition putpixel (fb : framebuffer) (x y z r g b a : float) : framebuffer :=
  let xi := Raytrace.ToInt32 x in
  let yi := Raytrace.ToInt32 y in
  if (xi <? 0)%Z || (WIDTH <=? xi)%Z || (yi <? 0)%Z || (HEIGHT <=? yi)%Z then fb else
  let zi := Z.to_nat (yi * WIDTH + xi) in
  if nth zi (zBuf fb) nan <=? z then fb else
  let i := (4 * zi)%nat in
  if 255 <=? a then
    let zb := Metaball.set_nth zi (Metaball.fround z) (zBuf fb) in
    let b0 := Metaball.set_nth i (byte r) (backBuf fb) in
    let b1 := Metaball.set_nth (i + 1) (byte g) b0 in
    let b2 := Metaball.set_nth (i + 2) (byte b) b1 in
    let b3 := Metaball.set_nth (i + 3) 255%Z b2 in
    mk_fb zb b3
  else
    let sa := Raytrace.float_of_Z (Z.land (Raytrace.ToInt32 a) 255) / 255 in
    let da := 1 - sa in
    let bb := backBuf fb in
    let b0 := Metaball.set_nth i
                (byte (r * sa + Raytrace.float_of_Z (nth i bb 0%Z) * da)) bb in
    let b1 := Metaball.set_nth (i + 1)
                (byte (g * sa + Raytrace.float_of_Z (nth (i + 1) b0 0%Z) * da)) b0 in
    let b2 := Metaball.set_nth (i + 2)
                (byte (b * sa + Raytrace.float_of_Z (nth (i + 2) b1 0%Z) * da)) b1 in
    let b3 := Metaball.set_nth (i + 3)
                (byte (Metaball.js_min 255 (Raytrace.float_of_Z (nth (i + 3) b2 0%Z) + a))) b2 in
    mk_fb (zBuf fb) b3.

(** A projected polygon point [[x, y, z, nx, ny, nz]]. *)
Record spoint : Type := mk_spoint {
  sp_x : float; sp_y : float; sp_z : float; sp_nx : float; sp_ny : float; sp_nz : float }.

(** A scanline crossing [[x, z, nx, ny, nz]]. *)
Record scross : Type := mk_scross {
  sc_x : float; sc_z : float; sc_nx : float; sc_ny : float; sc_nz : float }.

(** [(y0 <= y && y1 > y) || (y1 <= y && y0 > y)]. *)
Definition crosses (y0 y1 y : float) : bool :=
  (y0 <=? y) && (y <? y1) || (y1 <=? y) && (y <? y0).

Section Scanline.

(** [hits.sort((a, b) => a[0] - b[0])]: the engine's sort with that
    comparator. *)
Variable hits_sort : list scross -> list scross.

(** The body of the loop of [scanlineHits] for edge [i -> (i + 1) % n]. *)
Definition scanline_step (pts : list spoint) (y : float) (hits : list scross) (i : nat)
  : list scross :=
  let n := length pts in
  let j := ((i + 1) mod n)%nat in
  let p := nth i pts (mk_spoint 0 0 0 0 0 0) in
  let q := nth j pts (mk_spoint 0 0 0 0 0 0) in
  if crosses (sp_y p) (sp_y q) y then
    let t := (y - sp_y p) / (sp_y q - sp_y p) in
    hits ++ [mk_scross (sp_x p + t * (sp_x q - sp_x p))
                       (sp_z p + t * (sp_z q - sp_z p))
                       (sp_nx p + t * (sp_nx q - sp_nx p))
                       (sp_ny p + t * (sp_ny q - sp_ny p))
                       (sp_nz p + t * (sp_nz q - sp_nz p))]
  else hits.

(** [scanlineHits(pts, y)]. *)
Definition scanlineHits (pts : list spoint) (y : float) : list scross :=
  hits_sort (fold_left (scanline_step pts y) (seq 0 (length pts)) []).

End Scanline.

End SoftRender.

(* ================================================================= *)
(** ** shader-source.js: marching cubes, over binary64 *)

Module MarchingCubes.

Local Open Scope float_scope.

Definition fvec := v3 float.

(** [EDGE_TABLE], as in the source. *)
Definition EDGE_TABLE : list Z := [
  0x000; 0x109; 0x203; 0x30a; 0x406; 0x50f; 0x605; 0x70c; 0x80c; 0x905; 0xa0f; 0xb06; 0xc0a; 0xd03; 0xe09; 0xf00;
  0x190; 0x099; 0x393; 0x29a; 0x596; 0x49f; 0x795; 0x69c; 0x99c; 0x895; 0xb9f; 0xa96; 0xd9a; 0xc93; 0xf99; 0xe90;
  0x230; 0x339; 0x033; 0x13a; 0x636; 0x73f; 0x435; 0x53c; 0xa3c; 0xb35; 0x83f; 0x936; 0xe3a; 0xf33; 0xc39; 0xd30;
  0x3a0; 0x2a9; 0x1a3; 0x0aa; 0x7a6; 0x6af; 0x5a5; 0x4ac; 0xbac; 0xaa5; 0x9af; 0x8a6; 0xfaa; 0xea3; 0xda9; 0xca0;
  0x460; 0x569; 0x663; 0x76a; 0x066; 0x16f; 0x265; 0x36c; 0xc6c; 0xd65; 0xe6f; 0xf66; 0x86a; 0x963; 0xa69; 0xb60;
  0x5f0; 0x4f9; 0x7f3; 0x6fa; 0x1f6; 0x0ff; 0x3f5; 0x2fc; 0xdfc; 0xcf5; 0xfff; 0xef6; 0x9fa; 0x8f3; 0xbf9; 0xaf0;
  0x650; 0x759; 0x453; 0x55a; 0x256; 0x35f; 0x055; 0x15c; 0xe5c; 0xf55; 0xc5f; 0xd56; 0xa5a; 0xb53; 0x859; 0x950;
  0x7c0; 0x6c9; 0x5c3; 0x4ca; 0x3c6; 0x2cf; 0x1c5; 0x0cc; 0xfcc; 0xec5; 0xdcf; 0xcc6; 0xbca; 0xac3; 0x9c9; 0x8c0;
  0x8c0; 0x9c9; 0xac3; 0xbca; 0xcc6; 0xdcf; 0xec5; 0xfcc; 0x0cc; 0x1c5; 0x2cf; 0x3c6; 0x4ca; 0x5c3; 0x6c9; 0x7c0;
  0x950; 0x859; 0xb53; 0xa5a; 0xd56; 0xc5f; 0xf55; 0xe5c; 0x15c; 0x055; 0x35f; 0x256; 0x55a; 0x453; 0x759; 0x650;
  0xaf0; 0xbf9; 0x8f3; 0x9fa; 0xef6; 0xfff; 0xcf5; 0xdfc; 0x2fc; 0x3f5; 0x0ff; 0x1f6; 0x6fa; 0x7f3; 0x4f9; 0x5f0;
  0xb60; 0xa69; 0x963; 0x86a; 0xf66; 0xe6f; 0xd65; 0xc6c; 0x36c; 0x265; 0x16f; 0x066; 0x76a; 0x663; 0x569; 0x460;
  0xca0; 0xda9; 0xea3; 0xfaa; 0x8a6; 0x9af; 0xaa5; 0xbac; 0x4ac; 0x5a5; 0x6af; 0x7a6; 0x0aa; 0x1a3; 0x2a9; 0x3a0;
  0xd30; 0xc39; 0xf33; 0xe3a; 0x936; 0x83f; 0xb35; 0xa3c; 0x53c; 0x435; 0x73f; 0x636; 0x13a; 0x033; 0x339; 0x230;
  0xe90; 0xf99; 0xc93; 0xd9a; 0xa96; 0xb9f; 0x895; 0x99c; 0x69c; 0x795; 0x49f; 0x596; 0x29a; 0x393; 0x099; 0x190;
  0xf00; 0xe09; 0xd03; 0xc0a; 0xb06; 0xa0f; 0x905; 0x80c; 0x70c; 0x605; 0x50f; 0x406; 0x30a; 0x203; 0x109; 0x000]%Z.

(** [TRI_TABLE], as in the source. *)
Definition TRI_TABLE : list (list Z) := [
  [-1];
  [0; 8; 3; -1];
  [0; 1; 9; -1];
  [1; 8; 3; 9; 8; 1; -1];
  [1; 2; 10; -1];
  [0; 8; 3; 1; 2; 10; -1];
  [9; 2; 10; 0; 2; 9; -1];
  [2; 8; 3; 2; 10; 8; 10; 9; 8; -1];
  [3; 11; 2; -1];
  [0; 11; 2; 8; 11; 0; -1];
  [1; 9; 0; 2; 3; 11; -1];
  [1; 11; 2; 1; 9; 11; 9; 8; 11; -1];
  [3; 10; 1; 11; 10; 3; -1];
  [0; 10; 1; 0; 8; 10; 8; 11; 10; -1];
  [3; 9; 0; 3; 11; 9; 11; 10; 9; -1];
  [9; 8; 10; 10; 8; 11; -1];
  [4; 7; 8; -1];
  [4; 3; 0; 7; 3; 4; -1];
  [0; 1; 9; 8; 4; 7; -1];
  [4; 1; 9; 4; 7; 1; 7; 3; 1; -1];
  [1; 2; 10; 8; 4; 7; -1];
  [3; 4; 7; 3; 0; 4; 1; 2; 10; -1];
  [9; 2; 10; 9; 0; 2; 8; 4; 7; -1];
  [2; 10; 9; 2; 9; 7; 2; 7; 3; 7; 9; 4; -1];
  [8; 4; 7; 3; 11; 2; -1];
  [11; 4; 7; 11; 2; 4; 2; 0; 4; -1];
  [9; 0; 1; 8; 4; 7; 2; 3; 11; -1];
  [4; 7; 11; 9; 4; 11; 9; 11; 2; 9; 2; 1; -1];
  [3; 10; 1; 3; 11; 10; 7; 8; 4; -1];
  [1; 11; 10; 1; 4; 11; 1; 0; 4; 7; 11; 4; -1];
  [4; 7; 8; 9; 0; 11; 9; 11; 10; 11; 0; 3; -1];
  [4; 7; 11; 4; 11; 9; 9; 11; 10; -1];
  [9; 5; 4; -1];
  [9; 5; 4; 0; 8; 3; -1];
  [0; 5; 4; 1; 5; 0; -1];
  [8; 5; 4; 8; 3; 5; 3; 1; 5; -1];
  [1; 2; 10; 9; 5; 4; -1];
  [3; 0; 8; 1; 2; 10; 4; 9; 5; -1];
  [5; 2; 10; 5; 4; 2; 4; 0; 2; -1];
  [2; 10; 5; 3; 2; 5; 3; 5; 4; 3; 4; 8; -1];
  [9; 5; 4; 2; 3; 11; -1];
  [0; 11; 2; 0; 8; 11; 4; 9; 5; -1];
  [0; 5; 4; 0; 1; 5; 2; 3; 11; -1];
  [2; 1; 5; 2; 5; 8; 2; 8; 11; 4; 8; 5; -1];
  [10; 3; 11; 10; 1; 3; 9; 5; 4; -1];
  [4; 9; 5; 0; 8; 1; 8; 10; 1; 8; 11; 10; -1];
  [5; 4; 0; 5; 0; 11; 5; 11; 10; 11; 0; 3; -1];
  [5; 4; 8; 5; 8; 10; 10; 8; 11; -1];
  [9; 7; 8; 5; 7; 9; -1];
  [9; 3; 0; 9; 5; 3; 5; 7; 3; -1];
  [0; 7; 8; 0; 1; 7; 1; 5; 7; -1];
  [1; 5; 3; 3; 5; 7; -1];
  [9; 7; 8; 9; 5; 7; 10; 1; 2; -1];
  [10; 1; 2; 9; 5; 0; 5; 3; 0; 5; 7; 3; -1];
  [8; 0; 2; 8; 2; 5; 8; 5; 7; 10; 5; 2; -1];
  [2; 10; 5; 2; 5; 3; 3; 5; 7; -1];
  [7; 9; 5; 7; 8; 9; 3; 11; 2; -1];
  [9; 5; 7; 9; 7; 2; 9; 2; 0; 2; 7; 11; -1];
  [2; 3; 11; 0; 1; 8; 1; 7; 8; 1; 5; 7; -1];
  [11; 2; 1; 11; 1; 7; 7; 1; 5; -1];
  [9; 5; 8; 8; 5; 7; 10; 1; 3; 10; 3; 11; -1];
  [5; 7; 0; 5; 0; 9; 7; 11; 0; 1; 0; 10; 11; 10; 0; -1];
  [11; 10; 0; 11; 0; 3; 10; 5; 0; 8; 0; 7; 5; 7; 0; -1];
  [11; 10; 5; 7; 11; 5; -1];
  [10; 6; 5; -1];
  [0; 8; 3; 5; 10; 6; -1];
  [9; 0; 1; 5; 10; 6; -1];
  [1; 8; 3; 1; 9; 8; 5; 10; 6; -1];
  [1; 6; 5; 2; 6; 1; -1];
  [1; 6; 5; 1; 2; 6; 3; 0; 8; -1];
  [9; 6; 5; 9; 0; 6; 0; 2; 6; -1];
  [5; 9; 8; 5; 8; 2; 5; 2; 6; 3; 2; 8; -1];
  [2; 3; 11; 10; 6; 5; -1];
  [11; 0; 8; 11; 2; 0; 10; 6; 5; -1];
  [0; 1; 9; 2; 3; 11; 5; 10; 6; -1];
  [5; 10; 6; 1; 9; 2; 9; 11; 2; 9; 8; 11; -1];
  [6; 3; 11; 6; 5; 3; 5; 1; 3; -1];
  [0; 8; 11; 0; 11; 5; 0; 5; 1; 5; 11; 6; -1];
  [3; 11; 6; 0; 3; 6; 0; 6; 5; 0; 5; 9; -1];
  [6; 5; 9; 6; 9; 11; 11; 9; 8; -1];
  [5; 10; 6; 4; 7; 8; -1];
  [4; 3; 0; 4; 7; 3; 6; 5; 10; -1];
  [1; 9; 0; 5; 10; 6; 8; 4; 7; -1];
  [10; 6; 5; 1; 9; 7; 1; 7; 3; 7; 9; 4; -1];
  [6; 1; 2; 6; 5; 1; 4; 7; 8; -1];
  [1; 2; 5; 5; 2; 6; 3; 0; 4; 3; 4; 7; -1];
  [8; 4; 7; 9; 0; 5; 0; 6; 5; 0; 2; 6; -1];
  [7; 3; 9; 7; 9; 4; 3; 2; 9; 5; 9; 6; 2; 6; 9; -1];
  [3; 11; 2; 7; 8; 4; 10; 6; 5; -1];
  [5; 10; 6; 4; 7; 2; 4; 2; 0; 2; 7; 11; -1];
  [0; 1; 9; 4; 7; 8; 2; 3; 11; 5; 10; 6; -1];
  [9; 2; 1; 9; 11; 2; 9; 4; 11; 7; 11; 4; 5; 10; 6; -1];
  [8; 4; 7; 3; 11; 5; 3; 5; 1; 5; 11; 6; -1];
  [5; 1; 11; 5; 11; 6; 1; 0; 11; 7; 11; 4; 0; 4; 11; -1];
  [0; 5; 9; 0; 6; 5; 0; 3; 6; 11; 6; 3; 8; 4; 7; -1];
  [6; 5; 9; 6; 9; 11; 4; 7; 9; 7; 11; 9; -1];
  [10; 4; 9; 6; 4; 10; -1];
  [4; 10; 6; 4; 9; 10; 0; 8; 3; -1];
  [10; 0; 1; 10; 6; 0; 6; 4; 0; -1];
  [8; 3; 1; 8; 1; 6; 8; 6; 4; 6; 1; 10; -1];
  [1; 4; 9; 1; 2; 4; 2; 6; 4; -1];
  [3; 0; 8; 1; 2; 9; 2; 4; 9; 2; 6; 4; -1];
  [0; 2; 4; 4; 2; 6; -1];
  [8; 3; 2; 8; 2; 4; 4; 2; 6; -1];
  [10; 4; 9; 10; 6; 4; 11; 2; 3; -1];
  [0; 8; 2; 2; 8; 11; 4; 9; 10; 4; 10; 6; -1];
  [3; 11; 2; 0; 1; 6; 0; 6; 4; 6; 1; 10; -1];
  [6; 4; 1; 6; 1; 10; 4; 8; 1; 2; 1; 11; 8; 11; 1; -1];
  [9; 6; 4; 9; 3; 6; 9; 1; 3; 11; 6; 3; -1];
  [8; 11; 1; 8; 1; 0; 11; 6; 1; 9; 1; 4; 6; 4; 1; -1];
  [3; 11; 6; 3; 6; 0; 0; 6; 4; -1];
  [6; 4; 8; 11; 6; 8; -1];
  [7; 10; 6; 7; 8; 10; 8; 9; 10; -1];
  [0; 7; 3; 0; 10; 7; 0; 9; 10; 6; 7; 10; -1];
  [10; 6; 7; 1; 10; 7; 1; 7; 8; 1; 8; 0; -1];
  [10; 6; 7; 10; 7; 1; 1; 7; 3; -1];
  [1; 2; 6; 1; 6; 8; 1; 8; 9; 8; 6; 7; -1];
  [2; 6; 9; 2; 9; 1; 6; 7; 9; 0; 9; 3; 7; 3; 9; -1];
  [7; 8; 0; 7; 0; 6; 6; 0; 2; -1];
  [7; 3; 2; 6; 7; 2; -1];
  [2; 3; 11; 10; 6; 8; 10; 8; 9; 8; 6; 7; -1];
  [2; 0; 7; 2; 7; 11; 0; 9; 7; 6; 7; 10; 9; 10; 7; -1];
  [1; 8; 0; 1; 7; 8; 1; 10; 7; 6; 7; 10; 2; 3; 11; -1];
  [11; 2; 1; 11; 1; 7; 10; 6; 1; 6; 7; 1; -1];
  [8; 9; 6; 8; 6; 7; 9; 1; 6; 11; 6; 3; 1; 3; 6; -1];
  [0; 9; 1; 11; 6; 7; -1];
  [7; 8; 0; 7; 0; 6; 3; 11; 0; 11; 6; 0; -1];
  [7; 11; 6; -1];
  [7; 6; 11; -1];
  [3; 0; 8; 11; 7; 6; -1];
  [0; 1; 9; 11; 7; 6; -1];
  [8; 1; 9; 8; 3; 1; 11; 7; 6; -1];
  [10; 1; 2; 6; 11; 7; -1];
  [1; 2; 10; 3; 0; 8; 6; 11; 7; -1];
  [2; 9; 0; 2; 10; 9; 6; 11; 7; -1];
  [6; 11; 7; 2; 10; 3; 10; 8; 3; 10; 9; 8; -1];
  [7; 2; 3; 6; 2; 7; -1];
  [7; 0; 8; 7; 6; 0; 6; 2; 0; -1];
  [2; 7; 6; 2; 3; 7; 0; 1; 9; -1];
  [1; 6; 2; 1; 8; 6; 1; 9; 8; 8; 7; 6; -1];
  [10; 7; 6; 10; 1; 7; 1; 3; 7; -1];
  [10; 7; 6; 1; 7; 10; 1; 8; 7; 1; 0; 8; -1];
  [0; 3; 7; 0; 7; 10; 0; 10; 9; 6; 10; 7; -1];
  [7; 6; 10; 7; 10; 8; 8; 10; 9; -1];
  [6; 8; 4; 11; 8; 6; -1];
  [3; 6; 11; 3; 0; 6; 0; 4; 6; -1];
  [8; 6; 11; 8; 4; 6; 9; 0; 1; -1];
  [9; 4; 6; 9; 6; 3; 9; 3; 1; 11; 3; 6; -1];
  [6; 8; 4; 6; 11; 8; 2; 10; 1; -1];
  [1; 2; 10; 3; 0; 11; 0; 6; 11; 0; 4; 6; -1];
  [4; 11; 8; 4; 6; 11; 0; 2; 9; 2; 10; 9; -1];
  [10; 9; 3; 10; 3; 2; 9; 4; 3; 11; 3; 6; 4; 6; 3; -1];
  [8; 2; 3; 8; 4; 2; 4; 6; 2; -1];
  [0; 4; 2; 4; 6; 2; -1];
  [1; 9; 0; 2; 3; 4; 2; 4; 6; 4; 3; 8; -1];
  [1; 9; 4; 1; 4; 2; 2; 4; 6; -1];
  [8; 1; 3; 8; 6; 1; 8; 4; 6; 6; 10; 1; -1];
  [10; 1; 0; 10; 0; 6; 6; 0; 4; -1];
  [4; 6; 3; 4; 3; 8; 6; 10; 3; 0; 3; 9; 10; 9; 3; -1];
  [10; 9; 4; 6; 10; 4; -1];
  [4; 9; 5; 7; 6; 11; -1];
  [0; 8; 3; 4; 9; 5; 11; 7; 6; -1];
  [5; 0; 1; 5; 4; 0; 7; 6; 11; -1];
  [11; 7; 6; 8; 3; 4; 3; 5; 4; 3; 1; 5; -1];
  [9; 5; 4; 10; 1; 2; 7; 6; 11; -1];
  [6; 11; 7; 1; 2; 10; 0; 8; 3; 4; 9; 5; -1];
  [7; 6; 11; 5; 4; 10; 4; 2; 10; 4; 0; 2; -1];
  [3; 4; 8; 3; 5; 4; 3; 2; 5; 10; 5; 2; 11; 7; 6; -1];
  [7; 2; 3; 7; 6; 2; 5; 4; 9; -1];
  [9; 5; 4; 0; 8; 6; 0; 6; 2; 6; 8; 7; -1];
  [3; 6; 2; 3; 7; 6; 1; 5; 0; 5; 4; 0; -1];
  [6; 2; 8; 6; 8; 7; 2; 1; 8; 4; 8; 5; 1; 5; 8; -1];
  [9; 5; 4; 10; 1; 6; 1; 7; 6; 1; 3; 7; -1];
  [1; 6; 10; 1; 7; 6; 1; 0; 7; 8; 7; 0; 9; 5; 4; -1];
  [4; 0; 10; 4; 10; 5; 0; 3; 10; 6; 10; 7; 3; 7; 10; -1];
  [7; 6; 10; 7; 10; 8; 5; 4; 10; 4; 8; 10; -1];
  [6; 9; 5; 6; 11; 9; 11; 8; 9; -1];
  [3; 6; 11; 0; 6; 3; 0; 5; 6; 0; 9; 5; -1];
  [0; 11; 8; 0; 5; 11; 0; 1; 5; 5; 6; 11; -1];
  [6; 11; 3; 6; 3; 5; 5; 3; 1; -1];
  [1; 2; 10; 9; 5; 11; 9; 11; 8; 11; 5; 6; -1];
  [0; 11; 3; 0; 6; 11; 0; 9; 6; 5; 6; 9; 1; 2; 10; -1];
  [11; 8; 5; 11; 5; 6; 8; 0; 5; 10; 5; 2; 0; 2; 5; -1];
  [6; 11; 3; 6; 3; 5; 2; 10; 3; 10; 5; 3; -1];
  [5; 8; 9; 5; 2; 8; 5; 6; 2; 3; 8; 2; -1];
  [9; 5; 6; 9; 6; 0; 0; 6; 2; -1];
  [1; 5; 8; 1; 8; 0; 5; 6; 8; 3; 8; 2; 6; 2; 8; -1];
  [1; 5; 6; 2; 1; 6; -1];
  [1; 3; 6; 1; 6; 10; 3; 8; 6; 5; 6; 9; 8; 9; 6; -1];
  [10; 1; 0; 10; 0; 6; 9; 5; 0; 5; 6; 0; -1];
  [0; 3; 8; 5; 6; 10; -1];
  [10; 5; 6; -1];
  [11; 5; 10; 7; 5; 11; -1];
  [11; 5; 10; 11; 7; 5; 8; 3; 0; -1];
  [5; 11; 7; 5; 10; 11; 1; 9; 0; -1];
  [10; 7; 5; 10; 11; 7; 9; 8; 1; 8; 3; 1; -1];
  [11; 1; 2; 11; 7; 1; 7; 5; 1; -1];
  [0; 8; 3; 1; 2; 7; 1; 7; 5; 7; 2; 11; -1];
  [9; 7; 5; 9; 2; 7; 9; 0; 2; 2; 11; 7; -1];
  [7; 5; 2; 7; 2; 11; 5; 9; 2; 3; 2; 8; 9; 8; 2; -1];
  [2; 5; 10; 2; 3; 5; 3; 7; 5; -1];
  [8; 2; 0; 8; 5; 2; 8; 7; 5; 10; 2; 5; -1];
  [9; 0; 1; 5; 10; 3; 5; 3; 7; 3; 10; 2; -1];
  [9; 8; 2; 9; 2; 1; 8; 7; 2; 10; 2; 5; 7; 5; 2; -1];
  [1; 3; 5; 3; 7; 5; -1];
  [0; 8; 7; 0; 7; 1; 1; 7; 5; -1];
  [9; 0; 3; 9; 3; 5; 5; 3; 7; -1];
  [9; 8; 7; 5; 9; 7; -1];
  [5; 8; 4; 5; 10; 8; 10; 11; 8; -1];
  [5; 0; 4; 5; 11; 0; 5; 10; 11; 11; 3; 0; -1];
  [0; 1; 9; 8; 4; 10; 8; 10; 11; 10; 4; 5; -1];
  [10; 11; 4; 10; 4; 5; 11; 3; 4; 9; 4; 1; 3; 1; 4; -1];
  [2; 5; 1; 2; 8; 5; 2; 11; 8; 4; 5; 8; -1];
  [0; 4; 11; 0; 11; 3; 4; 5; 11; 2; 11; 1; 5; 1; 11; -1];
  [0; 2; 5; 0; 5; 9; 2; 11; 5; 4; 5; 8; 11; 8; 5; -1];
  [9; 4; 5; 2; 11; 3; -1];
  [2; 5; 10; 3; 5; 2; 3; 4; 5; 3; 8; 4; -1];
  [5; 10; 2; 5; 2; 4; 4; 2; 0; -1];
  [3; 10; 2; 3; 5; 10; 3; 8; 5; 4; 5; 8; 0; 1; 9; -1];
  [5; 10; 2; 5; 2; 4; 1; 9; 2; 9; 4; 2; -1];
  [8; 4; 5; 8; 5; 3; 3; 5; 1; -1];
  [0; 4; 5; 1; 0; 5; -1];
  [8; 4; 5; 8; 5; 3; 9; 0; 5; 0; 3; 5; -1];
  [9; 4; 5; -1];
  [4; 11; 7; 4; 9; 11; 9; 10; 11; -1];
  [0; 8; 3; 4; 9; 7; 9; 11; 7; 9; 10; 11; -1];
  [1; 10; 11; 1; 11; 4; 1; 4; 0; 7; 4; 11; -1];
  [3; 1; 4; 3; 4; 8; 1; 10; 4; 7; 4; 11; 10; 11; 4; -1];
  [4; 11; 7; 9; 11; 4; 9; 2; 11; 9; 1; 2; -1];
  [9; 7; 4; 9; 11; 7; 9; 1; 11; 2; 11; 1; 0; 8; 3; -1];
  [11; 7; 4; 11; 4; 2; 2; 4; 0; -1];
  [11; 7; 4; 11; 4; 2; 8; 3; 4; 3; 2; 4; -1];
  [2; 9; 10; 2; 7; 9; 2; 3; 7; 7; 4; 9; -1];
  [9; 10; 7; 9; 7; 4; 10; 2; 7; 8; 7; 0; 2; 0; 7; -1];
  [3; 7; 10; 3; 10; 2; 7; 4; 10; 1; 10; 0; 4; 0; 10; -1];
  [1; 10; 2; 8; 7; 4; -1];
  [4; 9; 1; 4; 1; 7; 7; 1; 3; -1];
  [4; 9; 1; 4; 1; 7; 0; 8; 1; 8; 7; 1; -1];
  [4; 0; 3; 7; 4; 3; -1];
  [4; 8; 7; -1];
  [9; 10; 8; 10; 11; 8; -1];
  [3; 0; 9; 3; 9; 11; 11; 9; 10; -1];
  [0; 1; 10; 0; 10; 8; 8; 10; 11; -1];
  [3; 1; 10; 11; 3; 10; -1];
  [1; 2; 11; 1; 11; 9; 9; 11; 8; -1];
  [3; 0; 9; 3; 9; 11; 1; 2; 9; 2; 11; 9; -1];
  [0; 2; 11; 8; 0; 11; -1];
  [3; 2; 11; -1];
  [2; 3; 8; 2; 8; 10; 10; 8; 9; -1];
  [9; 10; 2; 0; 9; 2; -1];
  [2; 3; 8; 2; 8; 10; 0; 1; 8; 1; 10; 8; -1];
  [1; 10; 2; -1];
  [1; 3; 8; 9; 1; 8; -1];
  [0; 9; 1; -1];
  [0; 3; 8; -1];
  [-1]]%Z.

(** [EDGE_CORNERS]: the two corners each of the 12 edges connects. *)
Definition EDGE_CORNERS : list (nat * nat) :=
  [(0,1); (1,2); (2,3); (3,0);
   (4,5); (5,6); (6,7); (7,4);
   (0,4); (1,5); (2,6); (3,7)]%nat.

(** [CORNER_OFFSETS]: the [(x, y, z)] offsets of the 8 corners. *)
Definition CORNER_OFFSETS : list (v3 nat) :=
  [mk3 0 0 0; mk3 1 0 0; mk3 1 0 1; mk3 0 0 1;
   mk3 0 1 0; mk3 1 1 0; mk3 1 1 1; mk3 0 1 1]%nat.

(** [0.00001] as JS parses it. *)
Definition MC_EPS : float := 0x1.4f8b588e368f1p-17.

Definition mcInterpolate (p1 p2 : fvec) (v1 v2 threshold : float) : fvec :=
  if abs (v1 - threshold) <? MC_EPS then p1 else
  if abs (v2 - threshold) <? MC_EPS then p2 else
  if abs (v1 - v2) <? MC_EPS then p1 else
  let mu := (threshold - v1) / (v2 - v1) in
  mk3 (c0 p1 + mu * (c0 p2 - c0 p1))
      (c1 p1 + mu * (c1 p2 - c1 p1))
      (c2 p1 + mu * (c2 p2 - c2 p1)).

(** [arr[k]] for an integer [k]: [undefined] ([None]) out of range. *)
Definition nth_error_Z {A} (l : list A) (k : Z) : option A :=
  if (k <? 0)%Z then None else nth_error l (Z.to_nat k).

(** [SameValueZero], the key comparison of a [Map]. *)
Definition sameValueZero (a b : float) : bool :=
  (a =? b) || (is_nan a && is_nan b).

(** The shared state of [marchingCubes]: the arrays [vertices] and
    [triangles] and the [Map] [edgeVertexMap], kept in insertion order.
    A triangle index is [undefined] ([None]) when [edgeVerts] has no
    entry for the edge. *)
Record mc_state : Type := mk_mc {
  mc_vertices : list fvec;
  mc_triangles : list (v3 (option nat));
  mc_edgeVertexMap : list (float * nat) }.

(** [edgeVertexMap.has(key) ? edgeVertexMap.get(key) : ...]. *)
Definition map_get (m : list (float * nat)) (key : float) : option nat :=
  option_map snd (find (fun kv => sameValueZero (fst kv) key) m).

(** [edgeVerts[k]] for a table entry [k] ([None] when the entry is
    [undefined], read past the end of the row). *)
Definition edgeVerts_at (edgeVerts : list (option nat)) (k : option Z) : option nat :=
  match k with
  | Some k => match nth_error_Z edgeVerts k with Some v => v | None => None end
  | None => None
  end.

(** The loop [for (t = 0; t < triList.length; t += 3)] of [processCell]:
    it stops at [-1], and a row cut short reads [undefined]. *)
Fixpoint emit_tris (edgeVerts : list (option nat)) (triList : list Z)
  : list (v3 (option nat)) :=
  match triList with
  | [] => []
  | a :: r =>
      if (a =? -1)%Z then [] else
      match r with
      | b :: c :: r' =>
          mk3 (edgeVerts_at edgeVerts (Some a)) (edgeVerts_at edgeVerts (Some b))
              (edgeVerts_at edgeVerts (Some c)) :: emit_tris edgeVerts r'
      | _ =>
          [mk3 (edgeVerts_at edgeVerts (Some a)) (edgeVerts_at edgeVerts (nth_error r 0))
               (edgeVerts_at edgeVerts (nth_error r 1))]
      end
  end.

(** Corner [c] of cell [(ix, iy, iz)], as grid coordinates. *)
Definition cell_corner (ix iy iz c : nat) : v3 nat :=
  let o := nth c CORNER_OFFSETS (mk3 0 0 0)%nat in
  (mk3 (ix + c0 o) (iy + c1 o) (iz + c2 o))%nat.

(** [(gz * n + gy) * n + gx]; grid indices are below [n^3] and computed
    exactly as naturals. *)
Definition gridIndex (n : nat) (g : v3 nat) : nat := ((c2 g * n + c1 g) * n + c0 g)%nat.

(** [cornerVals[c]]: a [field] read out of range is [undefined], which
    compares as NaN: the default [nan] of [nth]. *)
Definition cornerVal (field : list float) (n ix iy iz c : nat) : float :=
  nth (gridIndex n (cell_corner ix iy iz c)) field nan.

(** [cornerPos[c]]. *)
Definition cornerPos (gridMin : fvec) (cellSize : float) (ix iy iz c : nat) : fvec :=
  let g := cell_corner ix iy iz c in
  mk3 (c0 gridMin + Metaball.float_of_nat (c0 g) * cellSize)
      (c1 gridMin + Metaball.float_of_nat (c1 g) * cellSize)
      (c2 gridMin + Metaball.float_of_nat (c2 g) * cellSize).

(** [cubeIndex]: bit [c] is set when [cornerVals[c] >= threshold]. *)
Definition cubeIndex (field : list float) (n ix iy iz : nat) (threshold : float) : Z :=
  fold_left (fun ci c =>
    if threshold <=? cornerVal field n ix iy iz c then Z.lor ci (Z.shiftl 1 (Z.of_nat c))
    else ci)
    (seq 0 8) 0%Z.

(** [a < b ? a * n * n * n + b : b * n * n * n + a], as a JS number. *)
Definition edge_key (n a b : nat) : float :=
  let fn := Metaball.float_of_nat n in
  if (a <? b)%nat then Metaball.float_of_nat a * fn * fn * fn + Metaball.float_of_nat b
  else Metaball.float_of_nat b * fn * fn * fn + Metaball.float_of_nat a.

(** The body of the edge loop of [processCell] for edge [e], on
    [(vertices, edgeVertexMap, edgeVerts)]. *)
Definition processCell_edge (ix iy iz : nat) (field : list float) (n : nat)
    (gridMin : fvec) (cellSize threshold : float) (edges : Z)
    (acc : list fvec * list (float * nat) * list (option nat)) (e : nat)
    : list fvec * list (float * nat) * list (option nat) :=
  let '(vertices, edgeVertexMap, edgeVerts) := acc in
  if (Z.land edges (Z.shiftl 1 (Z.of_nat e)) =? 0)%Z then acc else
  let '(cA, cB) := nth e EDGE_CORNERS (0, 0)%nat in
  let a := gridIndex n (cell_corner ix iy iz cA) in
  let b := gridIndex n (cell_corner ix iy iz cB) in
  let key := edge_key n a b in
  match map_get edgeVertexMap key with
  | Some idx => (vertices, edgeVertexMap, Metaball.set_nth e (Some idx) edgeVerts)
  | None =>
      let pos := mcInterpolate (cornerPos gridMin cellSize ix iy iz cA)
                   (cornerPos gridMin cellSize ix iy iz cB)
                   (cornerVal field n ix iy iz cA) (cornerVal field n ix iy iz cB)
                   threshold in
      let idx := length vertices in
      (vertices ++ [pos], edgeVertexMap ++ [(key, idx)],
       Metaball.set_nth e (Some idx) edgeVerts)
  end.

(** [processCell(ix, iy, iz, field, n, gridMin, cellSize, threshold, ...)]
    on the shared state; [None] is the [TypeError] of [triList.length]
    when [TRI_TABLE[cubeIndex]] is [undefined]. *)
Definition processCell (ix iy iz : nat) (field : list float) (n : nat) (gridMin : fvec)
    (cellSize threshold : float) (st : mc_state) : option mc_state :=
  let ci := cubeIndex field n ix iy iz threshold in
  match nth_error_Z EDGE_TABLE ci with
  | None => None
  | Some edges =>
    if (edges =? 0)%Z then Some st else
    let '(vertices, edgeVertexMap, edgeVerts) :=
      fold_left (processCell_edge ix iy iz field n gridMin cellSize threshold edges)
        (seq 0 12) (mc_vertices st, mc_edgeVertexMap st, repeat None 12) in
    match nth_error_Z TRI_TABLE ci with
    | None => None
    | Some triList =>
        Some (mk_mc vertices (mc_triangles st ++ emit_tris edgeVerts triList) edgeVertexMap)
    end
  end.

(** [marchingCubes(field, res, gridMin, cellSize, threshold)] for an
    integer [res >= 0]: [Some (vertices, triangles)], or [None] if a
    [processCell] throws. *)
Definition marchingCubes (field : list float) (res : nat) (gridMin : fvec)
    (cellSize threshold : float) : option (list fvec * list (v3 (option nat))) :=
  let n := S res in
  option_map (fun st => (mc_vertices st, mc_triangles st))
    (Metaball.fold_opt (fun st iz =>
       Metaball.fold_opt (fun st iy =>
         Metaball.fold_opt (fun st ix =>
           processCell ix iy iz field n gridMin cellSize threshold st)
           (seq 0 res) st)
         (seq 0 res) st)
       (seq 0 res) (mk_mc [] [] [])).

End MarchingCubes.

(* ================================================================= *)
(** ** floor.js and environment.js: the traced ground, over binary64 *)

Module Ground.

Local Open Scope float_scope.

Definition fvec := v3 float.

(** The constants of floor.js. *)
Definition FLOOR_Y : float := 120.
Definition FLOOR_TILE : float := 80.
Definition FLOOR_HALF : float := 6.
Definition FLOOR_Z_OFFSET : float := 100.

(** [environment._floor]; the colors are RGB triples of integers. *)
Record floor_data : Type := mk_floor {
  fl_y : float; fl_tile : float; fl_color0 : v3 Z; fl_color1 : v3 Z;
  fl_minX : float; fl_maxX : float; fl_minZ : float; fl_maxZ : float;
  fl_offX : float; fl_offZ : float }.

Definition environment_floor : floor_data := {|
  fl_y := FLOOR_Y;
  fl_tile := FLOOR_TILE;
  fl_color0 := mk3 180%Z 30%Z 30%Z;
  fl_color1 := mk3 200%Z 200%Z 200%Z;
  fl_minX := (- FLOOR_HALF) * FLOOR_TILE;
  fl_maxX := FLOOR_HALF * FLOOR_TILE;
  fl_minZ := (- FLOOR_HALF) * FLOOR_TILE + FLOOR_Z_OFFSET;
  fl_maxZ := FLOOR_HALF * FLOOR_TILE + FLOOR_Z_OFFSET;
  fl_offX := 0;
  fl_offZ := FLOOR_Z_OFFSET |}.

(** [Math.floor]: a finite number with a fractional part goes to the
    integer below it (exact: such a number is below [2^52] in magnitude);
    integers, zeros, the infinities and NaN are returned as they are. *)
Definition Math_floor (x : float) : float :=
  match Prim2SF x with
  | S754_finite s m e =>
      if (0 <=? e)%Z then x
      else Raytrace.float_of_Z (Z.div (if s then Z.neg m else Z.pos m) (2 ^ (- e)))
  | _ => x
  end.

(** [{ t, color, nx, ny, nz, reflectivity }]. *)
Record env_hit : Type := mk_env_hit {
  eh_t : float; eh_color : v3 Z; eh_n : fvec; eh_reflectivity : float }.

(** [((ix + iz) & 1) ? fl.color1 : fl.color0] for
    [ix = Math.floor((hx - fl.offX) / fl.tile)] and
    [iz = Math.floor((hz - fl.offZ) / fl.tile)]. *)
Definition tile_color (hx hz : float) : v3 Z :=
  let fl := environment_floor in
  let ix := Math_floor ((hx - fl_offX fl) / fl_tile fl) in
  let iz := Math_floor ((hz - fl_offZ fl) / fl_tile fl) in
  if negb (Z.land (Raytrace.ToInt32 (ix + iz)) 1 =? 0)%Z then fl_color1 fl else fl_color0 fl.

(** [envIntersect(ox, oy, oz, dx, dy, dz)]. *)
Definition envIntersect (o d : fvec) : option env_hit :=
  let fl := environment_floor in
  if abs (c1 d) <? F64.RT_EPSILON then None else
  let t := (fl_y fl - c1 o) / c1 d in
  if t <? F64.RT_EPSILON then None else
  let hx := c0 o + c0 d * t in
  let hz := c2 o + c2 d * t in
  if (hx <? fl_minX fl) || (fl_maxX fl <? hx) ||
     (hz <? fl_minZ fl) || (fl_maxZ fl <? hz) then None else
  Some (mk_env_hit t (tile_color hx hz) (mk3 0 (-1) 0) 0).

(** [envAnyHit(ox, oy, oz, dx, dy, dz, maxDist)]. *)
Definition envAnyHit (o d : fvec) (maxDist : float) : bool :=
  let fl := environment_floor in
  if abs (c1 d) <? F64.RT_EPSILON then false else
  let t := (fl_y fl - c1 o) / c1 d in
  if (t <? F64.RT_EPSILON) || (maxDist <? t) then false else
  let hx := c0 o + c0 d * t in
  let hz := c2 o + c2 d * t in
  (fl_minX fl <=? hx) && (hx <=? fl_maxX fl) &&
  (fl_minZ fl <=? hz) && (hz <=? fl_maxZ fl).

(** A ray straight up from [(1000, 0, 100)]: it meets [y = 120] at
    [t = 120], outside the tiles. *)
Definition ex_far_o : fvec := mk3 1000 0 100.
Definition ex_up : fvec := mk3 0 1 0.

(** A ray from [(0, -1e304, 0)] along [(0, 1e-5, 0)]: [t] overflows to
    [Infinity] and [hx = 0 * Infinity] is NaN. *)
Definition ex_low_o : fvec := mk3 0 (-0x1.d2a1be4048f90p+1009) 0.
Definition ex_slow_up : fvec := mk3 0 0x1.4f8b588e368f1p-17 0.

End Ground.

(* ================================================================= *)
(** ** Concrete inputs used by the witnesses and counterexamples *)

(** A projected triangle with corners at [y = 0], [10], [10]. *)
Definition ex_poly : list SoftRender.spoint :=
  [SoftRender.mk_spoint 0 0 1 0 0 1; SoftRender.mk_spoint 10 10 1 0 0 1;
   SoftRender.mk_spoint 0 10 1 0 0 1]%float.

(** Two unit right triangles, one at the origin and one at (5,5,5), and a
    third one sharing two vertices with the first. *)
Definition ex_verts : list vec3 :=
  [mk3 0 0 0; mk3 1 0 0; mk3 0 1 0; mk3 5 5 5; mk3 6 5 5; mk3 5 6 5; mk3 2 2 2].
Definition ex_tris : list tri :=
  [mk3 3 4 5; mk3 0 1 2; mk3 0 1 6]%nat.

(** The node array [buildBVH] returns on them. *)
Definition ex_nodes : list bvh_node :=
  match buildBVH ex_verts ex_tris with Some n => n | None => [] end.

(** A ray along [+z] through [(1/4, 1/4)]: it crosses triangles 1 and 2
    at [t = 1]. *)
Definition ex_o : vec3 := mk3 (1 # 4) (1 # 4) (-1).
Definition ex_d : vec3 := mk3 0 0 1.

(** A loaded [2 x 1] sky image, and the sky before it has loaded. *)
Definition ex_sky_bytes : list Z := [10; 20; 30; 255; 40; 50; 60; 255]%Z.
Definition ex_sky : sky_data := mk_sky (Some ex_sky_bytes) 2 1.
Definition ex_sky_loading : sky_data := mk_sky None 0 0.

(** A callback that never stops the walk. *)
Definition ex_visit (a : unit) (_ : Z) : unit * bool := (a, false).

(* ================================================================= *)
(** * Proofs *)

(* ----------------------------------------------------------------- *)
(** *** Leaves of a built BVH *)

Lemma insert_by_perm k x l : Permutation (insert_by k x l) (x :: l).
Proof.
  induction l as [|y l IH]; simpl; [reflexivity|].
  destruct (Qle_bool (k x) (k y)); [reflexivity|].
  rewrite IH. apply perm_swap.
Qed.

Lemma sort_by_perm k l : Permutation (sort_by k l) l.
Proof.
  induction l as [|x l IH]; simpl; [reflexivity|].
  rewrite insert_by_perm. now apply perm_skip.
Qed.

Lemma leaf_tri_indices_app l1 l2 :
  leaf_tri_indices (l1 ++ l2) = leaf_tri_indices l1 ++ leaf_tri_indices l2.
Proof. unfold leaf_tri_indices. now rewrite filter_app, map_app. Qed.

Lemma shiftr1_div2 n : Nat.shiftr n 1 = (n / 2)%nat.
Proof. now rewrite Nat.shiftr_div_pow2. Qed.

(** Shape of a successful [buildNode] call on at least two triangles. *)
Lemma buildNode_inner_inv wv ts fuel infos base seg :
  buildNode wv ts (S fuel) infos base = Some seg ->
  (2 <= length infos)%nat ->
  let '(lo, hi) := computeTriangleAABB wv ts infos in
  let sub := sort_by (split_key lo hi) infos in
  let mid := (length infos / 2)%nat in
  exists ln rn,
    buildNode wv ts fuel (firstn mid sub) (S base) = Some ln /\
    buildNode wv ts fuel (skipn mid sub) (S base + length ln) = Some rn /\
    seg = mk_node lo hi (Z.of_nat (S base)) (Z.of_nat (S base + length ln)) (-1)
            :: ln ++ rn.
Proof.
  intros H Hlen. cbn [buildNode] in H.
  destruct (computeTriangleAABB wv ts infos) as [lo hi].
  rewrite shiftr1_div2 in H.
  destruct infos as [|i [|j rest]]; simpl in Hlen; try lia.
  set (sub := sort_by (split_key lo hi) (i :: j :: rest)) in *.
  set (mid := (length (i :: j :: rest) / 2)%nat) in *.
  destruct (buildNode wv ts fuel (firstn mid sub) (S base)) as [ln|] eqn:E1;
    [|discriminate].
  destruct (buildNode wv ts fuel (skipn mid sub) (S base + length ln)) as [rn|] eqn:E2;
    [|discriminate].
  injection H as <-. eauto.
Qed.

Lemma buildNode_leaf_inv wv ts fuel i base seg :
  buildNode wv ts fuel [i] base = Some seg ->
  exists lo hi, seg = [mk_node lo hi (-1) (-1) (Z.of_nat (idx i))].
Proof.
  destruct fuel; simpl; [discriminate|].
  destruct (computeTriangleAABB wv ts [i]) as [lo hi].
  intros H; injection H as <-. eauto.
Qed.

(** An empty range never returns. *)
Lemma buildNode_nil wv ts fuel : forall base, buildNode wv ts fuel [] base = None.
Proof.
  induction fuel as [|fuel IH]; intros base; [reflexivity|].
  cbn [buildNode]. destruct (computeTriangleAABB wv ts []).
  simpl. now rewrite IH.
Qed.

Lemma buildNode_leaves wv ts fuel :
  forall infos base seg,
  buildNode wv ts fuel infos base = Some seg ->
  Permutation (leaf_tri_indices seg) (map (fun i => Z.of_nat (idx i)) infos).
Proof.
  induction fuel as [|fuel IH]; intros infos base seg H; [discriminate|].
  destruct infos as [|i [|j rest]].
  - now rewrite buildNode_nil in H.
  - apply buildNode_leaf_inv in H as (lo & hi & ->).
    unfold leaf_tri_indices; simpl.
    destruct (Z.leb_spec 0 (Z.of_nat (idx i))); [reflexivity|lia].
  - pose proof (buildNode_inner_inv _ _ _ _ _ _ H) as Hinv.
    destruct (computeTriangleAABB wv ts (i :: j :: rest)) as [lo hi].
    destruct (Hinv ltac:(simpl; lia)) as (ln & rn & E1 & E2 & ->).
    unfold leaf_tri_indices at 1; simpl.
    change (map triIdx (filter (fun n => Z.leb 0 (triIdx n)) (ln ++ rn)))
      with (leaf_tri_indices (ln ++ rn)).
    rewrite leaf_tri_indices_app.
    rewrite (IH _ _ _ E1), (IH _ _ _ E2), <- map_app, firstn_skipn.
    exact (Permutation_map (fun i => Z.of_nat (idx i)) (sort_by_perm _ (i :: j :: rest))).
Qed.

Lemma buildNode_total wv ts fuel :
  forall infos base,
  (1 <= length infos <= fuel)%nat ->
  exists seg, buildNode wv ts fuel infos base = Some seg.
Proof.
  induction fuel as [|fuel IH]; intros infos base Hlen; [lia|].
  destruct infos as [|i [|j rest]]; simpl in Hlen; [lia| |].
  - simpl. destruct (computeTriangleAABB wv ts [i]). eauto.
  - cbn [buildNode]. destruct (computeTriangleAABB wv ts (i :: j :: rest)) as [lo hi].
    rewrite shiftr1_div2.
    set (l := i :: j :: rest).
    set (sub := sort_by (split_key lo hi) l).
    assert (Hs : length sub = length l) by apply (Permutation_length (sort_by_perm _ _)).
    assert (Hl : length l = S (S (length rest))) by reflexivity.
    set (mid := (length l / 2)%nat).
    assert (Hmid : (1 <= mid < length l)%nat).
    { unfold mid. rewrite Hl. split.
      - apply (Nat.div_le_lower_bound _ 2); lia.
      - apply Nat.div_lt; lia. }
    destruct (IH (firstn mid sub) (S base)) as [ln E1].
    { rewrite length_firstn, Hs. lia. }
    rewrite E1.
    destruct (IH (skipn mid sub) (S base + length ln)%nat) as [rn E2].
    { rewrite length_skipn, Hs. lia. }
    rewrite E2. eauto.
Qed.



(* ----------------------------------------------------------------- *)
(** *** Boxes of a built BVH *)

Lemma Qltb_spec x y : Qltb x y = true <-> (x < y)%Q.
Proof.
  unfold Qltb. rewrite negb_true_iff.
  split; intros H.
  - apply Qnot_le_lt. intros H'. apply Qle_bool_iff in H'. congruence.
  - destruct (Qle_bool y x) eqn:E; [|reflexivity].
    apply Qle_bool_iff in E. exfalso. apply (Qlt_not_le x y); assumption.
Qed.

Lemma Qltb_false x y : Qltb x y = false <-> (y <= x)%Q.
Proof.
  unfold Qltb. rewrite negb_false_iff. apply Qle_bool_iff.
Qed.

Definition not_nan (a : jsnum) : Prop := a <> NaN.

Lemma js_le_refl a : a <> NaN -> js_le a a = true.
Proof.
  destruct a; simpl; try congruence; try reflexivity.
  intros _. apply negb_true_iff, Qltb_false, Qle_refl.
Qed.

Lemma js_le_nan_l a b : js_le a b = true -> a <> NaN /\ b <> NaN.
Proof. destruct a, b; simpl; try discriminate; split; discriminate. Qed.

Lemma js_le_trans a b c : js_le a b = true -> js_le b c = true -> js_le a c = true.
Proof.
  destruct a, b, c; simpl; try discriminate; try reflexivity;
    rewrite ?negb_true_iff, ?Qltb_false; intros; try discriminate.
  eapply Qle_trans; eassumption.
Qed.

(** For non-NaN numbers, [!(a < b)] is [b <= a]. *)
Lemma js_lt_false_le a b :
  a <> NaN -> b <> NaN -> js_lt a b = false -> js_le b a = true.
Proof.
  intros Ha Hb H. destruct a, b; simpl in *; try congruence; try reflexivity.
  now rewrite H.
Qed.

Lemma js_lt_le a b : js_lt a b = true -> js_le a b = true.
Proof.
  destruct a, b; simpl; try discriminate; try reflexivity.
  rewrite Qltb_spec, negb_true_iff, Qltb_false. intros H. now apply Qlt_le_weak.
Qed.

Lemma upd_min_le m v : m <> NaN ->
  js_le (upd_min m v) m = true /\ js_le (upd_min m v) (Fin v) = true.
Proof.
  intros Hm. unfold upd_min.
  destruct (js_lt (Fin v) m) eqn:E.
  - split; [now apply js_lt_le|apply js_le_refl; discriminate].
  - split; [now apply js_le_refl|].
    apply js_lt_false_le; [discriminate|assumption|assumption].
Qed.

Lemma upd_min_not_nan m v : m <> NaN -> upd_min m v <> NaN.
Proof. unfold upd_min. destruct (js_lt (Fin v) m); congruence. Qed.

Lemma upd_max_ge m v : m <> NaN ->
  js_le m (upd_max m v) = true /\ js_le (Fin v) (upd_max m v) = true.
Proof.
  intros Hm. unfold upd_max, js_gt.
  destruct (js_lt m (Fin v)) eqn:E.
  - split; [now apply js_lt_le|apply js_le_refl; discriminate].
  - split; [now apply js_le_refl|].
    apply js_lt_false_le; [assumption|discriminate|assumption].
Qed.

Lemma upd_max_not_nan m v : m <> NaN -> upd_max m v <> NaN.
Proof. unfold upd_max. destruct (js_gt (Fin v) m); congruence. Qed.

Lemma fold_min_props l : forall m, m <> NaN ->
  let r := fold_left upd_min l m in
  r <> NaN /\ js_le r m = true /\ (forall x, In x l -> js_le r (Fin x) = true) /\
  (r = m \/ exists x, In x l /\ r = Fin x).
Proof.
  induction l as [|v l IH]; intros m Hm; simpl.
  - repeat split; auto using js_le_refl; contradiction.
  - destruct (upd_min_le m v Hm) as [H1 H2].
    destruct (IH (upd_min m v) (upd_min_not_nan m v Hm)) as (Hn & Hr & Hx & Heq).
    repeat split; auto.
    + eapply js_le_trans; eassumption.
    + intros x [<-|Hin]; [eapply js_le_trans; eassumption|auto].
    + destruct Heq as [->|(x & Hin & ->)]; [|eauto].
      unfold upd_min. destruct (js_lt (Fin v) m); eauto.
Qed.

Lemma fold_max_props l : forall m, m <> NaN ->
  let r := fold_left upd_max l m in
  r <> NaN /\ js_le m r = true /\ (forall x, In x l -> js_le (Fin x) r = true) /\
  (r = m \/ exists x, In x l /\ r = Fin x).
Proof.
  induction l as [|v l IH]; intros m Hm; cbn [fold_left In].
  - repeat split; auto using js_le_refl; contradiction.
  - destruct (upd_max_ge m v Hm) as [H1 H2].
    destruct (IH (upd_max m v) (upd_max_not_nan m v Hm)) as (Hn & Hr & Hx & Heq).
    repeat split; auto.
    + eapply js_le_trans; eassumption.
    + intros x [<-|Hin]; [eapply js_le_trans; eassumption|auto].
    + destruct Heq as [->|(x & Hin & ->)]; [|eauto].
      unfold upd_max. destruct (js_gt (Fin v) m); eauto.
Qed.

(** The box accumulators, coordinate by coordinate, are folds of
    [upd_min] and [upd_max] over that coordinate of the vertices. *)
Lemma computeTriangleAABB_sel wv ts k infos : (k < 3)%nat ->
  forall b,
  sel k (fst (fold_left (upd_box_tri wv ts) infos b)) =
    fold_left upd_min (tri_vals wv ts k infos) (sel k (fst b)) /\
  sel k (snd (fold_left (upd_box_tri wv ts) infos b)) =
    fold_left upd_max (tri_vals wv ts k infos) (sel k (snd b)).
Proof.
  intros Hk. induction infos as [|info infos IH]; intros b; [split; reflexivity|].
  simpl. rewrite (proj1 (IH _)), (proj2 (IH _)).
  destruct b as [lo hi].
  destruct k as [|[|[|k]]]; [| | |lia]; split; reflexivity.
Qed.

Lemma tri_vals_incl wv ts k l1 l2 :
  incl l1 l2 -> incl (tri_vals wv ts k l1) (tri_vals wv ts k l2).
Proof.
  intros H x Hx. unfold tri_vals in *.
  apply in_flat_map in Hx as (info & Hin & Hx).
  apply in_flat_map. exists info. auto.
Qed.

(** The box of a sub-range (as a sub-list of the triangles) lies inside
    the box of the range, coordinate by coordinate. *)
Lemma aabb_sel_incl wv ts k l1 l2 : (k < 3)%nat -> incl l1 l2 ->
  js_le (sel k (fst (computeTriangleAABB wv ts l2)))
        (sel k (fst (computeTriangleAABB wv ts l1))) = true /\
  js_le (sel k (snd (computeTriangleAABB wv ts l1)))
        (sel k (snd (computeTriangleAABB wv ts l2))) = true.
Proof.
  intros Hk Hincl. unfold computeTriangleAABB.
  rewrite !(proj1 (computeTriangleAABB_sel wv ts k _ Hk _)),
          !(proj2 (computeTriangleAABB_sel wv ts k _ Hk _)).
  assert (Hlo : sel k (fst (mk3 PosInf PosInf PosInf, mk3 NegInf NegInf NegInf)) = PosInf)
    by (destruct k as [|[|[|]]]; reflexivity).
  assert (Hhi : sel k (snd (mk3 PosInf PosInf PosInf, mk3 NegInf NegInf NegInf)) = NegInf)
    by (destruct k as [|[|[|]]]; reflexivity).
  rewrite Hlo, Hhi.
  pose proof (tri_vals_incl wv ts k _ _ Hincl) as Hv.
  split.
  - destruct (fold_min_props (tri_vals wv ts k l2) PosInf ltac:(discriminate))
      as (Hn2 & _ & Hx2 & _).
    destruct (fold_min_props (tri_vals wv ts k l1) PosInf ltac:(discriminate))
      as (_ & _ & _ & [->|(x & Hin & ->)]).
    + destruct (fold_left upd_min (tri_vals wv ts k l2) PosInf); simpl;
        congruence || reflexivity.
    + apply Hx2, Hv, Hin.
  - destruct (fold_max_props (tri_vals wv ts k l2) NegInf ltac:(discriminate))
      as (Hn2 & _ & Hx2 & _).
    destruct (fold_max_props (tri_vals wv ts k l1) NegInf ltac:(discriminate))
      as (_ & _ & _ & [->|(x & Hin & ->)]).
    + destruct (fold_left upd_max (tri_vals wv ts k l2) NegInf); simpl;
        congruence || reflexivity.
    + apply Hx2, Hv, Hin.
Qed.

(** The first node a call appends is the node of its range, with the box
    of the range. *)
Lemma buildNode_root wv ts fuel infos base seg :
  buildNode wv ts fuel infos base = Some seg ->
  exists n rest, seg = n :: rest /\
    bmin n = fst (computeTriangleAABB wv ts infos) /\
    bmax n = snd (computeTriangleAABB wv ts infos).
Proof.
  destruct fuel as [|fuel]; [discriminate|].
  destruct infos as [|i [|j rest]].
  - now rewrite buildNode_nil.
  - intros H. pose proof H as H'. apply buildNode_leaf_inv in H' as (lo & hi & ->).
    cbn [buildNode] in H. destruct (computeTriangleAABB wv ts [i]) as [lo' hi'].
    injection H as <- <-. eauto.
  - intros H. pose proof (buildNode_inner_inv _ _ _ _ _ _ H ltac:(simpl; lia)) as Hinv.
    destruct (computeTriangleAABB wv ts (i :: j :: rest)) as [lo hi].
    destruct Hinv as (ln & rn & _ & _ & ->). eauto.
Qed.

Lemma seg_at_tail nodes base n l1 l2 :
  seg_at nodes base (n :: l1 ++ l2) ->
  seg_at nodes (S base) l1 /\ seg_at nodes (S base + length l1) l2.
Proof.
  intros H. split.
  - intros k Hk. replace (S base + k)%nat with (base + S k)%nat by lia.
    rewrite H by (simpl; rewrite length_app; lia). simpl.
    now rewrite nth_error_app1.
  - intros k Hk. replace (S base + length l1 + k)%nat with (base + S (length l1 + k))%nat
      by lia.
    rewrite H by (simpl; rewrite length_app; lia). simpl.
    rewrite nth_error_app2 by lia. f_equal. lia.
Qed.

Lemma incl_firstn_sort k m l : incl (firstn m (sort_by k l)) l.
Proof.
  intros x Hx. apply (Permutation_in _ (sort_by_perm k l)).
  rewrite <- (firstn_skipn m (sort_by k l)). apply in_or_app. now left.
Qed.

Lemma incl_skipn_sort k m l : incl (skipn m (sort_by k l)) l.
Proof.
  intros x Hx. apply (Permutation_in _ (sort_by_perm k l)).
  rewrite <- (firstn_skipn m (sort_by k l)). apply in_or_app. now right.
Qed.

Lemma box_within_incl wv ts l1 l2 c p :
  incl l1 l2 ->
  bmin c = fst (computeTriangleAABB wv ts l1) ->
  bmax c = snd (computeTriangleAABB wv ts l1) ->
  bmin p = fst (computeTriangleAABB wv ts l2) ->
  bmax p = snd (computeTriangleAABB wv ts l2) ->
  box_within c p.
Proof.
  intros Hincl H1 H2 H3 H4. unfold box_within, js_ge.
  rewrite H1, H2, H3, H4.
  destruct (aabb_sel_incl wv ts 0 l1 l2 ltac:(lia) Hincl) as [A0 B0].
  destruct (aabb_sel_incl wv ts 1 l1 l2 ltac:(lia) Hincl) as [A1 B1].
  destruct (aabb_sel_incl wv ts 2 l1 l2 ltac:(lia) Hincl) as [A2 B2].
  simpl in *. repeat split; assumption.
Qed.

Lemma node_at_nat nodes (n : nat) : node_at nodes (Z.of_nat n) = nth_error nodes n.
Proof.
  unfold node_at. destruct (Z.ltb_spec (Z.of_nat n) 0); [lia|].
  now rewrite Nat2Z.id.
Qed.

Lemma buildNode_children wv ts fuel :
  forall infos base seg nodes,
  buildNode wv ts fuel infos base = Some seg ->
  seg_at nodes base seg ->
  forall j p, nth_error seg j = Some p -> (triIdx p < 0)%Z ->
  (exists c, node_at nodes (left p) = Some c /\ box_within c p) /\
  (exists c, node_at nodes (right p) = Some c /\ box_within c p).
Proof.
  induction fuel as [|fuel IH]; intros infos base seg nodes H Hat j p Hj Hp;
    [discriminate|].
  destruct infos as [|i [|i' rest]].
  - now rewrite buildNode_nil in H.
  - apply buildNode_leaf_inv in H as (lo & hi & ->).
    destruct j as [|[|j]]; simpl in Hj; try discriminate.
    injection Hj as <-. simpl in Hp. lia.
  - pose proof (buildNode_inner_inv _ _ _ _ _ _ H ltac:(simpl; lia)) as Hinv.
    pose proof (buildNode_root _ _ _ _ _ _ H) as (r & rs & Hseg & Hr1 & Hr2).
    destruct (computeTriangleAABB wv ts (i :: i' :: rest)) as [lo hi] eqn:Ebox.
    destruct Hinv as (ln & rn & E1 & E2 & ->).
    destruct (seg_at_tail _ _ _ _ _ Hat) as [Hl Hr].
    destruct j as [|j].
    + simpl in Hj. injection Hj as <-. cbn [left right].
      destruct (buildNode_root _ _ _ _ _ _ E1) as (lr & lrs & -> & L1 & L2).
      destruct (buildNode_root _ _ _ _ _ _ E2) as (rr & rrs & -> & R1 & R2).
      split.
      * exists lr. change (Z.pos (Pos.of_succ_nat base)) with (Z.of_nat (S base)).
        rewrite node_at_nat.
        split.
        -- specialize (Hl 0%nat ltac:(simpl; lia)). rewrite Nat.add_0_r in Hl.
           now rewrite Hl.
        -- eapply box_within_incl; [apply incl_firstn_sort|exact L1|exact L2| |].
           all: simpl; rewrite Ebox; reflexivity.
      * exists rr.
        change (Z.pos (Pos.of_succ_nat (base + length (lr :: lrs))))
          with (Z.of_nat (S base + length (lr :: lrs))).
        rewrite node_at_nat.
        split.
        -- specialize (Hr 0%nat ltac:(simpl; lia)). rewrite Nat.add_0_r in Hr.
           now rewrite Hr.
        -- eapply box_within_incl; [apply incl_skipn_sort|exact R1|exact R2| |].
           all: simpl; rewrite Ebox; reflexivity.
    + simpl in Hj.
      destruct (Nat.ltb_spec j (length ln)).
      * rewrite nth_error_app1 in Hj by lia.
        exact (IH _ _ _ nodes E1 Hl j p Hj Hp).
      * rewrite nth_error_app2 in Hj by lia.
        exact (IH _ _ _ nodes E2 Hr _ p Hj Hp).
Qed.

(** C3: in every node array built by [buildBVH], each inner node
    ([triIdx < 0]) has two children [nodes[left]] and [nodes[right]]
    whose boxes are inside its own: [child.bmin >= parent.bmin] and
    [child.bmax <= parent.bmax] on each axis. *)
Theorem buildBVH_child_boxes_within (worldVerts : list vec3) (triangles : list tri)
  (nodes : list bvh_node) :
  buildBVH worldVerts triangles = Some nodes ->
  forall i p, nth_error nodes i = Some p -> (triIdx p < 0)%Z ->
  (exists c, node_at nodes (left p) = Some c /\ box_within c p) /\
  (exists c, node_at nodes (right p) = Some c /\ box_within c p).
Proof.
  unfold buildBVH. destruct (Nat.ltb_spec 0 (length triangles)) as [Hn|Hn].
  - intros Hb. eapply buildNode_children; [exact Hb|].
    intros k _. reflexivity.
  - intros Hb. injection Hb as <-. intros i p Hi. destruct i; discriminate.
Qed.

Lemma buildBVH_child_boxes_within_witness :
  exists p, nth_error ex_nodes 0 = Some p /\ (triIdx p < 0)%Z /\
  (exists c, node_at ex_nodes (left p) = Some c /\ box_within c p) /\
  (exists c, node_at ex_nodes (right p) = Some c /\ box_within c p).
Proof.
  eexists. split; [reflexivity|]. split; [reflexivity|].
  apply (buildBVH_child_boxes_within ex_verts ex_tris ex_nodes eq_refl 0); reflexivity.
Defined.

(* ----------------------------------------------------------------- *)
(** *** Shape of a built BVH *)

Lemma half_bounds n k :
  (2 <= n)%nat -> (n <= 2 ^ S k)%nat ->
  (n / 2 <= 2 ^ k)%nat /\ (n - n / 2 <= 2 ^ k)%nat.
Proof.
  intros H2 Hk. rewrite Nat.pow_succ_r' in Hk.
  pose proof (Nat.div_mod n 2 ltac:(lia)) as Hd.
  pose proof (Nat.mod_upper_bound n 2 ltac:(lia)) as Hm.
  generalize dependent (2 ^ k)%nat. intros P Hk.
  set (q := (n / 2)%nat) in *. set (r := (n mod 2)%nat) in *. lia.
Qed.

Lemma buildNode_wf wv ts fuel :
  forall infos base seg nodes,
  buildNode wv ts fuel infos base = Some seg ->
  seg_at nodes base seg ->
  exists h, wf_tree nodes (Z.of_nat base) (length seg) h /\
            (forall k, length infos <= 2 ^ k -> h <= k)%nat.
Proof.
  induction fuel as [|fuel IH]; intros infos base seg nodes H Hat; [discriminate|].
  destruct infos as [|i [|i' rest]].
  - now rewrite buildNode_nil in H.
  - apply buildNode_leaf_inv in H as (lo & hi & ->).
    exists 0%nat. split; [|intros; lia].
    eapply wf_leaf.
    + rewrite node_at_nat. specialize (Hat 0%nat ltac:(simpl; lia)).
      rewrite Nat.add_0_r in Hat. exact Hat.
    + simpl; lia.
  - pose proof (buildNode_inner_inv _ _ _ _ _ _ H ltac:(simpl; lia)) as Hinv.
    destruct (computeTriangleAABB wv ts (i :: i' :: rest)) as [lo hi].
    destruct Hinv as (ln & rn & E1 & E2 & ->).
    destruct (seg_at_tail _ _ _ _ _ Hat) as [Hl Hr].
    destruct (IH _ _ _ nodes E1 Hl) as (hl & Wl & Bl).
    destruct (IH _ _ _ nodes E2 Hr) as (hr & Wr & Br).
    exists (S (Nat.max hl hr)). split.
    + cbn [length]. rewrite length_app.
      apply (wf_inner nodes (Z.of_nat base)
               (mk_node lo hi (Z.of_nat (S base)) (Z.of_nat (S base + length ln)) (-1)));
        [| |exact Wl|exact Wr].
      * rewrite node_at_nat. specialize (Hat 0%nat ltac:(simpl; lia)).
        rewrite Nat.add_0_r in Hat. now rewrite Hat.
      * simpl; lia.
    + intros k Hk.
      set (l := i :: i' :: rest) in *.
      set (sub := sort_by (split_key lo hi) l) in *.
      assert (Hs : length sub = length l) by apply (Permutation_length (sort_by_perm _ _)).
      assert (Hl2 : (2 <= length l)%nat) by (simpl; lia).
      destruct k as [|k]; [simpl in Hk; lia|].
      destruct (half_bounds _ k Hl2 Hk) as [H1 H2].
      specialize (Bl k). specialize (Br k).
      rewrite length_firstn, Hs in Bl. rewrite length_skipn, Hs in Br.
      assert (Nat.min (length l / 2) (length l) = length l / 2)%nat as Hmin
        by (apply Nat.min_l, Nat.Div0.div_le_upper_bound; lia).
      rewrite Hmin in Bl. specialize (Bl H1). specialize (Br H2). lia.
Qed.

(** The root of a built BVH spans the whole array and its height is at
    most [ceil(log2 n)]. *)
Lemma buildBVH_wf wv ts nodes :
  buildBVH wv ts = Some nodes -> ts <> [] ->
  exists h, wf_tree nodes 0 (length nodes) h /\ (h <= Nat.log2_up (length ts))%nat.
Proof.
  intros Hb Hne.
  assert (Hn : (0 < length ts)%nat) by (destruct ts; [congruence|simpl; lia]).
  unfold buildBVH in Hb. destruct (Nat.ltb_spec 0 (length ts)); [|lia].
  destruct (buildNode_wf wv ts _ _ 0 nodes nodes Hb) as (h & W & B).
  { intros k _. reflexivity. }
  exists h. split; [exact W|]. apply B.
  rewrite length_map, length_seq.
  apply Nat.log2_up_le_pow2; [exact Hn|lia].
Qed.

Lemma log2_up_small n :
  (0 < n)%nat -> (Z.of_nat n <= 2 ^ 63)%Z -> (Nat.log2_up n < BVH_STACK_SIZE)%nat.
Proof.
  intros Hn HZ. unfold BVH_STACK_SIZE.
  assert (Hle : (n <= 2 ^ 63)%nat).
  { apply Nat2Z.inj_le. rewrite Nat2Z.inj_pow. exact HZ. }
  apply Nat.log2_up_le_pow2 in Hle; [lia|exact Hn].
Qed.

(* ----------------------------------------------------------------- *)
(** *** The traversal stack *)

Section TraverseProofs.

Context {A : Type}.
Variables (o d : vec3) (nodes : list bvh_node) (onLeaf : A -> Z -> A * bool).

Lemma walk_iter_finished k a : walk_iter o d nodes onLeaf k (Finished a) = Finished a.
Proof. induction k; simpl; auto. Qed.

Lemma walk_iter_crashed k : walk_iter o d nodes onLeaf k Crashed = Crashed.
Proof. induction k; simpl; auto. Qed.

Lemma wf_tree_node i s h : wf_tree nodes i s h -> exists p, node_at nodes i = Some p.
Proof. destruct 1; eauto. Qed.

Lemma push_inv D rest m x s h :
  stk_inv nodes D rest m -> wf_tree nodes x s h -> (h + length rest <= D)%nat ->
  exists m', stk_inv nodes D (push x rest) m' /\ (m' <= s + m)%nat.
Proof.
  intros Hr Hw Hh. unfold push.
  destruct (Nat.ltb_spec (length rest) BVH_STACK_SIZE).
  - exists (s + m)%nat. split; [|lia]. eapply si_some; eauto.
  - exists m. split; [|lia]. apply si_none; [lia|exact Hr].
Qed.

Lemma stk_inv_length D e rest m :
  stk_inv nodes D (e :: rest) m -> (length rest <= D)%nat.
Proof. inversion 1; subst; lia. Qed.

(** One iteration keeps the invariant and visits one node. *)
Lemma walk_step_inv D L m acc L' acc' :
  stk_inv nodes D L m ->
  walk_step o d nodes onLeaf (Running L acc) = Running L' acc' ->
  exists m', stk_inv nodes D L' m' /\ (m' < m)%nat.
Proof.
  intros Hinv Hstep. destruct Hinv as [|i s h rest m0 Hh Hw Hr|rest m0 Hb Hr];
    simpl in Hstep; try discriminate.
  destruct Hw as [i p Hp Ht|i p sl hl sr hr Hp Ht Wl Wr]; rewrite Hp in Hstep.
  - destruct (rayAABBIntersect o d (bmin p) (bmax p)); simpl in Hstep.
    + destruct (Z.leb_spec 0 (triIdx p)); [|lia].
      destruct (onLeaf acc (triIdx p)) as [a' []]; [discriminate|].
      injection Hstep as <- <-. exists m0. split; [exact Hr|lia].
    + injection Hstep as <- <-. exists m0. split; [exact Hr|lia].
  - destruct (rayAABBIntersect o d (bmin p) (bmax p)); simpl in Hstep.
    + destruct (Z.leb_spec 0 (triIdx p)); [lia|].
      injection Hstep as <- <-.
      destruct (push_inv D rest m0 (left p) sl hl Hr Wl ltac:(lia)) as (m1 & H1 & Hm1).
      destruct (push_inv D (push (left p) rest) m1 (right p) sr hr H1 Wr) as (m2 & H2 & Hm2).
      { unfold push; simpl. lia. }
      exists m2. split; [exact H2|lia].
    + injection Hstep as <- <-. exists m0. split; [exact Hr|lia].
Qed.

(** While the tree is shallower than the stack, no iteration crashes. *)
Lemma walk_step_no_crash D L m acc :
  (D < BVH_STACK_SIZE)%nat -> stk_inv nodes D L m ->
  walk_step o d nodes onLeaf (Running L acc) <> Crashed.
Proof.
  intros HD Hinv. destruct Hinv as [|i s h rest m0 Hh Hw Hr|rest m0 Hb Hr];
    simpl; try discriminate; [|lia].
  destruct (wf_tree_node _ _ _ Hw) as [p Hp]. rewrite Hp.
  destruct (rayAABBIntersect o d (bmin p) (bmax p)); simpl; [|discriminate].
  destruct (Z.leb 0 (triIdx p)); [|discriminate].
  destruct (onLeaf acc (triIdx p)) as [a' []]; discriminate.
Qed.

Lemma walk_iter_inv D k : forall L m acc L' acc',
  stk_inv nodes D L m ->
  walk_iter o d nodes onLeaf k (Running L acc) = Running L' acc' ->
  exists m', stk_inv nodes D L' m'.
Proof.
  induction k as [|k IH]; intros L m acc L' acc' Hinv Hit; cbn [walk_iter] in Hit.
  - injection Hit as <- <-. eauto.
  - destruct (walk_step o d nodes onLeaf (Running L acc)) as [L1 a1|a1|] eqn:E.
    + destruct (walk_step_inv D L m acc L1 a1 Hinv E) as (m1 & H1 & _).
      exact (IH L1 m1 a1 L' acc' H1 Hit).
    + rewrite walk_iter_finished in Hit. discriminate.
    + rewrite walk_iter_crashed in Hit. discriminate.
Qed.

Lemma walk_iter_no_crash D k : forall L m acc,
  (D < BVH_STACK_SIZE)%nat -> stk_inv nodes D L m ->
  walk_iter o d nodes onLeaf k (Running L acc) <> Crashed.
Proof.
  induction k as [|k IH]; intros L m acc HD Hinv; cbn [walk_iter]; [discriminate|].
  destruct (walk_step o d nodes onLeaf (Running L acc)) as [L1 a1|a1|] eqn:E.
  - destruct (walk_step_inv D L m acc L1 a1 Hinv E) as (m1 & H1 & _).
    exact (IH L1 m1 a1 HD H1).
  - rewrite walk_iter_finished. discriminate.
  - exfalso. exact (walk_step_no_crash D L m acc HD Hinv E).
Qed.

(** The walk ends within one iteration per node still to be visited. *)
Lemma walk_iter_finishes D k : forall L m acc,
  (D < BVH_STACK_SIZE)%nat -> stk_inv nodes D L m -> (m < k)%nat ->
  exists acc', walk_iter o d nodes onLeaf k (Running L acc) = Finished acc'.
Proof.
  induction k as [|k IH]; intros L m acc HD Hinv Hk; [lia|]. cbn [walk_iter].
  destruct (walk_step o d nodes onLeaf (Running L acc)) as [L1 a1|a1|] eqn:E.
  - destruct (walk_step_inv D L m acc L1 a1 Hinv E) as (m1 & H1 & Hm1).
    apply (IH L1 m1); [exact HD|exact H1|lia].
  - rewrite walk_iter_finished. eauto.
  - exfalso. exact (walk_step_no_crash D L m acc HD Hinv E).
Qed.

(** A property of the callback's state kept by every [onLeaf] call holds
    at the end of the walk. *)
Lemma walk_step_acc (Q : A -> Prop) L acc :
  (forall a i, (0 <= i)%Z -> Q a -> Q (fst (onLeaf a i))) -> Q acc ->
  match walk_step o d nodes onLeaf (Running L acc) with
  | Running _ a | Finished a => Q a
  | Crashed => True
  end.
Proof.
  intros HQ Ha. destruct L as [|[i|] rest]; simpl; auto.
  destruct (node_at nodes i) as [p|]; auto.
  destruct (rayAABBIntersect o d (bmin p) (bmax p)); simpl; auto.
  destruct (Z.leb_spec 0 (triIdx p)); auto.
  specialize (HQ acc (triIdx p) H Ha).
  destruct (onLeaf acc (triIdx p)) as [a' []]; auto.
Qed.

Lemma walk_iter_acc (Q : A -> Prop) k :
  (forall a i, (0 <= i)%Z -> Q a -> Q (fst (onLeaf a i))) ->
  forall L acc acc', Q acc ->
  walk_iter o d nodes onLeaf k (Running L acc) = Finished acc' -> Q acc'.
Proof.
  intros HQ. induction k as [|k IH]; intros L acc acc' Ha Hit; cbn [walk_iter] in Hit;
    [discriminate|].
  pose proof (walk_step_acc Q L acc HQ Ha) as Hs.
  destruct (walk_step o d nodes onLeaf (Running L acc)) as [L1 a1|a1|].
  - exact (IH L1 a1 acc' Hs Hit).
  - rewrite walk_iter_finished in Hit. injection Hit as <-. exact Hs.
  - rewrite walk_iter_crashed in Hit. discriminate.
Qed.

End TraverseProofs.

(** The walk of a built BVH starts with the root, all nodes to visit. *)
Lemma bvh_start_inv wv ts nodes :
  buildBVH wv ts = Some nodes -> ts <> [] ->
  stk_inv nodes (Nat.log2_up (length ts)) (push 0 []) (length nodes).
Proof.
  intros Hb Hne. destruct (buildBVH_wf wv ts nodes Hb Hne) as (h & W & Hh).
  rewrite <- (Nat.add_0_r (length nodes)).
  change (push 0 []) with [Some 0%Z].
  apply (si_some nodes _ 0 (length nodes) h [] 0); [simpl; lia|exact W|constructor].
Qed.

Lemma stk_inv_no_undefined nodes D L m :
  (D < BVH_STACK_SIZE)%nat -> stk_inv nodes D L m -> ~ In None L.
Proof.
  intros HD Hinv. induction Hinv as [|i s h rest m Hh Hw Hr IH|rest m Hb Hr IH].
  - simpl; tauto.
  - intros [E|E]; [discriminate|exact (IH E)].
  - lia.
Qed.



(* ----------------------------------------------------------------- *)
(** *** Any-hit against closest-hit *)

Section AnyClosest.

Variables (o d : vec3) (nodes : list bvh_node) (wv : list vec3) (ts : list tri) (m : Q).

Let any_cb := any_leaf o d wv ts (Fin m).
Let closest_cb := closest_leaf o d wv ts.

Lemma closest_leaf_continue bc i : snd (closest_cb bc i) = false.
Proof.
  unfold closest_cb, closest_leaf. destruct bc as [[bt bi] bh].
  destruct (tri_verts wv ts i) as [[v0 v1] v2].
  destruct (rayTriangleIntersect o d v0 v1 v2) as [h|]; [|reflexivity].
  destruct (js_lt (Fin (hit_t h)) bt); reflexivity.
Qed.

(** A hit nearer than [m] makes both callbacks agree on it; a farther or
    no hit leaves the any-hit search going and the closest one far. *)
Lemma leaf_any_closest bc i :
  (0 <= i)%Z -> closest_far m bc ->
  (any_cb false i = (true, true) /\ closest_near m (fst (closest_cb bc i))) \/
  (any_cb false i = (false, false) /\ closest_far m (fst (closest_cb bc i))).
Proof.
  intros Hi Hf. unfold any_cb, closest_cb, any_leaf, closest_leaf.
  destruct bc as [[bt bi] bh].
  destruct (tri_verts wv ts i) as [[v0 v1] v2].
  destruct (rayTriangleIntersect o d v0 v1 v2) as [h|]; [|right; auto].
  destruct (js_lt (Fin (hit_t h)) (Fin m)) eqn:Em.
  - left. split; [reflexivity|]. simpl in Em. apply Qltb_spec in Em.
    destruct bt as [| |x|]; simpl in Hf; try contradiction.
    + assert (Ex : Qltb (hit_t h) x = true).
      { apply Qltb_spec. eapply Qlt_le_trans; eassumption. }
      simpl. rewrite Ex. simpl. auto.
    + simpl. auto.
  - right. split; [reflexivity|]. simpl in Em. apply Qltb_false in Em.
    destruct (js_lt (Fin (hit_t h)) bt); simpl; auto.
Qed.

Lemma leaf_closest_near bc i :
  (0 <= i)%Z -> closest_near m bc -> closest_near m (fst (closest_cb bc i)).
Proof.
  intros Hi Hn. unfold closest_cb, closest_leaf.
  destruct bc as [[bt bi] bh].
  destruct (tri_verts wv ts i) as [[v0 v1] v2].
  destruct (rayTriangleIntersect o d v0 v1 v2) as [h|]; [|exact Hn].
  destruct bt as [| |x|]; simpl in Hn; try contradiction.
  cbn [js_lt]. destruct (Qltb (hit_t h) x) eqn:E; simpl; [|exact Hn].
  apply Qltb_spec in E. split; [|exact Hi].
  eapply Qlt_trans; [exact E|apply Hn].
Qed.

(** One iteration of the two walks from the same stack. *)
Lemma walk_step_any_closest L bc :
  closest_far m bc ->
  (walk_step o d nodes any_cb (Running L false) = Crashed /\
   walk_step o d nodes closest_cb (Running L bc) = Crashed) \/
  (walk_step o d nodes any_cb (Running L false) = Finished false /\
   exists bc', walk_step o d nodes closest_cb (Running L bc) = Finished bc' /\
               closest_far m bc') \/
  (exists L' bc', walk_step o d nodes any_cb (Running L false) = Running L' false /\
     walk_step o d nodes closest_cb (Running L bc) = Running L' bc' /\
     closest_far m bc') \/
  (walk_step o d nodes any_cb (Running L false) = Finished true /\
   exists L' bc', walk_step o d nodes closest_cb (Running L bc) = Running L' bc' /\
                  closest_near m bc').
Proof.
  intros Hf. destruct L as [|[i|] rest]; cbn [walk_step].
  - right; left. eauto.
  - destruct (node_at nodes i) as [p|]; [|left; auto].
    destruct (rayAABBIntersect o d (bmin p) (bmax p)); cbn [negb].
    + destruct (Z.leb_spec 0 (triIdx p)) as [Hi|Hi].
      * pose proof (closest_leaf_continue bc (triIdx p)) as Hc.
        destruct (closest_cb bc (triIdx p)) as [bc' c] eqn:Ec.
        simpl in Hc. subst c.
        destruct (leaf_any_closest bc (triIdx p) Hi Hf) as [[Ea Hn]|[Ea Hn]];
          rewrite Ea; rewrite Ec in Hn; simpl in Hn.
        -- do 3 right. split; [reflexivity|]. eauto.
        -- right; right; left. eauto.
      * right; right; left. eauto.
    + right; right; left. eauto.
  - left. auto.
Qed.

Lemma walk_iter_any_closest D k : forall L n bc,
  (D < BVH_STACK_SIZE)%nat -> stk_inv nodes D L n -> (n < k)%nat ->
  closest_far m bc ->
  (walk_iter o d nodes any_cb k (Running L false) = Finished false /\
   exists bc', walk_iter o d nodes closest_cb k (Running L bc) = Finished bc' /\
               closest_far m bc') \/
  (walk_iter o d nodes any_cb k (Running L false) = Finished true /\
   exists bc', walk_iter o d nodes closest_cb k (Running L bc) = Finished bc' /\
               closest_near m bc').
Proof.
  induction k as [|k IH]; intros L n bc HD Hinv Hk Hf; [lia|].
  cbn [walk_iter].
  destruct (walk_step_any_closest L bc Hf)
    as [[Ea Ec]|[[Ea (bc' & Ec & Hf')]|[(L' & bc' & Ea & Ec & Hf')|[Ea (L' & bc' & Ec & Hn)]]]];
    rewrite Ea, Ec.
  - exfalso. exact (walk_step_no_crash o d nodes any_cb D L n false HD Hinv Ea).
  - left. rewrite !walk_iter_finished. eauto.
  - destruct (walk_step_inv o d nodes closest_cb D L n bc L' bc' Hinv Ec) as (n' & H' & Hn').
    apply (IH L' n'); [exact HD|exact H'|lia|exact Hf'].
  - right. rewrite walk_iter_finished. split; [reflexivity|].
    destruct (walk_step_inv o d nodes closest_cb D L n bc L' bc' Hinv Ec) as (n' & H' & Hn').
    destruct (walk_iter_finishes o d nodes closest_cb D k L' n' bc' HD H' ltac:(lia))
      as [bc'' Hfin].
    exists bc''. split; [exact Hfin|].
    refine (walk_iter_acc o d nodes closest_cb (closest_near m) k _ L' bc' bc'' Hn Hfin).
    intros a i Hi Ha. exact (leaf_closest_near a i Hi Ha).
Qed.

End AnyClosest.

Lemma buildBVH_nonempty wv ts nodes :
  buildBVH wv ts = Some nodes -> ts <> [] -> nodes <> [].
Proof.
  intros Hb Hne ->. destruct (buildBVH_wf wv ts [] Hb Hne) as (h & W & _).
  destruct (wf_tree_node _ _ _ _ W) as [p Hp]. discriminate.
Qed.




(* ----------------------------------------------------------------- *)
(** *** [rayTriangleIntersect] at binary64 *)

Lemma SFcompare_swap a b : SFcompare b a = option_map CompOpp (SFcompare a b).
Proof.
  destruct a as [s|s| |s m e], b as [s'|s'| |s' m' e']; simpl; auto;
    try (destruct s; destruct s'; reflexivity); try (destruct s; reflexivity);
    try (destruct s'; reflexivity).
  change (PosDef.Pos.compare_cont Eq m' m) with (Pos.compare m' m).
  change (PosDef.Pos.compare_cont Eq m m') with (Pos.compare m m').
  rewrite (Pos.compare_antisym m m').
  destruct s, s'; simpl; auto;
    rewrite (Z.compare_antisym e e'); destruct (Z.compare e e'); simpl; auto;
    destruct (Pos.compare m m'); reflexivity.
Qed.

Lemma Prim2SF_not_nan x : is_nan x = false -> Prim2SF x <> S754_nan.
Proof.
  intros Hx. unfold Prim2SF. rewrite Hx.
  destruct (is_zero x); [discriminate|].
  destruct (is_infinity x); [discriminate|].
  destruct (FloatOps.Z.frexp x) as [r ex].
  destruct (shr_fexp _ _ _ _ _) as [sh e'].
  destruct (shr_m sh); discriminate.
Qed.

(** For two numbers that are not NaN, [!(x < y)] is [y <= x]. *)
Lemma float_not_lt_le x y :
  (x <? y)%float = false -> is_nan x = false -> is_nan y = false ->
  (y <=? x)%float = true.
Proof.
  intros H Hx Hy. rewrite ltb_spec in H. rewrite leb_spec.
  unfold SFltb in H. unfold SFleb. rewrite SFcompare_swap.
  pose proof (Prim2SF_not_nan x Hx) as Nx. pose proof (Prim2SF_not_nan y Hy) as Ny.
  revert H Nx Ny. generalize (Prim2SF x) (Prim2SF y). intros a b H Na Nb.
  assert (Hc : SFcompare a b <> None).
  { destruct a, b; simpl; congruence. }
  destruct (SFcompare a b) as [[| |]|]; simpl; congruence.
Qed.

(** [rayTriangleIntersect] over JS numbers returns [null] or
    [{ t, u, v }].  It returns [null] whenever [Math.abs(det) < RT_EPSILON],
    [u < 0], [u > 1], [v < 0], [u + v > 1] or [t < RT_EPSILON] (as
    computed).  A returned hit is [{ t, u, v }] for these computed values,
    none of these comparisons holds for it, and [0 <= u <= 1], [0 <= v],
    [u + v <= 1] and [t >= RT_EPSILON] hold for each of them that is not
    NaN. *)
Theorem rayTriangleIntersect_guards (o d v0 v1 v2 : F64.fvec) :
  let r := F64.rayTriangleIntersect o d v0 v1 v2 in
  let u := F64.bary_u o d v0 v1 v2 in
  let v := F64.bary_v o d v0 v1 v2 in
  let t := F64.hit_dist o d v0 v1 v2 in
  ((abs (F64.det d v0 v1 v2) <? F64.RT_EPSILON)%float = true -> r = None) /\
  ((u <? 0)%float = true \/ (1 <? u)%float = true -> r = None) /\
  ((v <? 0)%float = true \/ (1 <? u + v)%float = true -> r = None) /\
  ((t <? F64.RT_EPSILON)%float = true -> r = None) /\
  (forall h, r = Some h ->
     h = F64.mk_fhit t u v /\
     (u <? 0)%float = false /\ (1 <? u)%float = false /\
     (v <? 0)%float = false /\ (1 <? u + v)%float = false /\
     (t <? F64.RT_EPSILON)%float = false /\
     (is_nan u = false -> (0 <=? u)%float = true /\ (u <=? 1)%float = true) /\
     (is_nan v = false -> (0 <=? v)%float = true) /\
     (is_nan (u + v) = false -> (u + v <=? 1)%float = true) /\
     (is_nan t = false -> (F64.RT_EPSILON <=? t)%float = true)).
Proof.
  cbv zeta. unfold F64.rayTriangleIntersect.
  set (u := F64.bary_u o d v0 v1 v2). set (v := F64.bary_v o d v0 v1 v2).
  set (t := F64.hit_dist o d v0 v1 v2).
  destruct (abs (F64.det d v0 v1 v2) <? F64.RT_EPSILON)%float eqn:E1.
  { repeat split; intros; try reflexivity; discriminate. }
  destruct (u <? 0)%float eqn:E2; destruct (1 <? u)%float eqn:E3; cbn [orb].
  1-3: repeat split; intros; try reflexivity; try discriminate;
       destruct H; discriminate.
  destruct (v <? 0)%float eqn:E4; destruct (1 <? u + v)%float eqn:E5; cbn [orb].
  1-3: repeat split; intros; try reflexivity; try discriminate;
       destruct H; discriminate.
  destruct (t <? F64.RT_EPSILON)%float eqn:E6.
  { repeat split; intros; try reflexivity; try discriminate; destruct H; discriminate. }
  split; [discriminate|]. split; [intros [H|H]; discriminate|].
  split; [intros [H|H]; discriminate|]. split; [discriminate|].
  intros h Hh. injection Hh as <-.
  split; [reflexivity|]. do 5 (split; [reflexivity|]).
  split; [|split; [|split]].
  - intros Hu. split.
    + apply float_not_lt_le; [exact E2|exact Hu|reflexivity].
    + apply float_not_lt_le; [exact E3|reflexivity|exact Hu].
  - intros Hv. apply float_not_lt_le; [exact E4|exact Hv|reflexivity].
  - intros Huv. apply float_not_lt_le; [exact E5|reflexivity|exact Huv].
  - intros Ht. apply float_not_lt_le; [exact E6|exact Ht|reflexivity].
Qed.

(** NaN as a [spec_float]. *)
Lemma is_nan_Prim2SF x : is_nan x = true <-> Prim2SF x = S754_nan.
Proof.
  split.
  - intros Hx. unfold Prim2SF. rewrite Hx. reflexivity.
  - intros Hx. destruct (is_nan x) eqn:E; [reflexivity|].
    exfalso. exact (Prim2SF_not_nan x E Hx).
Qed.

Lemma nan_mul_r a b : is_nan b = true -> is_nan (a * b)%float = true.
Proof.
  rewrite !is_nan_Prim2SF, mul_spec. intros ->. destruct (Prim2SF a); reflexivity.
Qed.

Lemma nan_div_r a b : is_nan b = true -> is_nan (a / b)%float = true.
Proof.
  rewrite !is_nan_Prim2SF, div_spec. intros ->. destruct (Prim2SF a); reflexivity.
Qed.

Lemma nan_add_l a b : is_nan a = true -> is_nan (a + b)%float = true.
Proof.
  rewrite !is_nan_Prim2SF, add_spec. intros ->. reflexivity.
Qed.

Lemma nan_abs a : is_nan a = true -> is_nan (abs a) = true.
Proof.
  rewrite !is_nan_Prim2SF, abs_spec. intros ->. reflexivity.
Qed.

(** Every comparison with NaN is false. *)
Lemma nan_ltb_l a b : is_nan a = true -> (a <? b)%float = false.
Proof.
  rewrite is_nan_Prim2SF, ltb_spec. intros Ha. rewrite Ha. reflexivity.
Qed.

Lemma nan_ltb_r a b : is_nan b = true -> (a <? b)%float = false.
Proof.
  rewrite is_nan_Prim2SF, ltb_spec. intros Hb. rewrite Hb.
  destruct (Prim2SF a); reflexivity.
Qed.

Lemma nan_leb_l a b : is_nan a = true -> (a <=? b)%float = false.
Proof.
  rewrite is_nan_Prim2SF, leb_spec. intros Ha. rewrite Ha. reflexivity.
Qed.

Lemma nan_leb_r a b : is_nan b = true -> (a <=? b)%float = false.
Proof.
  rewrite is_nan_Prim2SF, leb_spec. intros Hb. rewrite Hb.
  destruct (Prim2SF a); reflexivity.
Qed.

(** C6: a NaN [det] is not a miss.  [Math.abs(NaN) < RT_EPSILON] is
    false, so the guard lets it through; [invDet = 1 / NaN] makes [u],
    [v] and [t] NaN, every later [<] test is false, and
    [rayTriangleIntersect] returns the hit [{ t: NaN, u: NaN, v: NaN }]
    instead of [null]. *)
Theorem rayTriangleIntersect_nan_det_hit (o d v0 v1 v2 : F64.fvec) :
  is_nan (F64.det d v0 v1 v2) = true ->
  exists h, F64.rayTriangleIntersect o d v0 v1 v2 = Some h /\
    is_nan (F64.fh_t h) = true /\ is_nan (F64.fh_u h) = true /\
    is_nan (F64.fh_v h) = true.
Proof.
  intros Hd. unfold F64.rayTriangleIntersect.
  assert (Hi : is_nan (1 / F64.det d v0 v1 v2)%float = true) by (apply nan_div_r; exact Hd).
  assert (Hu : is_nan (F64.bary_u o d v0 v1 v2) = true) by (apply nan_mul_r; exact Hi).
  assert (Hv : is_nan (F64.bary_v o d v0 v1 v2) = true) by (apply nan_mul_r; exact Hi).
  assert (Ht : is_nan (F64.hit_dist o d v0 v1 v2) = true) by (apply nan_mul_r; exact Hi).
  rewrite (nan_ltb_l _ _ (nan_abs _ Hd)).
  rewrite (nan_ltb_l _ _ Hu), (nan_ltb_r _ _ Hu).
  rewrite (nan_ltb_l _ _ Hv), (nan_ltb_r _ _ (nan_add_l _ _ Hu)).
  rewrite (nan_ltb_l _ _ Ht). cbn [orb].
  eexists; split; [reflexivity|]. cbn. auto.
Qed.

(** The zero-area triangle [(0,0,0), (2^1000, 2^1000, 0), (2^1000,
    2^1000, 0)] seen along [z]: the products overflow and [det] is
    [-Infinity + Infinity]. *)
Lemma rayTriangleIntersect_nan_det_hit_witness :
  is_nan (F64.det F64.ex_d F64.ex_origin F64.ex_big F64.ex_big) = true /\
  exists h, F64.rayTriangleIntersect F64.ex_o F64.ex_d F64.ex_origin F64.ex_big F64.ex_big = Some h /\
    is_nan (F64.fh_t h) = true /\ is_nan (F64.fh_u h) = true /\
    is_nan (F64.fh_v h) = true.
Proof.
  assert (H : is_nan (F64.det F64.ex_d F64.ex_origin F64.ex_big F64.ex_big) = true)
    by (vm_compute; reflexivity).
  split; [exact H|].
  exact (rayTriangleIntersect_nan_det_hit F64.ex_o F64.ex_d F64.ex_origin F64.ex_big F64.ex_big H).
Defined.

(* ----------------------------------------------------------------- *)
(** *** environment.js: [envIntersect], the traced ground *)

Lemma land1_odd z : Z.land z 1 = if Z.odd z then 1%Z else 0%Z.
Proof.
  change 1%Z with (Z.ones 1) at 1. rewrite Z.land_ones by lia.
  rewrite Zmod_odd. reflexivity.
Qed.

Lemma nan_sub_l a b : is_nan a = true -> is_nan (a - b)%float = true.
Proof.
  rewrite !is_nan_Prim2SF, sub_spec. intros ->. reflexivity.
Qed.

Lemma nan_div_l a b : is_nan a = true -> is_nan (a / b)%float = true.
Proof.
  rewrite !is_nan_Prim2SF, div_spec. intros ->. reflexivity.
Qed.

Lemma nan_add_r a b : is_nan b = true -> is_nan (a + b)%float = true.
Proof.
  rewrite !is_nan_Prim2SF, add_spec. intros ->. destruct (Prim2SF a); reflexivity.
Qed.

Lemma Math_floor_nan a : is_nan a = true -> is_nan (Ground.Math_floor a) = true.
Proof.
  intros Ha. unfold Ground.Math_floor.
  rewrite (proj1 (is_nan_Prim2SF a) Ha). exact Ha.
Qed.

Lemma ToInt32_nan a : is_nan a = true -> Raytrace.ToInt32 a = 0%Z.
Proof.
  intros Ha. unfold Raytrace.ToInt32, Raytrace.trunc_Z.
  rewrite (proj1 (is_nan_Prim2SF a) Ha). reflexivity.
Qed.

(** A tile index that is NaN selects [color0]: [(NaN + iz) & 1] is [0]. *)
Lemma tile_color_nan hx hz :
  (is_nan hx || is_nan hz)%bool = true -> Ground.tile_color hx hz = mk3 180%Z 30%Z 30%Z.
Proof.
  intros H. unfold Ground.tile_color. cbv zeta.
  rewrite ToInt32_nan; [reflexivity|].
  apply orb_true_iff in H as [H|H].
  - apply nan_add_l, Math_floor_nan, nan_div_l, nan_sub_l, H.
  - apply nan_add_r, Math_floor_nan, nan_div_l, nan_sub_l, H.
Qed.

(** Read the fields of a literal [environment._floor]. *)
Ltac cbn_floor :=
  cbn [Ground.fl_y Ground.fl_tile Ground.fl_color0 Ground.fl_color1 Ground.fl_minX
       Ground.fl_maxX Ground.fl_minZ Ground.fl_maxZ Ground.fl_offX Ground.fl_offZ].

(** The constants of [environment._floor] as numbers. *)
Lemma environment_floor_values :
  Ground.environment_floor =
  {| Ground.fl_y := 120; Ground.fl_tile := 80;
     Ground.fl_color0 := mk3 180%Z 30%Z 30%Z; Ground.fl_color1 := mk3 200%Z 200%Z 200%Z;
     Ground.fl_minX := -480; Ground.fl_maxX := 480;
     Ground.fl_minZ := -380; Ground.fl_maxZ := 580;
     Ground.fl_offX := 0; Ground.fl_offZ := 100 |}%float.
Proof. vm_compute. reflexivity. Qed.

(** [envIntersect] in the form where its guards are one test. *)
Lemma envIntersect_unfold (o d : Ground.fvec) :
  let t := ((120 - c1 o) / c1 d)%float in
  let hx := (c0 o + c0 d * t)%float in
  let hz := (c2 o + c2 d * t)%float in
  Ground.envIntersect o d =
    if (abs (c1 d) <? F64.RT_EPSILON)%float || (t <? F64.RT_EPSILON)%float ||
       (hx <? -480)%float || (480 <? hx)%float || (hz <? -380)%float || (580 <? hz)%float
    then None
    else Some (Ground.mk_env_hit t (Ground.tile_color hx hz) (mk3 0 (-1) 0)%float 0%float).
Proof.
  cbv zeta. unfold Ground.envIntersect. rewrite environment_floor_values. cbn_floor.
  destruct (abs (c1 d) <? F64.RT_EPSILON)%float; [reflexivity|].
  destruct ((120 - c1 o) / c1 d <? F64.RT_EPSILON)%float; reflexivity.
Qed.




(* ----------------------------------------------------------------- *)
(** *** bvh.js and floor.js: the slab test on an axis, the tree size, the floor mesh *)

Section QGeometry.

Local Open Scope Q_scope.

Lemma order2_nan_l y : order2 NaN y = (NaN, y).
Proof. destruct y; reflexivity. Qed.
Lemma order2_nan_r x : order2 x NaN = (x, NaN).
Proof. destruct x; reflexivity. Qed.

Lemma js_recip_zero d : d == 0 -> js_recip d = PosInf.
Proof. intro H. unfold js_recip. apply Qeq_bool_iff in H. now rewrite H. Qed.

Lemma js_mul_zero_inf x y : x == y -> js_mul (js_sub (Fin x) (Fin y)) PosInf = NaN.
Proof. intro H. cbn. unfold js_scale_inf. replace (Qcompare (x - y) 0) with Eq; [reflexivity|].
  symmetry. apply Qeq_alt. rewrite H. ring. Qed.

(** A zero [dx] (or [dz]) with the origin on the box's min or max face
    of that axis makes [(bmin - o) * (1 / d)] the product [0 * Infinity],
    [NaN], and every comparison with it false: [rayAABBIntersect] returns
    [false] whatever the other axes, even for a ray that runs through the
    box along that face. *)
Theorem rayAABBIntersect_face_plane o d a b :
  (c0 d == 0 /\ (c0 o == c0 a \/ c0 o == c0 b)) \/
  (c2 d == 0 /\ (c2 o == c2 a \/ c2 o == c2 b)) ->
  rayAABBIntersect o d (fin3 a) (fin3 b) = false.
Proof.
  intros H. unfold rayAABBIntersect, fin3; cbn [c0 c1 c2].
  destruct H as [[Hd [Ho|Ho]]|[Hd [Ho|Ho]]]; rewrite (js_recip_zero _ Hd);
  symmetry in Ho; rewrite (js_mul_zero_inf _ _ Ho), ?order2_nan_l, ?order2_nan_r;
  repeat match goal with |- context [order2 ?x ?y] => destruct (order2 x y) end;
  repeat match goal with |- context [js_mul ?x PosInf] => generalize (js_mul x PosInf) end;
  intros; cbn;
  repeat match goal with j : jsnum |- _ => destruct j end; cbn;
  try reflexivity;
  repeat match goal with |- context [Qltb ?x ?y] => destruct (Qltb x y) end;
  rewrite ?andb_false_r; reflexivity.
Qed.

Lemma buildNode_length wv ts fuel : forall infos base seg,
  buildNode wv ts fuel infos base = Some seg -> (S (length seg) = 2 * length infos)%nat.
Proof.
  induction fuel as [|fuel IH]; intros infos base seg H; [discriminate|].
  destruct infos as [|i [|i' rest]].
  - rewrite buildNode_nil in H. discriminate.
  - apply buildNode_leaf_inv in H as (lo & hi & ->). reflexivity.
  - pose proof (buildNode_inner_inv _ _ _ _ _ _ H ltac:(simpl; lia)) as Hinv.
    destruct (computeTriangleAABB wv ts (i :: i' :: rest)) as [lo hi].
    destruct Hinv as (ln & rn & E1 & E2 & ->).
    apply IH in E1. apply IH in E2.
    rewrite length_firstn in E1. rewrite length_skipn in E2.
    rewrite (Permutation_length (sort_by_perm _ _)) in E1, E2.
    set (l := i :: i' :: rest) in *.
    assert (length l / 2 < length l)%nat by (apply Nat.div_lt; simpl; lia).
    rewrite Nat.min_l in E1 by lia.
    cbn [length]. rewrite length_app. lia.
Qed.

(** [buildBVH] lays out [2 n - 1] nodes for [n] triangles: [n] leaves
    and [n - 1] inner nodes, none for an empty mesh. *)
Theorem buildBVH_node_count (worldVerts : list vec3) (triangles : list tri)
  (nodes : list bvh_node) :
  buildBVH worldVerts triangles = Some nodes ->
  length nodes = (2 * length triangles - 1)%nat.
Proof.
  unfold buildBVH. destruct (Nat.ltb_spec 0 (length triangles)) as [Hn|Hn]; intros Hb.
  - apply buildNode_length in Hb. rewrite length_map, length_seq in Hb. lia.
  - injection Hb as <-. simpl. lia.
Qed.

(** The ray [x = 0, y = 1/2] along [+z] runs through the unit box along
    its face [x = 0], and the slab test says it misses. *)
Lemma rayAABBIntersect_face_plane_witness :
  (exists s, (0 <= 0 + s * 0 <= 1) /\ (0 <= (1 # 2) + s * 0 <= 1) /\ (0 <= -1 + s * 1 <= 1)) /\
  rayAABBIntersect (mk3 0 (1 # 2) (-1)) ex_d (fin3 (mk3 0 0 0)) (fin3 (mk3 1 1 1)) = false.
Proof.
  split.
  - exists 1. vm_compute. repeat split; intro H; discriminate H.
  - apply (rayAABBIntersect_face_plane (mk3 0 (1 # 2) (-1)) ex_d (mk3 0 0 0) (mk3 1 1 1)).
    left. split; [reflexivity|left; reflexivity].
Defined.

Lemma buildBVH_node_count_witness :
  buildBVH ex_verts ex_tris = Some ex_nodes /\
  length ex_nodes = (2 * length ex_tris - 1)%nat.
Proof.
  split; [reflexivity|]. apply (buildBVH_node_count ex_verts ex_tris ex_nodes). reflexivity.
Defined.

(* ----------------------------------------------------------------- *)
(** *** floor.js: the rasterized floor mesh *)

(** Indexing into a list made of equal-sized chunks. *)
Lemma nth_flat_map_chunk {A : Type} (f : nat -> list A) (n N k i : nat) (d : A) :
  (forall j, length (f j) = n) -> (i < n)%nat -> (k < N)%nat ->
  nth (n * k + i) (flat_map f (seq 0 N)) d = nth i (f k) d.
Proof.
  intros Hl Hi. replace (f k) with (f (0 + k)%nat) by reflexivity.
  generalize 0%nat as s. revert k. induction N as [|N IH]; intros k s Hk; [lia|].
  cbn [seq flat_map]. destruct k as [|k].
  - rewrite app_nth1 by (rewrite Hl; lia). f_equal; f_equal; lia.
  - rewrite app_nth2 by (rewrite Hl; nia). rewrite Hl.
    replace (n * S k + i - n)%nat with (n * k + i)%nat by nia.
    rewrite (IH k (S s) ltac:(lia)). f_equal; f_equal; lia.
Qed.

Lemma nth_flat_map_chunk0 {A : Type} (f : nat -> list A) (n N k : nat) (d : A) :
  (forall j, length (f j) = n) -> (0 < n)%nat -> (k < N)%nat ->
  nth (n * k) (flat_map f (seq 0 N)) d = nth 0 (f k) d.
Proof.
  intros Hl Hn Hk. rewrite <- (Nat.add_0_r (n * k)). apply nth_flat_map_chunk; assumption.
Qed.

(** The layout of [floorMesh], tile by tile. *)
Lemma floorMesh_layout (k : nat) : (k < 144)%nat ->
  let ix := (Z.of_nat (k mod 12) - 6)%Z in
  let iz := (Z.of_nat (k / 12) - 6)%Z in
  nth (4 * k)%nat (fm_vertices floorMesh) (mk3 0 0 0) = mk3 (inject_Z ix * 80) 120 (inject_Z iz * 80) /\
  nth (4 * k + 1)%nat (fm_vertices floorMesh) (mk3 0 0 0) = mk3 (inject_Z (ix + 1) * 80) 120 (inject_Z iz * 80) /\
  nth (4 * k + 2)%nat (fm_vertices floorMesh) (mk3 0 0 0) = mk3 (inject_Z (ix + 1) * 80) 120 (inject_Z (iz + 1) * 80) /\
  nth (4 * k + 3)%nat (fm_vertices floorMesh) (mk3 0 0 0) = mk3 (inject_Z ix * 80) 120 (inject_Z (iz + 1) * 80) /\
  nth (2 * k)%nat (fm_triangles floorMesh) (mk3 0 0 0)%nat = (mk3 (4 * k) (4 * k + 1) (4 * k + 2))%nat /\
  nth (2 * k + 1)%nat (fm_triangles floorMesh) (mk3 0 0 0)%nat = (mk3 (4 * k) (4 * k + 2) (4 * k + 3))%nat /\
  nth (2 * k)%nat (fm_colors floorMesh) (mk3 0 0 0)%Z = floor_color ix iz /\
  nth (2 * k + 1)%nat (fm_colors floorMesh) (mk3 0 0 0)%Z = floor_color ix iz.
Proof.
  intros Hk.
  assert (EV : fm_vertices floorMesh = flat_map (fun k =>
    let ix := (Z.of_nat (k mod 12) - 6)%Z in let iz := (Z.of_nat (k / 12) - 6)%Z in
    [mk3 (inject_Z ix * 80) 120 (inject_Z iz * 80);
     mk3 (inject_Z (ix + 1) * 80) 120 (inject_Z iz * 80);
     mk3 (inject_Z (ix + 1) * 80) 120 (inject_Z (iz + 1) * 80);
     mk3 (inject_Z ix * 80) 120 (inject_Z (iz + 1) * 80)]) (seq 0 144))
    by (vm_compute; reflexivity).
  assert (ET : fm_triangles floorMesh = flat_map (fun k =>
    [mk3 (4 * k) (4 * k + 1) (4 * k + 2); mk3 (4 * k) (4 * k + 2) (4 * k + 3)]%nat)
    (seq 0 144)) by (vm_compute; reflexivity).
  assert (EC : fm_colors floorMesh = flat_map (fun k =>
    let c := floor_color (Z.of_nat (k mod 12) - 6) (Z.of_nat (k / 12) - 6) in [c; c])
    (seq 0 144)) by (vm_compute; reflexivity).
  rewrite EV, ET, EC. clear EV ET EC.
  repeat rewrite nth_flat_map_chunk by ((intros; reflexivity) || lia).
  repeat rewrite nth_flat_map_chunk0 by ((intros; reflexivity) || lia).
  cbn -[Z.of_nat Nat.modulo Nat.div Qmult inject_Z].
  repeat split; reflexivity.
Qed.

(** The colors of [floorMesh] alternate: [(ix + iz) & 1] is the parity. *)
Lemma floor_color_odd ix iz :
  floor_color ix iz = if Z.odd (ix + iz) then mk3 200%Z 200%Z 200%Z else mk3 180%Z 30%Z 30%Z.
Proof. unfold floor_color. rewrite land1_odd. destruct (Z.odd (ix + iz)); reflexivity. Qed.

(** [floorMesh] is the [12 x 12] checkerboard of tiles [80] wide on the
    plane [y = 120], rows along [z] outside and columns along [x] inside:
    [576] vertices, [288] triangles and [288] colors.  Tile [k] (column
    [ix = k mod 12 - 6], row [iz = k / 12 - 6]) has the vertices [4k ..
    4k+3] at [(ix*80, iz*80)], [((ix+1)*80, iz*80)], [((ix+1)*80,
    (iz+1)*80)], [(ix*80, (iz+1)*80)], the triangles [2k] =
    [[4k, 4k+1, 4k+2]] and [2k+1] = [[4k, 4k+2, 4k+3]], and both of them
    the color [[200,200,200]] when [ix + iz] is odd, [[180,30,30]] when it
    is even.  Every coordinate is an integer of magnitude at most [480],
    which a JS number holds exactly, so the products are exact. *)
Theorem floorMesh_tiles (k : nat) (Hk : (k < 144)%nat) :
  let ix := (Z.of_nat (k mod 12) - 6)%Z in
  let iz := (Z.of_nat (k / 12) - 6)%Z in
  let col := if Z.odd (ix + iz) then mk3 200%Z 200%Z 200%Z else mk3 180%Z 30%Z 30%Z in
  length (fm_vertices floorMesh) = 576%nat /\
  length (fm_triangles floorMesh) = 288%nat /\
  length (fm_colors floorMesh) = 288%nat /\
  nth (4 * k)%nat (fm_vertices floorMesh) (mk3 0 0 0) = mk3 (inject_Z ix * 80) 120 (inject_Z iz * 80) /\
  nth (4 * k + 1)%nat (fm_vertices floorMesh) (mk3 0 0 0) = mk3 (inject_Z (ix + 1) * 80) 120 (inject_Z iz * 80) /\
  nth (4 * k + 2)%nat (fm_vertices floorMesh) (mk3 0 0 0) = mk3 (inject_Z (ix + 1) * 80) 120 (inject_Z (iz + 1) * 80) /\
  nth (4 * k + 3)%nat (fm_vertices floorMesh) (mk3 0 0 0) = mk3 (inject_Z ix * 80) 120 (inject_Z (iz + 1) * 80) /\
  nth (2 * k)%nat (fm_triangles floorMesh) (mk3 0 0 0)%nat = (mk3 (4 * k) (4 * k + 1) (4 * k + 2))%nat /\
  nth (2 * k + 1)%nat (fm_triangles floorMesh) (mk3 0 0 0)%nat = (mk3 (4 * k) (4 * k + 2) (4 * k + 3))%nat /\
  nth (2 * k)%nat (fm_colors floorMesh) (mk3 0 0 0)%Z = col /\
  nth (2 * k + 1)%nat (fm_colors floorMesh) (mk3 0 0 0)%Z = col.
Proof.
  cbv zeta. rewrite <- floor_color_odd.
  destruct (floorMesh_layout k Hk) as (V0 & V1 & V2 & V3 & T0 & T1 & C0 & C1).
  split; [vm_compute; reflexivity|]. split; [vm_compute; reflexivity|].
  split; [vm_compute; reflexivity|].
  repeat (split; [assumption|]). assumption.
Qed.

(** Tile [13] is column [ix = -5], row [iz = -5]: an even sum, red. *)
Lemma floorMesh_tiles_witness :
  (13 < 144)%nat /\
  nth (4 * 13)%nat (fm_vertices floorMesh) (mk3 0 0 0) = mk3 (-400) 120 (-400) /\
  nth (2 * 13)%nat (fm_colors floorMesh) (mk3 0 0 0)%Z = mk3 180%Z 30%Z 30%Z.
Proof.
  assert (Hk : (13 < 144)%nat) by lia.
  destruct (floorMesh_tiles 13 Hk) as (_ & _ & _ & V0 & _ & _ & _ & _ & _ & C0 & _).
  split; [exact Hk|]. split.
  - rewrite V0. vm_compute. reflexivity.
  - exact C0.
Defined.

(* ----------------------------------------------------------------- *)
(** *** environment.js: the environment color *)

(** [Math.max(0, Math.min(n - 1, k))] for integers [n >= 1] and [k] is an
    integer of [[0, n)]. *)
Lemma clamp_index (n k : Z) : (1 <= n)%Z ->
  exists p q, (0 <= p < n)%Z /\ q == inject_Z p /\
    Math_max (Fin 0) (Math_min (js_sub (Fin (inject_Z n)) (Fin 1)) (Fin (inject_Z k))) = Fin q.
Proof.
  intros Hn. cbn [js_sub Math_min Math_max js_lt].
  destruct (Qltb (inject_Z k) (inject_Z n - 1)) eqn:E1.
  - apply Qltb_spec in E1. cbn [js_lt].
    destruct (Qltb 0 (inject_Z k)) eqn:E2.
    + apply Qltb_spec in E2. exists k, (inject_Z k). split; [|split; [reflexivity|reflexivity]].
      unfold Qlt in E1, E2; simpl in E1, E2. lia.
    + exists 0%Z, 0. split; [lia|split; reflexivity].
  - apply Qltb_false in E1. cbn [js_lt].
    destruct (Qltb 0 (inject_Z n - 1)) eqn:E2.
    + exists (n - 1)%Z, (inject_Z n - 1). split; [lia|split; [|reflexivity]].
      unfold Qeq; simpl; lia.
    + apply Qltb_false in E2. exists 0%Z, 0. split; [|split; reflexivity].
      unfold Qle in E2; simpl in E2. lia.
Qed.

Lemma js_get_int (data : list Z) (q : Q) (z : Z) :
  q == inject_Z z -> (0 <= z)%Z -> (Z.to_nat z < length data)%nat ->
  js_get data (Fin q) = Some (Fin (inject_Z (nth (Z.to_nat z) data 0%Z))).
Proof.
  intros Hq Hz Hl. unfold js_get.
  assert (Ef : Qfloor q = z) by (rewrite (Qfloor_comp _ _ Hq); apply Qfloor_Z).
  rewrite Ef. rewrite (proj2 (Qeq_bool_iff _ _) Hq).
  rewrite (proj2 (Z.leb_le _ _) Hz). cbn [andb].
  rewrite (nth_error_nth' data 0%Z Hl). reflexivity.
Qed.

(** Once the sky image has loaded, with nonzero [width] and [height] and
    its [4 * width * height] bytes of RGBA data, [envColor] reads the RGB
    bytes of one pixel [(px, py)] of the image, for every direction
    [(dx, dy, dz)] including those with zero, infinite or NaN
    components: it never reads [undefined]. *)
Theorem envColor_sky_reads_pixel (sky : sky_data) (data : list Z) (dx dy dz : jsnum)
  (Hd : sky_imageData sky = Some data)
  (Hw : (1 <= sky_width sky)%Z) (Hh : (1 <= sky_height sky)%Z)
  (Hl : length data = Z.to_nat (4 * sky_width sky * sky_height sky)) :
  exists px py, (0 <= px < sky_width sky)%Z /\ (0 <= py < sky_height sky)%Z /\
    let i := Z.to_nat (4 * (py * sky_width sky + px)) in
    envColor sky dx dy dz =
      mk3 (Some (Fin (inject_Z (nth i data 0%Z))))
          (Some (Fin (inject_Z (nth (i + 1) data 0%Z))))
          (Some (Fin (inject_Z (nth (i + 2) data 0%Z)))).
Proof.
  unfold envColor. rewrite Hd.
  set (w := sky_width sky) in *. set (h := sky_height sky) in *.
  cbv zeta.
  match goal with |- context [Math_max (Fin 0) (Math_min (js_sub (Fin (inject_Z w)) (Fin 1))
      (Fin (inject_Z (js_toint32 ?a))))] => generalize (js_toint32 a); intros kx end.
  match goal with |- context [Math_max (Fin 0) (Math_min (js_sub (Fin (inject_Z h)) (Fin 1))
      (Fin (inject_Z (js_toint32 ?a))))] => generalize (js_toint32 a); intros ky end.
  destruct (clamp_index w kx Hw) as (px & qx & Hpx & Eqx & ->).
  destruct (clamp_index h ky Hh) as (py & qy & Hpy & Eqy & ->).
  exists px, py. split; [exact Hpx|]. split; [exact Hpy|].
  cbn [js_mul js_add].
  assert (Hi : (qy * inject_Z w + qx) * 4 == inject_Z (4 * (py * w + px))).
  { rewrite Eqx, Eqy. rewrite inject_Z_mult, inject_Z_plus, inject_Z_mult. ring. }
  assert (Hb : (4 * (py * w + px) + 2 < 4 * w * h)%Z) by nia.
  rewrite (js_get_int data _ _ Hi) by (lia || (rewrite Hl; lia)).
  rewrite (js_get_int data _ (4 * (py * w + px) + 1)%Z)
    by (rewrite ?Hi, ?inject_Z_plus; try reflexivity; lia || (rewrite Hl; lia)).
  rewrite (js_get_int data _ (4 * (py * w + px) + 2)%Z)
    by (rewrite ?Hi, ?inject_Z_plus; try reflexivity; lia || (rewrite Hl; lia)).
  rewrite !Z2Nat.inj_add by lia. reflexivity.
Qed.

(** Before the sky image has loaded, [envColor] is the gray
    [[v, v, v]] with [v = 80 + 175 * clamp(-1.5 dy + 0.5, 0, 1)]: for every
    [dy] but NaN, [v] is a number of [[80, 255]], [255] for [dy <= -1/3]
    and [80] for [dy >= 1/3]; a NaN [dy] gives [[NaN, NaN, NaN]]. *)
Theorem envColor_gray_bounds (sky : sky_data) (dx dy dz : jsnum)
  (Hd : sky_imageData sky = None) :
  exists v, envColor sky dx dy dz = mk3 (Some v) (Some v) (Some v) /\
    (dy = NaN -> v = NaN) /\
    (dy <> NaN -> exists q, v = Fin q /\ 80 <= q <= 255 /\
       (js_le dy (Fin (-1 # 3)) = true -> q == 255) /\
       (js_ge dy (Fin (1 # 3)) = true -> q == 80)).
Proof.
  unfold envColor. rewrite Hd. cbv zeta. eexists. split; [reflexivity|].
  destruct dy as [| |y|].
  - split; [reflexivity|]. intros H; destruct H; reflexivity.
  - split; [discriminate|]. intros _. vm_compute. eexists. split; [reflexivity|].
    split; [split; discriminate|]. split; [intros _; reflexivity|discriminate].
  - split; [discriminate|]. intros _. cbn [js_neg js_mul js_add Math_min Math_max js_lt].
    set (s := - y * (3 # 2) + (1 # 2)).
    destruct (Qltb s 1) eqn:E1; cbn [js_lt].
    + apply Qltb_spec in E1. destruct (Qltb 0 s) eqn:E2.
      * apply Qltb_spec in E2. eexists. split; [reflexivity|]. cbn [js_le js_ge js_lt].
        split; [unfold s in *; split; lra|].
        split; intros H; apply negb_true_iff, Qltb_false in H; unfold s in *; lra.
      * apply Qltb_false in E2. eexists. split; [reflexivity|]. cbn [js_le js_ge js_lt].
        split; [split; lra|]. split; intros H; apply negb_true_iff, Qltb_false in H; unfold s in *; lra.
    + apply Qltb_false in E1. eexists. split; [reflexivity|]. cbn [js_le js_ge js_lt].
      split; [split; lra|]. split; intros H; apply negb_true_iff, Qltb_false in H; unfold s in *; lra.
  - split; [discriminate|]. intros _. vm_compute. eexists. split; [reflexivity|].
    split; [split; discriminate|]. split; [discriminate|intros _; reflexivity].
Qed.

Lemma envColor_sky_reads_pixel_witness :
  exists px py, (0 <= px < 2)%Z /\ (0 <= py < 1)%Z /\
    let i := Z.to_nat (4 * (py * 2 + px)) in
    envColor ex_sky (Fin 1) NaN (Fin 0) =
      mk3 (Some (Fin (inject_Z (nth i ex_sky_bytes 0%Z))))
          (Some (Fin (inject_Z (nth (i + 1) ex_sky_bytes 0%Z))))
          (Some (Fin (inject_Z (nth (i + 2) ex_sky_bytes 0%Z)))).
Proof.
  apply (envColor_sky_reads_pixel ex_sky ex_sky_bytes (Fin 1) NaN (Fin 0));
    vm_compute; first [reflexivity | discriminate].
Defined.

Lemma envColor_gray_bounds_witness :
  exists v, envColor ex_sky_loading NaN (Fin (-1 # 2)) NaN = mk3 (Some v) (Some v) (Some v) /\
    (Fin (-1 # 2) = NaN -> v = NaN) /\
    (Fin (-1 # 2) <> NaN -> exists q, v = Fin q /\ 80 <= q <= 255 /\
       (js_le (Fin (-1 # 2)) (Fin (-1 # 3)) = true -> q == 255) /\
       (js_ge (Fin (-1 # 2)) (Fin (1 # 3)) = true -> q == 80)).
Proof.
  apply (envColor_gray_bounds ex_sky_loading NaN (Fin (-1 # 2)) NaN). reflexivity.
Defined.

End QGeometry.

(* ----------------------------------------------------------------- *)
(** *** The metaball field: [evaluateField] against [evalFieldAndGradient] *)

Import Metaball.
Open Scope float_scope.

Lemma set_nth_length {A} (i : nat) (v : A) (l : list A) :
  length (set_nth i v l) = length l.
Proof.
  revert i; induction l as [|a l IH]; intros [|i]; cbn; try rewrite IH; reflexivity.
Qed.

Lemma nth_set_nth_eq {A} (i : nat) (v d : A) (l : list A) :
  (i < length l)%nat -> nth i (set_nth i v l) d = v.
Proof.
  revert i; induction l as [|a l IH]; intros [|i] Hi; cbn in *; try lia.
  - reflexivity.
  - apply IH; lia.
Qed.

Lemma nth_set_nth_neq {A} (i k : nat) (v d : A) (l : list A) :
  i <> k -> nth k (set_nth i v l) d = nth k l d.
Proof.
  revert i k; induction l as [|a l IH]; intros [|i] [|k] Hik; cbn;
    try reflexivity; try congruence.
  apply IH; congruence.
Qed.

Section SetNthFold.

Context {A B : Type} (idx : B -> nat) (F : B -> A).

Let write (l : list A) (t : B) : list A := set_nth (idx t) (F t) l.

Lemma fold_write_length (ts : list B) (l0 : list A) :
  length (fold_left write ts l0) = length l0.
Proof.
  revert l0; induction ts as [|t ts IH]; intros l0; cbn; [reflexivity|].
  rewrite IH; apply set_nth_length.
Qed.

Lemma fold_write_other (ts : list B) (l0 : list A) (k : nat) (d : A) :
  (forall t, In t ts -> idx t <> k) ->
  nth k (fold_left write ts l0) d = nth k l0 d.
Proof.
  revert l0; induction ts as [|t ts IH]; intros l0 Hk; cbn; [reflexivity|].
  rewrite IH by (intros t' Ht'; apply Hk; right; exact Ht').
  apply nth_set_nth_neq, Hk; left; reflexivity.
Qed.

(** The value left at [k] is the one of the last write to [k]. *)
Lemma fold_write_last (ts : list B) (l0 : list A) (k : nat) (d : A) :
  (k < length l0)%nat -> (exists t, In t ts /\ idx t = k) ->
  exists t, In t ts /\ idx t = k /\ nth k (fold_left write ts l0) d = F t.
Proof.
  revert l0; induction ts as [|t ts IH]; intros l0 Hk [t0 [Hin Ht0]]; [destruct Hin|].
  cbn [fold_left].
  destruct (existsb (fun t' => Nat.eqb (idx t') k) ts) eqn:E.
  - apply existsb_exists in E as [t1 [Hin1 E1]]. apply Nat.eqb_eq in E1.
    destruct (IH (write l0 t)) as [t2 [Hin2 [E2 H2]]].
    + unfold write; rewrite set_nth_length; exact Hk.
    + exists t1; split; assumption.
    + exists t2; split; [right; exact Hin2|split; assumption].
  - assert (Hno : forall t', In t' ts -> idx t' <> k).
    { intros t' Ht' Heq. assert (existsb (fun t' => Nat.eqb (idx t') k) ts = true)
        as Hc by (apply existsb_exists; exists t'; split; [exact Ht'|apply Nat.eqb_eq; exact Heq]).
      congruence. }
    destruct Hin as [<-|Hin].
    + exists t; split; [left; reflexivity|split; [exact Ht0|]].
      rewrite fold_write_other by exact Hno.
      unfold write; rewrite Ht0; apply nth_set_nth_eq; exact Hk.
    + destruct (Hno t0 Hin Ht0).
Qed.

End SetNthFold.

Lemma fold_left_flat_map {X Y Z : Type} (f : X -> Y -> X) (g : Z -> list Y) (l : list Z) (a : X) :
  fold_left f (flat_map g l) a = fold_left (fun a z => fold_left f (g z) a) l a.
Proof.
  revert a; induction l as [|z l IH]; intros a; cbn; [reflexivity|].
  rewrite fold_left_app; apply IH.
Qed.

Lemma fold_left_map' {X Y Z : Type} (f : X -> Y -> X) (g : Z -> Y) (l : list Z) (a : X) :
  fold_left f (map g l) a = fold_left (fun a z => f a (g z)) l a.
Proof.
  revert a; induction l as [|z l IH]; intros a; cbn; [reflexivity|]. apply IH.
Qed.

Lemma fold_left_ext' {X Y : Type} (f g : X -> Y -> X) (l : list Y) (a : X) :
  (forall a y, f a y = g a y) -> fold_left f l a = fold_left g l a.
Proof.
  intros Hfg; revert a; induction l as [|y l IH]; intros a; cbn; [reflexivity|].
  rewrite Hfg; apply IH.
Qed.

(** The grid points in the order of the three loops. *)
Definition grid_points (n : nat) : list (nat * nat * nat) :=
  flat_map (fun iz => flat_map (fun iy => map (fun ix => (iz, iy, ix)) (seq 0 n)) (seq 0 n))
    (seq 0 n).

Lemma evaluateField_flat (balls : list ball) (gridMin : fvec) (cellSize : float) (res : nat) :
  let n := S res in
  evaluateField balls gridMin cellSize res =
  fold_left (fun field (p : nat * nat * nat) =>
    let '(iz, iy, ix) := p in
    set_nth ((iz * n + iy) * n + ix)%nat
      (fround (evaluateField_val balls (c0 gridMin + float_of_nat ix * cellSize)
                 (c1 gridMin + float_of_nat iy * cellSize)
                 (c2 gridMin + float_of_nat iz * cellSize))) field)
    (grid_points n) (repeat 0 (n * n * n)%nat).
Proof.
  intros n. unfold evaluateField, grid_points. fold n.
  rewrite fold_left_flat_map. apply fold_left_ext'; intros field iz.
  rewrite fold_left_flat_map. apply fold_left_ext'; intros field' iy.
  rewrite fold_left_map'. reflexivity.
Qed.

Lemma grid_index_inj (n a b a' b' : nat) :
  (b < n)%nat -> (b' < n)%nat -> (a * n + b = a' * n + b')%nat -> a = a' /\ b = b'.
Proof.
  intros Hb Hb' E.
  destruct (Nat.lt_trichotomy a a') as [Hlt|[->|Hlt]]; [nia| |nia].
  split; [reflexivity|lia].
Qed.

Lemma evaluateField_val_eq (balls : list ball) (px py pz : float) :
  evaluateField_val balls px py pz = val (evalFieldAndGradient px py pz balls).
Proof.
  unfold evaluateField_val, evalFieldAndGradient.
  assert (G : forall (acc : field_grad) (v : float), v = val acc ->
    fold_left (fun val b =>
      let dx := px - x b in let dy := py - y b in let dz := pz - z b in
      let dist2 := dx * dx + dy * dy + dz * dz in
      let r := radius b in val + r * r / (dist2 + FIELD_EPS)) balls v =
    val (fold_left (fun acc b =>
      let dx := px - x b in let dy := py - y b in let dz := pz - z b in
      let dist2 := dx * dx + dy * dy + dz * dz + FIELD_EPS in
      let r2 := radius b * radius b in
      let factor := (-2) * r2 / (dist2 * dist2) in
      mk_fg (val acc + r2 / dist2) (gx acc + factor * dx)
            (gy acc + factor * dy) (gz acc + factor * dz)) balls acc)).
  { induction balls as [|b bs IH]; intros acc v Hv; cbn [fold_left]; [exact Hv|].
    apply IH. cbn. rewrite Hv. reflexivity. }
  apply G. reflexivity.
Qed.

(** Claim C10 (counterexample).  One ball of radius 1 at the origin, the
    grid [res = 0] with its single point at [(1, 0, 0)]: the Float32Array
    holds [0.99989998340606689], while [evalFieldAndGradient] gives
    [val = 0.99990000999900008] at the same point. *)
Lemma evaluateField_float32_counterexample :
  let balls := [mk_ball 0 0 0 1] in
  let stored := nth 0 (evaluateField balls (mk3 1 0 0) 1 0) 0 in
  let v := val (evalFieldAndGradient 1 0 0 balls) in
  (stored =? v) = false /\ stored = fround v.
Proof. vm_compute. split; reflexivity. Qed.

(** Claim C10 (amended).  For every ball list, grid origin, cell size and
    integer resolution [res >= 0], [evaluateField] returns an array of
    [(res+1)^3] elements, and at every grid point [(ix, iy, iz)] with
    coordinates at most [res] the element [(iz*n + iy)*n + ix] is the
    [val] of [evalFieldAndGradient] at the grid point's coordinates,
    rounded to binary32 ([Math.fround]) by the [Float32Array] store. *)
Theorem evaluateField_stores_fround_val (balls : list ball) (gridMin : fvec)
    (cellSize : float) (res ix iy iz : nat) :
  (ix <= res)%nat -> (iy <= res)%nat -> (iz <= res)%nat ->
  let n := S res in
  let px := c0 gridMin + float_of_nat ix * cellSize in
  let py := c1 gridMin + float_of_nat iy * cellSize in
  let pz := c2 gridMin + float_of_nat iz * cellSize in
  length (evaluateField balls gridMin cellSize res) = (n * n * n)%nat /\
  nth ((iz * n + iy) * n + ix) (evaluateField balls gridMin cellSize res) 0 =
  fround (val (evalFieldAndGradient px py pz balls)).
Proof.
  intros Hx Hy Hz n px py pz.
  rewrite evaluateField_flat; fold n.
  set (idx := fun p : nat * nat * nat => let '(iz, iy, ix) := p in ((iz * n + iy) * n + ix)%nat).
  set (F := fun p : nat * nat * nat => let '(iz, iy, ix) := p in
        fround (evaluateField_val balls (c0 gridMin + float_of_nat ix * cellSize)
                  (c1 gridMin + float_of_nat iy * cellSize)
                  (c2 gridMin + float_of_nat iz * cellSize))).
  assert (Hw : forall l p, (let '(iz, iy, ix) := p in
            set_nth ((iz * n + iy) * n + ix)%nat
              (fround (evaluateField_val balls (c0 gridMin + float_of_nat ix * cellSize)
                         (c1 gridMin + float_of_nat iy * cellSize)
                         (c2 gridMin + float_of_nat iz * cellSize))) l)
            = set_nth (idx p) (F p) l).
  { intros l [[a b] c]; reflexivity. }
  rewrite (fold_left_ext' _ _ _ _ Hw).
  assert (Hin : forall p, In p (grid_points n) <->
            let '(a, b, c) := p in (a < n)%nat /\ (b < n)%nat /\ (c < n)%nat).
  { intros [[a b] c]. unfold grid_points.
    rewrite in_flat_map. setoid_rewrite in_flat_map. setoid_rewrite in_map_iff.
    setoid_rewrite in_seq. split.
    - intros [a' [Ha' [b' [Hb' [c' [E Hc']]]]]]. injection E as <- <- <-. lia.
    - intros (Ha & Hb & Hc). exists a; split; [lia|]. exists b; split; [lia|].
      exists c; split; [reflexivity|lia]. }
  split.
  - rewrite fold_write_length, repeat_length. reflexivity.
  - destruct (fold_write_last idx F (grid_points n) (repeat 0 (n * n * n)%nat)
                ((iz * n + iy) * n + ix)%nat 0) as [[[a b] c] [Hp [Ei Ev]]].
    + rewrite repeat_length. unfold n in *. nia.
    + exists (iz, iy, ix); split; [apply Hin; unfold n; lia|reflexivity].
    + apply Hin in Hp. cbn in Ei. destruct Hp as (Ha & Hb & Hc).
      apply grid_index_inj in Ei as [Ei E3]; [|nia|unfold n; lia].
      apply grid_index_inj in Ei as [E1 E2]; [|lia|unfold n; lia].
      subst a b c. rewrite Ev. cbn [F]. rewrite evaluateField_val_eq. reflexivity.
Qed.

Lemma evaluateField_stores_fround_val_witness :
  nth 1 (evaluateField [mk_ball 0 0 0 1] (mk3 0 0 0) 1 1) 0 =
  fround (val (evalFieldAndGradient (0 + float_of_nat 1 * 1) (0 + float_of_nat 0 * 1)
                (0 + float_of_nat 0 * 1) [mk_ball 0 0 0 1])).
Proof.
  exact (proj2 (evaluateField_stores_fround_val [mk_ball 0 0 0 1] (mk3 0 0 0) 1 1 1 0 0
    ltac:(lia) ltac:(lia) ltac:(lia))).
Defined.

(* ----------------------------------------------------------------- *)
(** *** [smoothMesh] keeps the topology *)

(** [m'] differs from [m] at most in the coordinates of its vertices. *)
Definition same_frame (m m' : mesh) : Prop :=
  triangles m' = triangles m /\ length (vertices m') = length (vertices m) /\
  normals m' = normals m.

Lemma same_frame_refl (m : mesh) : same_frame m m.
Proof. repeat split. Qed.

Lemma same_frame_trans (m1 m2 m3 : mesh) :
  same_frame m1 m2 -> same_frame m2 m3 -> same_frame m1 m3.
Proof.
  intros (T1 & L1 & N1) (T2 & L2 & N2); repeat split; congruence.
Qed.

Lemma set_vertex_frame (m : mesh) (i : nat) (v : fvec) : same_frame m (set_vertex m i v).
Proof.
  unfold set_vertex, same_frame; cbn; repeat split. apply set_nth_length.
Qed.

Lemma laplacian_vertex_frame (sets : list (list nat)) (m : mesh) (i : nat) :
  same_frame m (laplacian_vertex sets m i).
Proof.
  unfold laplacian_vertex. destruct (nth i sets []).
  - apply same_frame_refl.
  - apply set_vertex_frame.
Qed.

Lemma newton_vertex_frame (balls : list ball) (threshold : float) (m : mesh) (i : nat) :
  same_frame m (newton_vertex balls threshold m i).
Proof.
  unfold newton_vertex. destruct (_ <? GMAG2_MIN).
  - apply same_frame_refl.
  - apply set_vertex_frame.
Qed.

Lemma fold_frame {B : Type} (f : mesh -> B -> mesh) (l : list B) (m : mesh) :
  (forall m b, same_frame m (f m b)) -> same_frame m (fold_left f l m).
Proof.
  intros Hf; revert m; induction l as [|b l IH]; intros m; cbn.
  - apply same_frame_refl.
  - exact (same_frame_trans _ _ _ (Hf m b) (IH (f m b))).
Qed.

Lemma add_neighbor_length (i j : nat) (sets sets' : list (list nat)) :
  add_neighbor i j sets = Some sets' -> length sets' = length sets.
Proof.
  unfold add_neighbor. destruct (nth_error sets i); intros H; [|discriminate].
  injection H as <-. apply set_nth_length.
Qed.

Lemma add_neighbor_some (i j : nat) (sets : list (list nat)) :
  (i < length sets)%nat -> exists sets', add_neighbor i j sets = Some sets'.
Proof.
  intros Hi. unfold add_neighbor.
  destruct (nth_error sets i) eqn:E; [eexists; reflexivity|].
  apply nth_error_None in E; lia.
Qed.

(** One [add_neighbor] call of [add_tri] with an index in range. *)
Ltac step_add :=
  match goal with
  | |- exists _, obind (add_neighbor ?i ?j ?s) _ = _ /\ _ =>
      let s' := fresh "s" in let E := fresh "E" in
      destruct (add_neighbor_some i j s) as [s' E]; [lia|];
      rewrite E; cbn [obind]; apply add_neighbor_length in E
  | |- exists _, add_neighbor ?i ?j ?s = _ /\ _ =>
      let s' := fresh "s" in let E := fresh "E" in
      destruct (add_neighbor_some i j s) as [s' E]; [lia|];
      exists s'; split; [exact E|]; apply add_neighbor_length in E
  end.

Lemma add_tri_some (sets : list (list nat)) (t : tri) :
  (c0 t < length sets)%nat -> (c1 t < length sets)%nat -> (c2 t < length sets)%nat ->
  exists sets', add_tri sets t = Some sets' /\ length sets' = length sets.
Proof.
  intros H0 H1 H2. unfold add_tri.
  do 6 step_add. lia.
Qed.

Lemma build_sets_some (ts : list tri) (sets : list (list nat)) :
  (forall t, In t ts -> (c0 t < length sets)%nat /\ (c1 t < length sets)%nat /\
                        (c2 t < length sets)%nat) ->
  exists sets', fold_opt add_tri ts sets = Some sets'.
Proof.
  revert sets; induction ts as [|t ts IH]; intros sets Hts; cbn.
  - eexists; reflexivity.
  - destruct (Hts t (or_introl eq_refl)) as (H0 & H1 & H2).
    destruct (add_tri_some sets t H0 H1 H2) as [s' [E L]].
    rewrite E; cbn [obind]. apply IH.
    intros t' Ht'. rewrite L. apply Hts. right; exact Ht'.
Qed.

(** Claim C8.  Whatever the mesh, balls, threshold and iteration count
    ([iterations] a non-negative integer), when [smoothMesh] returns, the
    triangle array is the one it was given and the vertex array has its
    old length; only vertex coordinates change.  It returns (does not
    throw) whenever every triangle index is a valid vertex index. *)
Theorem smoothMesh_keeps_topology (m : mesh) (balls : list ball) (threshold : float)
    (iterations : nat) :
  (forall m', smoothMesh m balls threshold iterations = Some m' ->
     triangles m' = triangles m /\ length (vertices m') = length (vertices m)) /\
  ((forall t, In t (triangles m) ->
      (c0 t < length (vertices m))%nat /\ (c1 t < length (vertices m))%nat /\
      (c2 t < length (vertices m))%nat) ->
   exists m', smoothMesh m balls threshold iterations = Some m').
Proof.
  unfold smoothMesh. split.
  - intros m'.
    destruct (fold_opt add_tri (triangles m) (repeat [] (length (vertices m)))) as [sets|];
      cbn [obind]; intros H; [|discriminate].
    injection H as <-.
    assert (Hf : same_frame m (fold_left (fun m _ =>
          let m := fold_left (laplacian_vertex sets) (seq 0 (length (vertices m))) m in
          fold_left (newton_vertex balls threshold) (seq 0 (length (vertices m))) m)
        (seq 0 iterations) m)).
    { apply fold_frame. intros m0 _. cbv zeta.
      refine (same_frame_trans _ _ _ (fold_frame (laplacian_vertex sets)
                (seq 0 (length (vertices m0))) m0 (laplacian_vertex_frame sets)) _).
      apply fold_frame, newton_vertex_frame. }
    destruct Hf as (T & L & _). split; assumption.
  - intros Hts.
    destruct (build_sets_some (triangles m) (repeat [] (length (vertices m)))) as [sets E].
    + rewrite repeat_length. exact Hts.
    + rewrite E; cbn [obind]. eexists; reflexivity.
Qed.

Lemma smoothMesh_keeps_topology_witness :
  exists m', smoothMesh (mk_mesh [mk3 0 0 0; mk3 1 0 0; mk3 0 1 0] [mk3 0 1 2]%nat None)
               [mk_ball 0 0 0 1] 1 2 = Some m'.
Proof.
  apply (proj2 (smoothMesh_keeps_topology
    (mk_mesh [mk3 0 0 0; mk3 1 0 0; mk3 0 1 0] [mk3 0 1 2]%nat None) [mk_ball 0 0 0 1] 1 2)).
  intros t [<-|[]]. cbn. lia.
Defined.

(* ----------------------------------------------------------------- *)
(** *** The adjacency of [smoothMesh] *)

(** [j] shares triangle [t] with [i] at another corner. *)
Definition co_corner (t : tri) (i j : nat) : Prop :=
  (c0 t = i /\ (c1 t = j \/ c2 t = j)) \/
  (c1 t = i /\ (c0 t = j \/ c2 t = j)) \/
  (c2 t = i /\ (c0 t = j \/ c1 t = j)).

(** Some index of [t] is not a vertex index. *)
Definition bad_tri (n : nat) (t : tri) : Prop :=
  (n <= c0 t \/ n <= c1 t \/ n <= c2 t)%nat.

Lemma set_add_in s v j : In j (set_add s v) <-> In j s \/ j = v.
Proof.
  unfold set_add. destruct (existsb (Nat.eqb v) s) eqn:E.
  - apply existsb_exists in E as (x & Hx & Ex). apply Nat.eqb_eq in Ex. subst x.
    split; [tauto|]. intros [H| ->]; assumption.
  - rewrite in_app_iff. simpl. split; intros [H|H]; auto; destruct H as [<-|[]]; auto.
Qed.

Lemma set_add_nodup s v : NoDup s -> NoDup (set_add s v).
Proof.
  unfold set_add. destruct (existsb (Nat.eqb v) s) eqn:E; [auto|]. intros Hs.
  apply NoDup_app; [exact Hs|repeat constructor; simpl; tauto|].
  intros y Hy [<-|[]]. assert (existsb (Nat.eqb v) s = true)
    by (apply existsb_exists; exists v; split; [exact Hy|apply Nat.eqb_refl]).
  congruence.
Qed.

Lemma add_neighbor_spec a b s s' :
  add_neighbor a b s = Some s' ->
  (a < length s)%nat /\ length s' = length s /\
  forall i, (forall j, In j (nth i s' []) <-> In j (nth i s []) \/ (i = a /\ j = b)) /\
            (NoDup (nth i s []) -> NoDup (nth i s' [])).
Proof.
  unfold add_neighbor. destruct (nth_error s a) as [sa|] eqn:E; intros H; [|discriminate].
  injection H as <-.
  assert (Ha : (a < length s)%nat) by (apply nth_error_Some; congruence).
  assert (Hsa : nth a s [] = sa) by (apply nth_error_nth; exact E).
  split; [exact Ha|]. split; [apply set_nth_length|]. intros i.
  destruct (Nat.eq_dec i a) as [->|Hne].
  - rewrite nth_set_nth_eq by exact Ha. rewrite Hsa. split.
    + intros j. rewrite set_add_in. split.
      * intros [H|H]; [left; exact H|right; split; [reflexivity|exact H]].
      * intros [H|[_ H]]; [left; exact H|right; exact H].
    + apply set_add_nodup.
  - rewrite nth_set_nth_neq by congruence. split; [|auto].
    intros j. split; [auto|]. intros [H|[H _]]; [exact H|congruence].
Qed.

(** Invariant of the six [add] calls for one triangle. *)
Definition sets_step (s s' : list (list nat)) (P : nat -> nat -> Prop) : Prop :=
  length s' = length s /\
  forall i, (forall j, In j (nth i s' []) <-> In j (nth i s []) \/ P i j) /\
            (NoDup (nth i s []) -> NoDup (nth i s' [])).

Lemma sets_step_add s s1 s2 P a b :
  sets_step s s1 P -> add_neighbor a b s1 = Some s2 ->
  (a < length s)%nat /\ sets_step s s2 (fun i j => P i j \/ (i = a /\ j = b)).
Proof.
  intros (L & H) E. destruct (add_neighbor_spec _ _ _ _ E) as (Ha & L2 & H2).
  split; [lia|]. split; [lia|]. intros i. split.
  - intros j. rewrite (proj1 (H2 i) j), (proj1 (H i) j). tauto.
  - intros Hd. exact (proj2 (H2 i) (proj2 (H i) Hd)).
Qed.

Lemma sets_step_refl s : sets_step s s (fun _ _ => False).
Proof. split; [reflexivity|]. intros i. split; [tauto|auto]. Qed.

Lemma add_tri_spec s t s' :
  add_tri s t = Some s' ->
  ~ bad_tri (length s) t /\ sets_step s s' (fun i j => co_corner t i j).
Proof.
  unfold add_tri. intros H.
  pose proof (sets_step_refl s) as S0.
  destruct (add_neighbor (c0 t) (c1 t) s) as [s1|] eqn:E1; cbn [obind] in H; [|discriminate].
  destruct (sets_step_add _ _ _ _ _ _ S0 E1) as [H0 S1].
  destruct (add_neighbor (c0 t) (c2 t) s1) as [s2|] eqn:E2; cbn [obind] in H; [|discriminate].
  destruct (sets_step_add _ _ _ _ _ _ S1 E2) as [_ S2].
  destruct (add_neighbor (c1 t) (c0 t) s2) as [s3|] eqn:E3; cbn [obind] in H; [|discriminate].
  destruct (sets_step_add _ _ _ _ _ _ S2 E3) as [H1 S3].
  destruct (add_neighbor (c1 t) (c2 t) s3) as [s4|] eqn:E4; cbn [obind] in H; [|discriminate].
  destruct (sets_step_add _ _ _ _ _ _ S3 E4) as [_ S4].
  destruct (add_neighbor (c2 t) (c0 t) s4) as [s5|] eqn:E5; cbn [obind] in H; [|discriminate].
  destruct (sets_step_add _ _ _ _ _ _ S4 E5) as [H2 S5].
  destruct (sets_step_add _ _ _ _ _ _ S5 H) as [_ (L & S6)].
  split; [unfold bad_tri; lia|]. split; [exact L|]. intros i. split; [|exact (proj2 (S6 i))].
  intros j. rewrite (proj1 (S6 i) j). unfold co_corner.
  split; (intros [X|X]; [left; exact X|right]); intuition congruence.
Qed.

Lemma fold_sets_spec ts : forall s s',
  fold_opt add_tri ts s = Some s' ->
  sets_step s s' (fun i j => exists t, In t ts /\ co_corner t i j).
Proof.
  induction ts as [|t ts IH]; intros s s' H; cbn [fold_opt] in H.
  - injection H as <-. split; [reflexivity|]. intros i. split; [|auto].
    intros j. split; [auto|]. intros [H|(t & [] & _)]. exact H.
  - destruct (add_tri s t) as [s1|] eqn:E; cbn [obind] in H; [|discriminate].
    destruct (add_tri_spec _ _ _ E) as [_ (L1 & H1)].
    destruct (IH _ _ H) as (L2 & H2).
    split; [lia|]. intros i. split.
    + intros j. rewrite (proj1 (H2 i) j), (proj1 (H1 i) j). split.
      * intros [[X|X]|(t' & Ht' & X)]; [left; exact X|right; exists t; simpl; auto|].
        right. exists t'. simpl. auto.
      * intros [X|(t' & [<-|Ht'] & X)]; [left; left; exact X|left; right; exact X|].
        right. exists t'. auto.
    + intros Hd. exact (proj2 (H2 i) (proj2 (H1 i) Hd)).
Qed.

Lemma fold_sets_none ts : forall s,
  fold_opt add_tri ts s = None <-> exists t, In t ts /\ bad_tri (length s) t.
Proof.
  induction ts as [|t ts IH]; intros s; cbn [fold_opt].
  - split; [discriminate|]. intros (t & [] & _).
  - destruct (add_tri s t) as [s1|] eqn:E; cbn [obind].
    + destruct (add_tri_spec _ _ _ E) as [Hg (L1 & _)].
      rewrite IH, L1. split.
      * intros (t' & Ht' & Hb). exists t'. simpl. auto.
      * intros (t' & [<-|Ht'] & Hb); [contradiction|]. eauto.
    + split; [intros _|reflexivity].
      exists t. split; [simpl; auto|]. unfold bad_tri.
      destruct (Nat.lt_ge_cases (c0 t) (length s)), (Nat.lt_ge_cases (c1 t) (length s)),
        (Nat.lt_ge_cases (c2 t) (length s)); try lia.
      destruct (add_tri_some s t) as (s' & E' & _); [assumption..|congruence].
Qed.

(** [smoothMesh] throws (indexing [neighborSets] with [undefined])
    exactly when some triangle has an index that is not a vertex index. *)
Theorem smoothMesh_throws_iff (m : mesh) (balls : list ball) (threshold : float)
    (iterations : nat) :
  smoothMesh m balls threshold iterations = None <->
  exists t, In t (triangles m) /\ bad_tri (length (vertices m)) t.
Proof.
  unfold smoothMesh.
  pose proof (fold_sets_none (triangles m) (repeat [] (length (vertices m)))) as H.
  rewrite repeat_length in H. rewrite <- H.
  destruct (fold_opt add_tri (triangles m) (repeat [] (length (vertices m)))); cbn [obind];
    split; congruence.
Qed.

(** The [neighborSets] [smoothMesh] builds has one set per vertex; the
    set of vertex [i] holds no duplicate, and it holds [j] exactly when
    some triangle has [i] at one corner and [j] at another (so [i] itself,
    for a triangle that repeats [i]). *)
Theorem smoothMesh_neighbor_sets (m : mesh) (sets : list (list nat)) :
  fold_opt add_tri (triangles m) (repeat [] (length (vertices m))) = Some sets ->
  length sets = length (vertices m) /\
  forall i, NoDup (nth i sets []) /\
    forall j, In j (nth i sets []) <-> exists t, In t (triangles m) /\ co_corner t i j.
Proof.
  intros H. destruct (fold_sets_spec _ _ _ H) as (L & Hs).
  rewrite repeat_length in L. split; [exact L|]. intros i.
  assert (E0 : nth i (repeat [] (length (vertices m))) [] = ([] : list nat))
    by (destruct (Nat.lt_ge_cases i (length (vertices m)));
        [apply nth_repeat | apply nth_overflow; rewrite repeat_length; lia]).
  destruct (Hs i) as [Hi1 Hi2]. rewrite E0 in Hi1, Hi2. split.
  - apply Hi2. constructor.
  - intros j. rewrite (Hi1 j). simpl. tauto.
Qed.

Lemma smoothMesh_neighbor_sets_witness :
  fold_opt add_tri [mk3 0 1 2; mk3 2 1 3]%nat (repeat [] 4) =
    Some [[1; 2]; [0; 2; 3]; [0; 1; 3]; [2; 1]]%nat /\
  length [[1; 2]; [0; 2; 3]; [0; 1; 3]; [2; 1]]%nat = length [mk3 0 0 0; mk3 1 0 0; mk3 0 1 0; mk3 1 1 0] /\
  forall i, NoDup (nth i [[1; 2]; [0; 2; 3]; [0; 1; 3]; [2; 1]]%nat []) /\
    forall j, In j (nth i [[1; 2]; [0; 2; 3]; [0; 1; 3]; [2; 1]]%nat []) <->
      exists t, In t [mk3 0 1 2; mk3 2 1 3]%nat /\ co_corner t i j.
Proof.
  split; [reflexivity|].
  apply (smoothMesh_neighbor_sets
           (mk_mesh [mk3 0 0 0; mk3 1 0 0; mk3 0 1 0; mk3 1 1 0] [mk3 0 1 2; mk3 2 1 3]%nat None)).
  reflexivity.
Defined.

(* ----------------------------------------------------------------- *)
(** *** [generateMetaballMesh] with no balls *)

(** A [marchingCubes] that finds no surface, for the witness. *)
Definition no_surface (_ : list float) (_ : nat) (_ : fvec) (_ _ : float)
  : list fvec * list tri := ([], []).

(** Claim C5.  For every [marchingCubes], with no balls
    [generateMetaballMesh] returns the object with one vertex [[0,0,0]],
    no triangles and no [normals] property at all; with at least one ball,
    every mesh it returns has a [normals] array with one normal per
    vertex. *)
Theorem generateMetaballMesh_empty_no_normals
    (marchingCubes : list float -> nat -> fvec -> float -> float -> list fvec * list tri) :
  (forall res threshold,
     generateMetaballMesh marchingCubes [] res threshold = Some (mk_mesh [mk3 0 0 0] [] None)) /\
  (forall balls res threshold m, balls <> [] ->
     generateMetaballMesh marchingCubes balls res threshold = Some m ->
     exists ns, normals m = Some ns /\ length ns = length (vertices m)).
Proof.
  split.
  - intros res threshold. reflexivity.
  - intros balls res threshold m Hb. unfold generateMetaballMesh.
    destruct balls as [|b bs]; [contradiction|].
    destruct (fold_left _ _ _) as [mn mx]. cbv zeta.
    destruct (marchingCubes _ _ _ _ _) as [vs ts].
    destruct (smoothMesh _ _ _ _) as [m'|]; cbn [obind]; intros H; [|discriminate].
    injection H as <-. cbn. eexists; split; [reflexivity|apply length_map].
Qed.

Lemma generateMetaballMesh_empty_no_normals_witness :
  exists ns, normals (match generateMetaballMesh no_surface [mk_ball 0 0 0 1] 1%nat 1 with
                      | Some m => m | None => mk_mesh [] [] None end) = Some ns.
Proof.
  destruct (proj2 (generateMetaballMesh_empty_no_normals no_surface) [mk_ball 0 0 0 1] 1%nat 1
    (match generateMetaballMesh no_surface [mk_ball 0 0 0 1] 1%nat 1 with
     | Some m => m | None => mk_mesh [] [] None end)
    ltac:(discriminate) ltac:(vm_compute; reflexivity)) as [ns [Hn _]].
  exists ns. exact Hn.
Defined.

(* ----------------------------------------------------------------- *)
(** *** The per-sample PRNG of raytrace.js *)

Section RaytraceProofs.

Import Raytrace.

Lemma lcg_stream_app (s : float) (n k : nat) :
  lcg_stream s (n + k) = lcg_stream s n ++ lcg_stream (lcg_iter n s) k.
Proof.
  revert s; induction n as [|n IH]; intros s; cbn; [reflexivity|]. rewrite IH; reflexivity.
Qed.

Lemma lcg_iter_add (n k : nat) (s : float) : lcg_iter (n + k) s = lcg_iter k (lcg_iter n s).
Proof.
  revert s; induction n as [|n IH]; intros s; cbn; [reflexivity|]. apply IH.
Qed.

(** [m] draws from the LCG only: the values it records are the next ones
    of the LCG from the seed it starts with, and it leaves the seed just
    after the last of them. *)
Definition lcg_comp {A} (m : M A) : Prop :=
  forall s, let '(_, w, s') := m s in
            w = lcg_stream s (length w) /\ s' = lcg_iter (length w) s.

Lemma ret_lcg {A} (a : A) : lcg_comp (ret a).
Proof. intros s; split; reflexivity. Qed.

Lemma fastRand_lcg : lcg_comp fastRand.
Proof. intros s; split; reflexivity. Qed.

Lemma bind_lcg {A B} (m : M A) (k : A -> M B) :
  lcg_comp m -> (forall a, lcg_comp (k a)) -> lcg_comp (bind m k).
Proof.
  intros Hm Hk s. unfold bind. specialize (Hm s). destruct (m s) as [[a w1] s1].
  destruct Hm as [E1 F1]. specialize (Hk a s1). destruct (k a s1) as [[b w2] s2].
  destruct Hk as [E2 F2]. rewrite length_app. split.
  - rewrite lcg_stream_app, <- F1, <- E1, <- E2. reflexivity.
  - rewrite lcg_iter_add, <- F1. exact F2.
Qed.

Lemma bind_set_seed {A} (v : float) (k : unit -> M A) (s : float) :
  bind (set_seed v) k s = k tt v.
Proof.
  unfold bind, set_seed. destruct (k tt v) as [[b w] s']. reflexivity.
Qed.

(** Split a computation into [fastRand], [ret] and binds. *)
Ltac lcg_steps :=
  repeat first
    [ progress cbv beta zeta
    | apply ret_lcg
    | apply fastRand_lcg
    | apply bind_lcg; intros
    | match goal with
      | |- lcg_comp (if ?c then _ else _) => destruct c
      | |- lcg_comp (match ?x with _ => _ end) => destruct x
      end ].

Context (sceneIntersect : fvec -> fvec -> Z -> option scene_hit)
        (sceneAnyHit : fvec -> fvec -> float -> Z -> bool)
        (envColor : fvec -> fvec) (pow : float -> float -> float).

Lemma shadow_loop_lcg (k : nat) (h : fvec) (i : Z) (blocked : float) :
  lcg_comp (shadow_loop sceneAnyHit k h i blocked).
Proof.
  revert blocked; induction k as [|k IH]; intros blocked; cbn [shadow_loop]; lcg_steps.
  apply IH.
Qed.

Lemma sampleHemisphere_lcg (n : fvec) : lcg_comp (sampleHemisphere n).
Proof. unfold sampleHemisphere; lcg_steps. Qed.

Lemma ao_loop_lcg (k : nat) (h n : fvec) (i : Z) (occluded : float) :
  lcg_comp (ao_loop sceneAnyHit k h n i occluded).
Proof.
  revert occluded; induction k as [|k IH]; intros occluded; cbn [ao_loop].
  - apply ret_lcg.
  - apply bind_lcg; [apply sampleHemisphere_lcg|]. intros [dv|]; apply IH.
Qed.

Lemma traceRay_lcg (depth : nat) (o dv : fvec) (skipObj : Z) :
  lcg_comp (traceRay sceneIntersect sceneAnyHit envColor pow o dv depth skipObj).
Proof.
  revert o dv skipObj; induction depth as [|depth IH]; intros o dv skipObj;
    cbn [traceRay]; destruct (sceneIntersect o dv skipObj) as [hit|]; try apply ret_lcg;
    (apply bind_lcg; [apply bind_lcg; [apply shadow_loop_lcg|intros; apply ret_lcg]|intros shadow];
     apply bind_lcg; [apply bind_lcg; [apply ao_loop_lcg|intros; apply ret_lcg]|intros ao]);
    lcg_steps; apply IH.
Qed.

(** Claim C4.  For a fixed scene (the scene queries, the sky and
    [Math.pow] fixed) and fixed pixel, sub-sample and [RT_AA_GRID] values,
    running the sub-sample's shading (the seed assignment, then
    [traceRay]) from any two values of [_shadowSeed] gives the same color,
    the same sequence of [fastRand] results and the same final seed.  That
    sequence is the first values of the LCG started from the seed
    [(py*aa + ay)*WIDTH*aa + (px*aa + ax)]. *)
Theorem sample_bit_identical (aa px py ax ay : nat) (s1 s2 : float) :
  sample sceneIntersect sceneAnyHit envColor pow aa px py ax ay s1 =
  sample sceneIntersect sceneAnyHit envColor pow aa px py ax ay s2 /\
  (let '(_, draws, s') := sample sceneIntersect sceneAnyHit envColor pow aa px py ax ay s1 in
   draws = lcg_stream (sample_seed aa px py ax ay) (length draws) /\
   s' = lcg_iter (length draws) (sample_seed aa px py ax ay)).
Proof.
  unfold sample. cbv zeta. rewrite !bind_set_seed. split; [reflexivity|].
  apply traceRay_lcg.
Qed.

(** The direction of a shadow ray jittered by the draws [r1], [r2], [r3]. *)
Definition shadow_dir (r1 r2 r3 : float) : fvec :=
  mk3 (c0 lightDir + (r1 - 0.5) * RT_LIGHT_RADIUS) (c1 lightDir + (r2 - 0.5) * RT_LIGHT_RADIUS)
      (c2 lightDir + (r3 - 0.5) * RT_LIGHT_RADIUS).

(** The number of the first [k] shadow rays, jittered by consecutive
    triples of [w], that [sceneAnyHit] finds blocked. *)
Fixpoint count_blocked (h : fvec) (i : Z) (k : nat) (w : list float) : nat :=
  match k, w with
  | S k', r1 :: r2 :: r3 :: rest =>
      (if sceneAnyHit h (shadow_dir r1 r2 r3) infinity i then 1 else 0) +
      count_blocked h i k' rest
  | _, _ => 0
  end.

(** The number of the first [k] hemisphere samples, the [m]-th drawn from
    the seed [3 m] LCG steps after [s], that [sceneAnyHit] finds occluded;
    a sample [sampleHemisphere] rejects counts as open. *)
Fixpoint count_occluded (h n : fvec) (i : Z) (k : nat) (s : float) : nat :=
  match k with
  | O => O
  | S k' =>
      match fst (fst (sampleHemisphere n s)) with
      | Some dv => if sceneAnyHit h dv RT_AO_RADIUS i then 1 else 0
      | None => 0
      end + count_occluded h n i k' (lcg_iter 3 s)
  end.

(** Counting up to 16 by [+ 1] is exact. *)
Lemma float_succ_small (b : nat) : (b < 16)%nat -> float_of_nat b + 1 = float_of_nat (S b).
Proof. intros Hb. do 16 (destruct b as [|b]; [vm_compute; reflexivity|]). lia. Qed.

Lemma shadow_loop_count (k : nat) : forall (h : fvec) (i : Z) (b : nat) (s : float),
  (b + k <= 16)%nat ->
  shadow_loop sceneAnyHit k h i (float_of_nat b) s =
  (float_of_nat (b + count_blocked h i k (lcg_stream s (3 * k))),
   lcg_stream s (3 * k), lcg_iter (3 * k) s).
Proof.
  induction k as [|k IH]; intros h i b s Hk.
  - cbn. rewrite Nat.add_0_r. reflexivity.
  - replace (3 * S k)%nat with (S (S (S (3 * k)))) by lia.
    cbn [shadow_loop lcg_stream lcg_iter count_blocked].
    unfold bind at 1 2 3, fastRand. cbv beta iota zeta. unfold shadow_dir.
    match goal with
    | |- context [sceneAnyHit h ?v infinity i] => destruct (sceneAnyHit h v infinity i)
    end.
    + rewrite float_succ_small by lia. rewrite (IH h i (S b)) by lia.
      simpl. rewrite Nat.add_succ_r. reflexivity.
    + rewrite (IH h i b) by lia. rewrite Nat.add_0_l. reflexivity.
Qed.

Lemma sampleHemisphere_draws (n : fvec) (s : float) :
  snd (fst (sampleHemisphere n s)) = lcg_stream s 3 /\
  snd (sampleHemisphere n s) = lcg_iter 3 s.
Proof.
  pose proof (sampleHemisphere_lcg n s) as H.
  destruct (sampleHemisphere n s) as [[dir w] s'] eqn:E.
  assert (Hl : length w = 3%nat).
  { unfold sampleHemisphere, bind, fastRand in E. cbv beta iota zeta in E.
    repeat match type of E with context [if ?c then _ else _] => destruct c end;
      unfold ret in E; injection E as _ <- _; reflexivity. }
  rewrite Hl in H. exact H.
Qed.

Lemma ao_loop_count (k : nat) : forall (h n : fvec) (i : Z) (b : nat) (s : float),
  (b + k <= 16)%nat ->
  ao_loop sceneAnyHit k h n i (float_of_nat b) s =
  (float_of_nat (b + count_occluded h n i k s), lcg_stream s (3 * k), lcg_iter (3 * k) s).
Proof.
  induction k as [|k IH]; intros h n i b s Hk.
  - cbn. rewrite Nat.add_0_r. reflexivity.
  - cbn [ao_loop count_occluded]. unfold bind at 1.
    destruct (sampleHemisphere_draws n s) as [Ew Es].
    destruct (sampleHemisphere n s) as [[dir w] s'] eqn:E. cbn [fst snd] in Ew, Es |- *.
    subst w s'.
    replace (3 * S k)%nat with (3 + 3 * k)%nat by lia.
    rewrite lcg_stream_app, lcg_iter_add.
    destruct dir as [dv|].
    + destruct (sceneAnyHit h dv RT_AO_RADIUS i).
      * rewrite float_succ_small by lia. rewrite (IH h n i (S b)) by lia.
        simpl. rewrite Nat.add_succ_r. reflexivity.
      * rewrite (IH h n i b) by lia. reflexivity.
    + rewrite (IH h n i b) by lia. reflexivity.
Qed.

(** [shadowTest] draws exactly [48] values of the LCG from the seed it
    finds (three per sample) and returns exactly [b / 16], where [b] is
    the number of the [16] jittered shadow rays that [sceneAnyHit] finds
    blocked: the count [blocked++] is kept without rounding. *)
Theorem shadowTest_counts (h : fvec) (i : Z) (s : float) :
  shadowTest sceneAnyHit h i s =
  (float_of_nat (count_blocked h i 16 (lcg_stream s 48)) / float_of_nat RT_SHADOW_SAMPLES,
   lcg_stream s 48, lcg_iter 48 s).
Proof.
  unfold shadowTest, bind.
  change (shadow_loop sceneAnyHit RT_SHADOW_SAMPLES h i 0 s)
    with (shadow_loop sceneAnyHit 16 h i (float_of_nat 0) s).
  rewrite (shadow_loop_count 16 h i 0 s) by lia. reflexivity.
Qed.

(** [aoTest] draws exactly [24] values of the LCG from the seed it finds
    (three per hemisphere sample, rejected or not) and returns exactly
    [k / 8], where [k] is the number of the [8] hemisphere samples that
    [sceneAnyHit] finds occluded within [RT_AO_RADIUS]. *)
Theorem aoTest_counts (h n : fvec) (i : Z) (s : float) :
  aoTest sceneAnyHit h n i s =
  (float_of_nat (count_occluded h n i 8 s) / float_of_nat RT_AO_SAMPLES,
   lcg_stream s 24, lcg_iter 24 s).
Proof.
  unfold aoTest, bind.
  change (ao_loop sceneAnyHit RT_AO_SAMPLES h n i 0 s)
    with (ao_loop sceneAnyHit 8 h n i (float_of_nat 0) s).
  rewrite (ao_loop_count 8 h n i 0 s) by lia. reflexivity.
Qed.

End RaytraceProofs.

(* ----------------------------------------------------------------- *)
(** *** primitives.js: [putpixel] and [scanlineHits] *)

Import Raytrace SoftRender.

Lemma nth_error_set_nth_neq {A} (i k : nat) (v : A) (l : list A) :
  i <> k -> nth_error (set_nth i v l) k = nth_error l k.
Proof.
  revert i k; induction l as [|c l IH]; intros [|i] [|k] Hik; cbn; try reflexivity;
    try lia. apply IH. lia.
Qed.

Lemma nth_error_set_nth_some {A} (i k : nat) (v w : A) (l : list A) :
  nth_error (set_nth i v l) k = Some w -> nth_error l k = Some w \/ w = v.
Proof.
  revert i k; induction l as [|c l IH]; intros [|i] [|k] H; cbn in *;
    try discriminate; eauto.
  injection H as <-. right; reflexivity.
Qed.

(** Four consecutive writes [l[i] .. l[i + 3]]. *)
Lemma set4_props (l : list Z) (i : nat) (v0 v1 v2 v3 : Z) :
  let l' := set_nth (i + 3) v3 (set_nth (i + 2) v2 (set_nth (i + 1) v1 (set_nth i v0 l))) in
  length l' = length l /\
  (forall j, nth_error l' j <> nth_error l j -> (i <= j <= i + 3)%nat) /\
  (forall j w, nth_error l' j = Some w ->
     nth_error l j = Some w \/ w = v0 \/ w = v1 \/ w = v2 \/ w = v3).
Proof.
  cbv zeta. split; [rewrite !set_nth_length; reflexivity|]. split.
  - intros j Hj.
    destruct (Nat.eq_dec j i); [lia|]. destruct (Nat.eq_dec j (i + 1)); [lia|].
    destruct (Nat.eq_dec j (i + 2)); [lia|]. destruct (Nat.eq_dec j (i + 3)); [lia|].
    exfalso. apply Hj.
    rewrite !nth_error_set_nth_neq by lia. reflexivity.
  - intros j w Hj.
    apply nth_error_set_nth_some in Hj as [Hj| ->]; [|tauto].
    apply nth_error_set_nth_some in Hj as [Hj| ->]; [|tauto].
    apply nth_error_set_nth_some in Hj as [Hj| ->]; [|tauto].
    apply nth_error_set_nth_some in Hj as [Hj| ->]; tauto.
Qed.

Lemma byte_range (v : float) : (0 <= byte v <= 255)%Z.
Proof.
  unfold byte.
  assert (E : Z.land (ToInt32 v) 255 = (ToInt32 v mod 2 ^ 8)%Z)
    by (change 255%Z with (Z.ones 8); apply Z.land_ones; lia).
  rewrite E. pose proof (Z.mod_pos_bound (ToInt32 v) (2 ^ 8) ltac:(lia)). lia.
Qed.

Lemma div4_of (zi j : nat) : (4 * zi <= j <= 4 * zi + 3)%nat -> (j / 4 = zi)%nat.
Proof.
  intros H. symmetry. apply (Nat.div_unique j 4 zi (j - 4 * zi)); lia.
Qed.

(** [putpixel] touches at most one pixel: off screen (after [x | 0] and
    [y | 0]) it changes nothing, and on screen it changes only
    [zBuf[zi]] and [backBuf[4 zi .. 4 zi + 3]] for
    [zi = (y | 0) * WIDTH + (x | 0)], for any numbers, NaN included.  It
    never changes the length of either buffer, and every byte it writes
    to [backBuf] is in [[0, 255]]. *)
Theorem putpixel_one_pixel (fb : framebuffer) (x y z r g b a : float) :
  let fb' := putpixel fb x y z r g b a in
  let xi := ToInt32 x in
  let yi := ToInt32 y in
  length (zBuf fb') = length (zBuf fb) /\
  length (backBuf fb') = length (backBuf fb) /\
  (forall k, nth_error (zBuf fb') k <> nth_error (zBuf fb) k ->
     (0 <= xi < WIDTH)%Z /\ (0 <= yi < HEIGHT)%Z /\ Z.of_nat k = (yi * WIDTH + xi)%Z) /\
  (forall j, nth_error (backBuf fb') j <> nth_error (backBuf fb) j ->
     (0 <= xi < WIDTH)%Z /\ (0 <= yi < HEIGHT)%Z /\ Z.of_nat (j / 4) = (yi * WIDTH + xi)%Z) /\
  (forall j v, nth_error (backBuf fb') j = Some v ->
     nth_error (backBuf fb) j = Some v \/ (0 <= v <= 255)%Z).
Proof.
  cbv zeta. unfold putpixel. cbv zeta.
  set (xi := ToInt32 x). set (yi := ToInt32 y).
  destruct ((xi <? 0)%Z || (WIDTH <=? xi)%Z || (yi <? 0)%Z || (HEIGHT <=? yi)%Z) eqn:Eb.
  { split; [reflexivity|]. split; [reflexivity|].
    split; [intros ? H; destruct H; reflexivity|]. split; [intros ? H; destruct H; reflexivity|].
    intros ? ? H; left; exact H. }
  apply orb_false_iff in Eb as [Eb E4]. apply orb_false_iff in Eb as [Eb E3].
  apply orb_false_iff in Eb as [E1 E2].
  apply Z.ltb_ge in E1, E3. apply Z.leb_gt in E2, E4.
  set (zi := Z.to_nat (yi * WIDTH + xi)).
  assert (Ezi : Z.of_nat zi = (yi * WIDTH + xi)%Z) by (apply Z2Nat.id; unfold WIDTH in *; lia).
  destruct (nth zi (zBuf fb) nan <=? z)%float.
  { split; [reflexivity|]. split; [reflexivity|].
    split; [intros ? H; destruct H; reflexivity|]. split; [intros ? H; destruct H; reflexivity|].
    intros ? ? H; left; exact H. }
  destruct (255 <=? a)%float; cbn [zBuf backBuf].
  - match goal with |- context [set_nth (?i + 3) ?v3 (set_nth (?i + 2) ?v2
        (set_nth (?i + 1) ?v1 (set_nth ?i ?v0 ?l)))] =>
      destruct (set4_props l i v0 v1 v2 v3) as (L & D & W) end.
    split; [apply set_nth_length|]. split; [exact L|]. split; [|split].
    + intros k Hk. destruct (Nat.eq_dec zi k) as [<-|Hne]; [tauto|].
      rewrite nth_error_set_nth_neq in Hk by exact Hne. destruct Hk; reflexivity.
    + intros j Hj. apply D in Hj. rewrite (div4_of zi j Hj). tauto.
    + intros j v Hj. apply W in Hj.
      destruct Hj as [Hj|[ ->|[ ->|[ ->| ->]]]]; auto; right;
        first [apply byte_range | lia].
  - match goal with |- context [set_nth (?i + 3) ?v3 (set_nth (?i + 2) ?v2
        (set_nth (?i + 1) ?v1 (set_nth ?i ?v0 ?l)))] =>
      destruct (set4_props l i v0 v1 v2 v3) as (L & D & W) end.
    split; [reflexivity|]. split; [exact L|]. split; [|split].
    + intros k Hk. destruct Hk; reflexivity.
    + intros j Hj. apply D in Hj. rewrite (div4_of zi j Hj). tauto.
    + intros j v Hj. apply W in Hj.
      destruct Hj as [Hj|[ ->|[ ->|[ ->| ->]]]]; auto; right; apply byte_range.
Qed.

(** For two numbers that are not NaN, [y < u] is [!(u <= y)]. *)
Lemma float_ltb_negb_leb (u y : float) :
  is_nan u = false -> is_nan y = false -> (y <? u) = negb (u <=? y).
Proof.
  intros Hu Hy. rewrite ltb_spec, leb_spec. unfold SFltb, SFleb.
  rewrite SFcompare_swap.
  pose proof (Prim2SF_not_nan u Hu) as Nu. pose proof (Prim2SF_not_nan y Hy) as Ny.
  revert Nu Ny. generalize (Prim2SF u) (Prim2SF y). intros a c Na Nc.
  assert (Hc : SFcompare a c <> None) by (destruct a, c; simpl; congruence).
  destruct (SFcompare a c) as [[| |]|]; simpl; congruence.
Qed.

(** Away from NaN, an edge crosses the scanline exactly when its two ends
    lie on different sides of it. *)
Lemma crosses_xorb (y0 y1 y : float) :
  is_nan y0 = false -> is_nan y1 = false -> is_nan y = false ->
  crosses y0 y1 y = xorb (y0 <=? y) (y1 <=? y).
Proof.
  intros H0 H1 Hy. unfold crosses.
  rewrite (float_ltb_negb_leb y1 y H1 Hy), (float_ltb_negb_leb y0 y H0 Hy).
  destruct (y0 <=? y), (y1 <=? y); reflexivity.
Qed.

Lemma fold_scan_length (pts : list spoint) (y : float) (l : list nat) (acc : list scross) :
  length (fold_left (scanline_step pts y) l acc) =
  (length acc + length (filter (fun i =>
     crosses (sp_y (nth i pts (mk_spoint 0 0 0 0 0 0)))
             (sp_y (nth ((i + 1) mod length pts) pts (mk_spoint 0 0 0 0 0 0))) y) l))%nat.
Proof.
  revert acc; induction l as [|i l IH]; intros acc; cbn [fold_left filter length]; [lia|].
  rewrite IH. unfold scanline_step; cbv zeta.
  destruct (crosses _ _ y); cbn [length]; [rewrite length_app; cbn [length]|]; lia.
Qed.

(** Along a path [0 .. m], the number of side changes has the parity of
    [f 0 xor f m]. *)
Lemma path_changes_odd (f : nat -> bool) (m : nat) :
  Nat.odd (length (filter (fun i => xorb (f i) (f (S i))) (seq 0 m))) = xorb (f 0%nat) (f m).
Proof.
  induction m as [|m IH].
  - cbn. destruct (f 0%nat); reflexivity.
  - rewrite seq_S, Nat.add_0_l, filter_app, length_app. cbn [filter].
    destruct (xorb (f m) (f (S m))) eqn:E; cbn [length].
    + rewrite Nat.add_1_r, Nat.odd_succ, <- Nat.negb_odd, IH.
      destruct (f 0%nat), (f m), (f (S m)); cbn in *; congruence.
    + rewrite Nat.add_0_r, IH.
      destruct (f 0%nat), (f m), (f (S m)); cbn in *; congruence.
Qed.

(** Around a closed cycle [0 .. n - 1, 0], the number of side changes is
    even. *)
Lemma cyclic_changes_even (f : nat -> bool) (n : nat) :
  Nat.even (length (filter (fun i => xorb (f i) (f ((i + 1) mod n))) (seq 0 n))) = true.
Proof.
  destruct n as [|m]; [reflexivity|].
  rewrite seq_S, Nat.add_0_l, filter_app, length_app.
  rewrite (filter_ext_in _ (fun i => xorb (f i) (f (S i)))).
  2:{ intros i Hi. apply in_seq in Hi. rewrite Nat.mod_small by lia.
      rewrite Nat.add_1_r. reflexivity. }
  cbn [filter]. replace ((m + 1) mod S m)%nat with 0%nat
    by (rewrite Nat.add_1_r; symmetry; apply Nat.Div0.mod_same).
  rewrite Nat.even_add, <- Nat.negb_odd, path_changes_odd.
  destruct (f 0%nat), (f m); reflexivity.
Qed.

(** For a polygon whose points all have a non-NaN [y], and a non-NaN
    scanline [y], [scanlineHits] returns an even number of crossings
    (whatever order the sort leaves them in), so the loop of [fillpoly],
    which fills the spans between hits [0, 1], [2, 3], ..., uses every
    crossing. *)
Theorem scanlineHits_even (hits_sort : list scross -> list scross)
  (Hsort : forall l, Permutation (hits_sort l) l)
  (pts : list spoint) (y : float)
  (Hy : is_nan y = false) (Hp : Forall (fun p => is_nan (sp_y p) = false) pts) :
  Nat.Even (length (scanlineHits hits_sort pts y)).
Proof.
  apply Nat.even_spec. unfold scanlineHits.
  rewrite (Permutation_length (Hsort _)), fold_scan_length. cbn [length Nat.add].
  set (d := mk_spoint 0 0 0 0 0 0).
  rewrite (filter_ext_in _ (fun i => xorb ((fun k => sp_y (nth k pts d) <=? y) i)
                                          ((fun k => sp_y (nth k pts d) <=? y)
                                             ((i + 1) mod length pts)))).
  - exact (cyclic_changes_even (fun k => sp_y (nth k pts d) <=? y) (length pts)).
  - intros i Hi. apply in_seq in Hi.
    rewrite Forall_forall in Hp.
    apply crosses_xorb; [apply Hp, nth_In; lia| |exact Hy].
    apply Hp, nth_In, Nat.mod_upper_bound. lia.
Qed.

Lemma scanlineHits_even_witness :
  length (scanlineHits (fun l => l) ex_poly 3) = 2%nat /\
  Nat.Even (length (scanlineHits (fun l => l) ex_poly 3)).
Proof.
  split; [vm_compute; reflexivity|].
  apply (scanlineHits_even (fun l => l) (fun l => Permutation_refl l) ex_poly 3).
  - vm_compute. reflexivity.
  - vm_compute. repeat constructor.
Defined.

(* ----------------------------------------------------------------- *)
(** *** shader-source.js: [marchingCubes] *)

Import MarchingCubes.

(** A triangle whose three indices are defined and below [L]. *)
Definition mc_tri_ok (L : nat) (t : v3 (option nat)) : Prop :=
  exists i j k, t = mk3 (Some i) (Some j) (Some k) /\
    (i < L)%nat /\ (j < L)%nat /\ (k < L)%nat.

(** Table entry [k] names an edge whose bit is set in [edges]. *)
Definition crossed (edges k : Z) : bool :=
  (0 <=? k)%Z && (k <? 12)%Z && negb (Z.land edges (Z.shiftl 1 k) =? 0)%Z.

(** A [TRI_TABLE] row that [emit_tris] reads only at crossed edges. *)
Fixpoint tri_row_ok (edges : Z) (l : list Z) : bool :=
  match l with
  | [] => true
  | a :: r =>
      if (a =? -1)%Z then true else
      match r with
      | b :: c :: r' => crossed edges a && crossed edges b && crossed edges c &&
                        tri_row_ok edges r'
      | _ => false
      end
  end.

(** The state invariant: every triangle index and every value of
    [edgeVertexMap] is an index of [vertices]. *)
Definition mc_inv (st : mc_state) : Prop :=
  Forall (mc_tri_ok (length (mc_vertices st))) (mc_triangles st) /\
  Forall (fun kv => (snd kv < length (mc_vertices st))%nat) (mc_edgeVertexMap st).

Definition edge_acc_inv (acc : list fvec * list (float * nat) * list (option nat)) : Prop :=
  let '(vs, m, ev) := acc in
  Forall (fun kv => (snd kv < length vs)%nat) m /\ length ev = 12%nat /\
  (forall k v, nth_error ev k = Some (Some v) -> (v < length vs)%nat).

Definition ev_has (ev : list (option nat)) (k : nat) : Prop :=
  exists v, nth_error ev k = Some (Some v).

Lemma mc_tables_ok (c : Z) :
  (0 <= c < 256)%Z ->
  exists edges triList, nth_error_Z EDGE_TABLE c = Some edges /\
    nth_error_Z TRI_TABLE c = Some triList /\ tri_row_ok edges triList = true.
Proof.
  intros Hc.
  assert (Hall : forallb (fun c =>
      match nth_error EDGE_TABLE c, nth_error TRI_TABLE c with
      | Some e, Some t => tri_row_ok e t
      | _, _ => false
      end) (seq 0 256) = true) by (vm_compute; reflexivity).
  rewrite forallb_forall in Hall.
  specialize (Hall (Z.to_nat c) ltac:(apply in_seq; lia)).
  unfold nth_error_Z. destruct (Z.ltb_spec c 0); [lia|].
  destruct (nth_error EDGE_TABLE (Z.to_nat c)), (nth_error TRI_TABLE (Z.to_nat c));
    try discriminate. eauto.
Qed.

Lemma lor_lt_256 (a b : Z) :
  (0 <= a < 256)%Z -> (0 <= b < 256)%Z -> (0 <= Z.lor a b < 256)%Z.
Proof.
  intros Ha Hb.
  assert (Ea : Z.land a (Z.ones 8) = a)
    by (rewrite Z.land_ones by lia; apply Z.mod_small; cbn; lia).
  assert (Eb : Z.land b (Z.ones 8) = b)
    by (rewrite Z.land_ones by lia; apply Z.mod_small; cbn; lia).
  rewrite <- Ea, <- Eb, <- Z.land_lor_distr_l, Z.land_ones by lia.
  pose proof (Z.mod_pos_bound (Z.lor a b) (2 ^ 8) ltac:(lia)). cbn in *. lia.
Qed.

Lemma cubeIndex_range field n ix iy iz threshold :
  (0 <= cubeIndex field n ix iy iz threshold < 256)%Z.
Proof.
  unfold cubeIndex.
  assert (H : forall l ci, (forall c, In c l -> c < 8)%nat -> (0 <= ci < 256)%Z ->
    (0 <= fold_left (fun ci c =>
       if (threshold <=? cornerVal field n ix iy iz c)%float
       then Z.lor ci (Z.shiftl 1 (Z.of_nat c)) else ci) l ci < 256)%Z).
  { induction l as [|c l IH]; intros ci Hl Hci; cbn [fold_left]; [exact Hci|].
    apply IH; [intros; apply Hl; right; assumption|].
    destruct (_ <=? _); [|exact Hci].
    apply lor_lt_256; [exact Hci|].
    rewrite Z.shiftl_1_l. specialize (Hl c (or_introl eq_refl)).
    split; [apply Z.pow_nonneg; lia|].
    apply Z.lt_le_trans with (2 ^ 8)%Z; [apply Z.pow_lt_mono_r; lia | cbn; lia]. }
  apply H; [intros c Hc; apply in_seq in Hc; lia | lia].
Qed.

Lemma nth_error_set_nth_eq {A} (i : nat) (v : A) (l : list A) :
  (i < length l)%nat -> nth_error (set_nth i v l) i = Some v.
Proof.
  revert i; induction l as [|c l IH]; intros [|i] Hi; cbn in *; try lia; try reflexivity.
  apply IH. lia.
Qed.

Lemma map_get_in (m : list (float * nat)) (key : float) (idx : nat) :
  map_get m key = Some idx -> exists k, In (k, idx) m.
Proof.
  unfold map_get. destruct (find _ m) as [[k v]|] eqn:E; cbn; intros H; [|discriminate].
  injection H as <-. exists k. apply find_some in E. tauto.
Qed.

Lemma processCell_edge_inv ix iy iz field n gridMin cellSize threshold edges
    vs m ev e vs' m' ev' :
  edge_acc_inv (vs, m, ev) ->
  processCell_edge ix iy iz field n gridMin cellSize threshold edges (vs, m, ev) e =
    (vs', m', ev') ->
  edge_acc_inv (vs', m', ev') /\ (length vs <= length vs')%nat /\
  (forall k, ev_has ev k -> ev_has ev' k) /\
  ((e < 12)%nat -> Z.land edges (Z.shiftl 1 (Z.of_nat e)) <> 0%Z -> ev_has ev' e).
Proof.
  intros (Hm & Hlen & Hev) Hstep. unfold processCell_edge in Hstep.
  destruct (Z.eqb_spec (Z.land edges (Z.shiftl 1 (Z.of_nat e))) 0) as [Hz|Hz].
  - injection Hstep as <- <- <-.
    split; [repeat split; assumption|]. split; [lia|]. split; [tauto|].
    intros _ H; contradiction.
  - destruct (nth e EDGE_CORNERS (0, 0)%nat) as [cA cB].
    assert (Hkeep : forall w k, ev_has ev k -> ev_has (set_nth e (Some w) ev) k).
    { intros w k [v Hv]. destruct (Nat.eq_dec k e) as [->|Hne].
      - exists w. apply nth_error_set_nth_eq. apply nth_error_Some. congruence.
      - exists v. rewrite nth_error_set_nth_neq by congruence. exact Hv. }
    destruct (map_get m _) as [idx|] eqn:Eg.
    + injection Hstep as <- <- <-.
      apply map_get_in in Eg as [k Hk].
      assert (Hidx : (idx < length vs)%nat)
        by (rewrite Forall_forall in Hm; exact (Hm _ Hk)).
      split; [repeat split|]; [assumption | rewrite set_nth_length; assumption | |].
      { intros j v Hj. apply nth_error_set_nth_some in Hj as [Hj|Hj].
        - exact (Hev _ _ Hj).
        - injection Hj as ->. exact Hidx. }
      split; [lia|]. split; [apply Hkeep|].
      intros He _. exists idx. apply nth_error_set_nth_eq. lia.
    + injection Hstep as <- <- <-.
      unfold edge_acc_inv. rewrite length_app. cbn [length].
      split; [repeat split|]; [| rewrite set_nth_length; assumption | |].
      { apply Forall_app. split.
        - eapply Forall_impl; [|exact Hm]. intros kv H; cbn beta in *; lia.
        - constructor; [cbn; lia | constructor]. }
      { intros j v Hj. apply nth_error_set_nth_some in Hj as [Hj|Hj].
        - pose proof (Hev _ _ Hj). lia.
        - injection Hj as ->. lia. }
      split; [lia|]. split; [apply Hkeep|].
      intros He _. exists (length vs). apply nth_error_set_nth_eq. lia.
Qed.

Lemma edge_fold_inv ix iy iz field n gridMin cellSize threshold edges (l : list nat) :
  forall vs m ev vs' m' ev',
  edge_acc_inv (vs, m, ev) ->
  fold_left (processCell_edge ix iy iz field n gridMin cellSize threshold edges) l
    (vs, m, ev) = (vs', m', ev') ->
  edge_acc_inv (vs', m', ev') /\ (length vs <= length vs')%nat /\
  (forall k, ev_has ev k -> ev_has ev' k) /\
  (forall e, In e l -> (e < 12)%nat -> Z.land edges (Z.shiftl 1 (Z.of_nat e)) <> 0%Z ->
     ev_has ev' e).
Proof.
  induction l as [|e l IH]; intros vs m ev vs' m' ev' Hinv Hf; cbn [fold_left] in Hf.
  - injection Hf as <- <- <-.
    split; [exact Hinv|]. split; [lia|]. split; [tauto|]. intros e [].
  - destruct (processCell_edge ix iy iz field n gridMin cellSize threshold edges (vs, m, ev) e)
      as [[vs1 m1] ev1] eqn:E1.
    destruct (processCell_edge_inv _ _ _ _ _ _ _ _ _ _ _ _ _ _ _ _ Hinv E1)
      as (Hinv1 & Hl1 & Hk1 & He1).
    destruct (IH _ _ _ _ _ _ Hinv1 Hf) as (Hinv2 & Hl2 & Hk2 & He2).
    split; [exact Hinv2|]. split; [lia|]. split; [auto|].
    intros e' [<-|Hin] Hlt Hb; [apply Hk2, He1; assumption | exact (He2 e' Hin Hlt Hb)].
Qed.

Lemma emit_tris_ok (edges : Z) (ev : list (option nat)) (L : nat) :
  (forall k, crossed edges k = true ->
     exists v, edgeVerts_at ev (Some k) = Some v /\ (v < L)%nat) ->
  forall triList, tri_row_ok edges triList = true ->
  Forall (mc_tri_ok L) (emit_tris ev triList).
Proof.
  intros Hev. fix IH 1. intros [|a r] Hok; [constructor|].
  cbn [tri_row_ok] in Hok. cbn [emit_tris].
  destruct (a =? -1)%Z; [constructor|].
  destruct r as [|b [|c r']]; try discriminate.
  apply andb_prop in Hok as [Hok Hr]. apply andb_prop in Hok as [Hok Hc].
  apply andb_prop in Hok as [Ha Hb].
  constructor; [|apply IH; exact Hr].
  destruct (Hev a Ha) as (i & -> & Hi), (Hev b Hb) as (j & -> & Hj),
    (Hev c Hc) as (k & -> & Hk).
  exists i, j, k. auto.
Qed.

Lemma mc_tri_ok_mono (L L' : nat) (t : v3 (option nat)) :
  (L <= L')%nat -> mc_tri_ok L t -> mc_tri_ok L' t.
Proof.
  intros HL (i & j & k & -> & Hi & Hj & Hk). exists i, j, k. repeat split; lia.
Qed.

Lemma processCell_inv ix iy iz field n gridMin cellSize threshold (st : mc_state) :
  mc_inv st ->
  exists st', processCell ix iy iz field n gridMin cellSize threshold st = Some st' /\
    mc_inv st'.
Proof.
  intros [Ht Hm]. unfold processCell. cbv zeta.
  destruct (mc_tables_ok _ (cubeIndex_range field n ix iy iz threshold))
    as (edges & triList & Ee & Et & Hok).
  rewrite Ee. destruct (edges =? 0)%Z eqn:Hz; [exists st; split; [reflexivity | split; assumption]|].
  destruct (fold_left (processCell_edge ix iy iz field n gridMin cellSize threshold edges)
              (seq 0 12) (mc_vertices st, mc_edgeVertexMap st, repeat None 12))
    as [[vs m] ev] eqn:Ef.
  assert (Hinv0 : edge_acc_inv (mc_vertices st, mc_edgeVertexMap st, repeat None 12)).
  { split; [exact Hm|]. split; [reflexivity|].
    intros k v Hk. apply nth_error_In, repeat_spec in Hk. discriminate. }
  destruct (edge_fold_inv _ _ _ _ _ _ _ _ _ _ _ _ _ _ _ _ Hinv0 Ef)
    as ((Hm' & Hlen & Hev) & Hl & _ & He).
  rewrite Et. eexists; split; [reflexivity|]. split; cbn [mc_vertices mc_triangles mc_edgeVertexMap].
  - apply Forall_app. split.
    + eapply Forall_impl; [|exact Ht]. intros t. apply mc_tri_ok_mono. exact Hl.
    + apply (emit_tris_ok edges); [|exact Hok].
      intros k Hk. unfold crossed in Hk.
      apply andb_prop in Hk as [Hk Hbit]. apply andb_prop in Hk as [H0 H12].
      apply Z.leb_le in H0. apply Z.ltb_lt in H12. apply negb_true_iff, Z.eqb_neq in Hbit.
      destruct (He (Z.to_nat k)) as [v Hv].
      { apply in_seq. lia. }
      { lia. }
      { rewrite Z2Nat.id by lia. exact Hbit. }
      exists v. split; [|exact (Hev _ _ Hv)].
      unfold edgeVerts_at, nth_error_Z. destruct (Z.ltb_spec k 0); [lia|].
      rewrite Hv. reflexivity.
  - exact Hm'.
Qed.

Lemma fold_opt_preserves {A B} (P : A -> Prop) (f : A -> B -> option A) (l : list B) :
  (forall a b, P a -> exists a', f a b = Some a' /\ P a') ->
  forall a, P a -> exists a', fold_opt f l a = Some a' /\ P a'.
Proof.
  intros Hf. induction l as [|b l IH]; intros a Ha; cbn; [eauto|].
  destruct (Hf a b Ha) as (a' & -> & Ha'). cbn. exact (IH a' Ha').
Qed.

(** [marchingCubes] never throws, and every triangle it emits has three
    defined indices, each below [vertices.length], for every field (of
    any length, NaN included), [res], [gridMin], [cellSize] and
    [threshold].  The [TRI_TABLE] row of every [cubeIndex] names only
    edges whose bit is set in [EDGE_TABLE], and each such edge gets an
    entry of [edgeVerts], fresh or shared through [edgeVertexMap]. *)
Theorem marchingCubes_indices_valid (field : list float) (res : nat) (gridMin : fvec)
    (cellSize threshold : float) :
  exists vertices triangles,
    marchingCubes field res gridMin cellSize threshold = Some (vertices, triangles) /\
    Forall (fun t => exists i j k, t = mk3 (Some i) (Some j) (Some k) /\
      (i < length vertices)%nat /\ (j < length vertices)%nat /\
      (k < length vertices)%nat) triangles.
Proof.
  unfold marchingCubes.
  destruct (fold_opt_preserves mc_inv (fun st iz =>
       fold_opt (fun st iy =>
         fold_opt (fun st ix =>
           processCell ix iy iz field (S res) gridMin cellSize threshold st)
           (seq 0 res) st)
         (seq 0 res) st) (seq 0 res)) with (a := mk_mc [] [] [])
    as (st & E & [Ht _]).
  - intros st iz Hst. apply fold_opt_preserves; [|exact Hst].
    intros st' iy H'. apply fold_opt_preserves; [|exact H'].
    intros st'' ix H''. apply processCell_inv. exact H''.
  - split; constructor.
  - rewrite E. cbn [option_map]. exists (mc_vertices st), (mc_triangles st).
    split; [reflexivity | exact Ht].
Qed.

(* ----------------------------------------------------------------- *)
(** *** environment.js: [envAnyHit] against [envIntersect] *)

(** [envAnyHit(o, d, maxDist)] is [true] exactly when [envIntersect(o, d)]
    returns a hit whose [t] is not above [maxDist] and whose hit point
    [(hx, hz)] is not NaN: [envAnyHit] tests the bounds with [>=] and
    [<=], which are false on NaN, where [envIntersect] rejects with [<]
    and [>], which are false on NaN too. *)
Theorem envAnyHit_agrees_envIntersect (o d : Ground.fvec) (maxDist : float) :
  let t := ((120 - c1 o) / c1 d)%float in
  let hx := (c0 o + c0 d * t)%float in
  let hz := (c2 o + c2 d * t)%float in
  Ground.envAnyHit o d maxDist = true <->
  (exists h, Ground.envIntersect o d = Some h /\ (maxDist <? Ground.eh_t h)%float = false) /\
  is_nan hx = false /\ is_nan hz = false.
Proof.
  cbv zeta. rewrite envIntersect_unfold. cbv zeta.
  unfold Ground.envAnyHit. rewrite environment_floor_values. cbn_floor.
  set (t := ((120 - c1 o) / c1 d)%float).
  set (hx := (c0 o + c0 d * t)%float). set (hz := (c2 o + c2 d * t)%float).
  destruct (abs (c1 d) <? F64.RT_EPSILON)%float; cbn [orb].
  { split; [discriminate|]. intros [[h [Hh _]] _]. discriminate. }
  destruct (t <? F64.RT_EPSILON)%float; cbn [orb].
  { split; [discriminate|]. intros [[h [Hh _]] _]. discriminate. }
  destruct (maxDist <? t)%float eqn:Em; cbn [orb].
  { split; [discriminate|]. intros [[h [Hh Hm]] _].
    destruct (_ || _)%bool; [discriminate|]. injection Hh as <-.
    cbn [Ground.eh_t] in Hm. congruence. }
  destruct (is_nan hx) eqn:Nx.
  { rewrite (nan_leb_r _ _ Nx). cbn [andb].
    split; [discriminate|]. intros [_ [H _]]. discriminate. }
  destruct (is_nan hz) eqn:Nz.
  { rewrite (nan_leb_r _ _ Nz), andb_false_r. cbn [andb].
    split; [discriminate|]. intros [_ [_ H]]. discriminate. }
  rewrite (float_ltb_negb_leb (-480) hx eq_refl Nx),
          (float_ltb_negb_leb hx 480 Nx eq_refl),
          (float_ltb_negb_leb (-380) hz eq_refl Nz),
          (float_ltb_negb_leb hz 580 Nz eq_refl).
  destruct (-480 <=? hx)%float, (hx <=? 480)%float, (-380 <=? hz)%float, (hz <=? 580)%float;
    cbn; first
      [ split; [intros _; split; [eexists; split; [reflexivity|exact Em] | split; reflexivity]
               | intros _; reflexivity]
      | split; [discriminate | intros [[h [Hh _]] _]; discriminate] ].
Qed.

(** A ray from [(0, 0, 100)] straight up reaches the ground at [t = 120]:
    it counts within [200] and is cut off within [100]. *)
Lemma envAnyHit_agrees_envIntersect_witness :
  Ground.envAnyHit (mk3 0 0 100)%float Ground.ex_up 200 = true /\
  Ground.envAnyHit (mk3 0 0 100)%float Ground.ex_up 100 = false.
Proof.
  split.
  - apply (envAnyHit_agrees_envIntersect (mk3 0 0 100)%float Ground.ex_up 200).
    split; [|split; reflexivity].
    eexists; split; [vm_compute; reflexivity|]. vm_compute. reflexivity.
  - destruct (Ground.envAnyHit (mk3 0 0 100)%float Ground.ex_up 100) eqn:E; [|reflexivity].
    apply (envAnyHit_agrees_envIntersect (mk3 0 0 100)%float Ground.ex_up 100) in E.
    destruct E as [[h [Hh Hm]] _]. vm_compute in Hh. injection Hh as <-.
    vm_compute in Hm. discriminate.
Defined.
